(** * Session state controller of plainbox ([plainbox/impl/ctrl.py])

    A shallow embedding of [CheckBoxSessionStateController] and of
    [gen_rfc822_records_from_io_log], followed by the properties of the
    dependency-set builder, the before-reference linker, the readiness
    inhibitor engine, the result observer and the resource/template
    pipeline.

    Python dictionaries are [gmap]s, Python sets are [gset]s, exceptions are
    the left summand of [Res], and the code that mutates the session is
    written in a state-and-exception monad over the mutated store. *)

From Stdlib Require Import Ascii.
From stdpp Require Import gmap strings list fin_maps sorting.

Set Default Proof Using "Type".

(** ** Exceptions *)

Inductive Exn :=
  | KeyError (key : string)
  | TypeError.

Definition Res (A : Type) : Type := Exn + A.

Definition ret {A} (a : A) : Res A := inr a.
Definition raise {A} (e : Exn) : Res A := inl e.
Definition bind {A B} (m : Res A) (k : A → Res B) : Res B :=
  match m with
  | inl e => inl e
  | inr a => k a
  end.

Declare Scope res_scope.
Delimit Scope res_scope with res.
Notation "x <~ m ; k" := (bind m (fun x => k))
  (at level 20, m at level 100, k at level 200, only parsing) : res_scope.
Open Scope res_scope.

(** [d[k]] on a dictionary: the value, or [KeyError]. *)
Definition getitem {V} (d : gmap string V) (k : string) : Res V :=
  match d !! k with
  | Some v => ret v
  | None => raise (KeyError k)
  end.

(** A [for] loop whose body appends to one list and may raise. *)
Fixpoint for_each {A B} (body : A → Res (list B)) (l : list A)
  : Res (list B) :=
  match l with
  | [] => ret []
  | x :: l' =>
      ys <~ body x;
      zs <~ for_each body l';
      ret (ys ++ zs)
  end.

(** [sorted(...)] on job ids; Python orders [str] by code point, which on
    the encoded text is the byte-wise lexicographic order [String.le]. *)
Definition sorted (l : list string) : list string := merge_sort String.le l.

(** ** Data model *)

(** The outcomes exchanged with the job runner; [OUTCOME_NONE] is Python's
    [None], [OUTCOME_PASS] is the text ["pass"]. *)
Inductive Outcome :=
  | OUTCOME_NONE
  | OUTCOME_PASS
  | OUTCOME_FAIL
  | OUTCOME_CRASH
  | OUTCOME_SKIP
  | OUTCOME_NOT_SUPPORTED.

Global Instance Outcome_eq_dec : EqDecision Outcome.
Proof. solve_decision. Defined.

(** One entry of the I/O log: [record[1]] is the stream name and
    [record[2]] the raw bytes ([record[0]], the delay, is never read). *)
Record IOLogRecord := {
  stream_name : string;
  io_data : string;
}.

Global Instance IOLogRecord_eq_dec : EqDecision IOLogRecord.
Proof. solve_decision. Defined.

Record JobResult := {
  outcome : Outcome;
  get_io_log : list IOLogRecord;
}.

Global Instance JobResult_eq_dec : EqDecision JobResult.
Proof. solve_decision. Defined.

(** A resource record, [Resource(data)]. *)
Record Resource := mkResource { resource_data : gmap string string }.

Global Instance Resource_eq_dec : EqDecision Resource.
Proof. solve_decision. Defined.

Record ResourceExpression := {
  expression_text : string;
  resource_id_list : list string;
}.

Global Instance ResourceExpression_eq_dec : EqDecision ResourceExpression.
Proof. solve_decision. Defined.

Record ResourceProgram := { expression_list : list ResourceExpression }.

Global Instance ResourceProgram_eq_dec : EqDecision ResourceProgram.
Proof. solve_decision. Defined.

(** The value of the ["depends"] key of one sibling, as [json.loads] gives
    it: a text or a list of texts. *)
Inductive DependsValue :=
  | DependsText (s : string)
  | DependsList (l : list string).

Global Instance DependsValue_eq_dec : EqDecision DependsValue.
Proof. solve_decision. Defined.

(** One element of [json.loads(job.tr_siblings())]; [sibling_depends] is
    [sibling_data.get("depends")] before the default is applied. *)
Record SiblingData := { sibling_depends : option DependsValue }.

Global Instance SiblingData_eq_dec : EqDecision SiblingData.
Proof. solve_decision. Defined.

(** A job definition.  The [get_*] fields are the values of the accessor
    methods of the same name ([get_resource_dependencies] is [None] when the
    call raises [ResourceProgramError]); [flags] is the text of the field
    of that name, [None] when the job has none; [siblings] is [None] when
    [job.siblings] is falsy and otherwise the decoded value of
    [job.tr_siblings()]; [before_references] is the one field that is
    mutated after loading. *)
Record JobDefinition := {
  id : string;
  plugin : string;
  flags : option string;
  siblings : option (list SiblingData);
  get_direct_dependencies : list string;
  get_after_dependencies : list string;
  get_salvage_dependencies : list string;
  get_before_dependencies : list string;
  get_resource_dependencies : option (list string);
  get_resource_program : option ResourceProgram;
  before_references : gset string;
}.

Global Instance Exn_eq_dec : EqDecision Exn.
Proof. solve_decision. Defined.

Global Instance JobDefinition_eq_dec : EqDecision JobDefinition.
Proof. solve_decision. Defined.

Inductive InhibitionCause :=
  | UNDESIRED
  | PENDING_DEP
  | FAILED_DEP
  | PENDING_RESOURCE
  | FAILED_RESOURCE
  | NOT_FAILED_DEP.

Global Instance InhibitionCause_eq_dec : EqDecision InhibitionCause.
Proof. solve_decision. Defined.

Record JobReadinessInhibitor := {
  cause : InhibitionCause;
  related_job : option JobDefinition;
  related_expression : option ResourceExpression;
}.

Global Instance JobReadinessInhibitor_eq_dec : EqDecision JobReadinessInhibitor.
Proof. solve_decision. Defined.

Record JobState := {
  job : JobDefinition;
  result : JobResult;
  readiness_inhibitor_list : list JobReadinessInhibitor;
}.

Global Instance JobState_eq_dec : EqDecision JobState.
Proof. solve_decision. Defined.

Inductive DependencyType :=
  | RESOURCE
  | DEPENDS
  | AFTER
  | BEFORE.

Global Instance DependencyType_eq_dec : EqDecision DependencyType.
Proof. solve_decision. Defined.

Global Instance DependencyType_countable : Countable DependencyType.
Proof.
  refine (inj_countable'
    (λ t, match t with RESOURCE => 0 | DEPENDS => 1 | AFTER => 2 | BEFORE => 3 end)
    (λ n, match n with 0 => RESOURCE | 1 => DEPENDS | 2 => AFTER | _ => BEFORE end)
    _).
  by intros [].
Defined.

(** Units of the session: jobs, templates and the placeholders that
    [InvalidJob.from_unit] builds around a generated job and its errors. *)
Record TemplateUnit := {
  template_id : string;
  resource_id : string;
}.

Global Instance TemplateUnit_eq_dec : EqDecision TemplateUnit.
Proof. solve_decision. Defined.

Inductive Severity := error | warning | advice.

Global Instance Severity_eq_dec : EqDecision Severity.
Proof. solve_decision. Defined.

Record Issue := {
  severity : Severity;
  issue_text : string;
}.

Global Instance Issue_eq_dec : EqDecision Issue.
Proof. solve_decision. Defined.

(** What the [errors] list of a placeholder holds: the error-severity
    findings of [check()], or the [MissingParam] exception itself. *)
Inductive UnitError :=
  | IssueError (c : Issue)
  | MissingParam (parameter : string).

Global Instance UnitError_eq_dec : EqDecision UnitError.
Proof. solve_decision. Defined.

Inductive Unit :=
  | JobUnit (j : JobDefinition)
  | TemplateUnit_ (t : TemplateUnit)
  | InvalidJob (j : JobDefinition) (errors : list UnitError).

Global Instance Unit_eq_dec : EqDecision Unit.
Proof. solve_decision. Defined.

Definition unit_id (u : Unit) : string :=
  match u with
  | JobUnit j => id j
  | TemplateUnit_ t => template_id t
  | InvalidJob j _ => id j
  end.

(** The two notifications of the session, in the order they were fired. *)
Inductive Signal :=
  | on_job_state_map_changed
  | on_job_result_changed (j : JobDefinition) (r : JobResult).

Global Instance Signal_eq_dec : EqDecision Signal.
Proof. solve_decision. Defined.

(** The session: the three shared stores, the metadata flags and the
    notifications fired so far. *)
Record SessionState := {
  job_state_map : gmap string JobState;
  resource_map : gmap string (list Resource);
  unit_list : list Unit;
  metadata_flags : gset string;
  fired : list Signal;
}.

(** ** External collaborators *)

(** [plainbox.suspend_consts.Suspend]: the ids of the two checkpoint jobs
    and the flag that goes with each. *)
Class Suspend := {
  AUTO_JOB_ID : string;
  MANUAL_JOB_ID : string;
  AUTO_FLAG : string;
  MANUAL_FLAG : string;
}.

(** What [prog.evaluate_or_raise(resource_map)] does: it returns, or raises
    one of the two expression errors, which carry the expression. *)
Inductive Evaluation :=
  | Evaluated
  | ExpressionCannotEvaluateError (expression : ResourceExpression)
  | ExpressionFailedError (expression : ResourceExpression).

Class ResourceEvaluator := {
  evaluate_or_raise : ResourceProgram → gmap string (list Resource) → Evaluation;
}.

(** ** Dependency set builder *)

(** [needle in haystack] on two texts. *)
Fixpoint str_contains (needle haystack : string) : bool :=
  String.prefix needle haystack ||
  match haystack with
  | EmptyString => false
  | String _ rest => str_contains needle rest
  end.

(** [x in v] where [v] is the ["depends"] value of a sibling. *)
Definition depends_contains (x : string) (v : DependsValue) : bool :=
  match v with
  | DependsText s => str_contains x s
  | DependsList l => bool_decide (x ∈ l)
  end.

(** [state.job] and [state.result], usable where a parameter named [job] or
    [result] is in scope. *)
Abbreviation job_of := job.
Abbreviation result_of := result.

Section controller.
Context {consts : Suspend} {evaluator : ResourceEvaluator}.

(** [job.flags] is a text: it is truthy when it is there and not empty,
    and [expected_flag in job.flags] asks whether the flag occurs in it;
    when the dictionary has no flag for the id, [None in job.flags] raises
    [TypeError]. *)
Definition _is_job_impacting_suspend
    (suspend_job_id : string) (job : JobDefinition) : Res bool :=
  let expected_flag : option string :=
    (<[MANUAL_JOB_ID := MANUAL_FLAG]> (<[AUTO_JOB_ID := AUTO_FLAG]> ∅)
      : gmap string string) !! suspend_job_id in
  flagged <~
    match flags job with
    | None => ret false
    | Some text =>
        if bool_decide (text = EmptyString) then ret false
        else
          match expected_flag with
          | Some flag => ret (str_contains flag text)
          | None => raise TypeError
          end
    end;
  if flagged : bool then ret true
  else
    ret match siblings job with
        | Some sibling_list =>
            existsb
              (λ sibling_data,
                 match sibling_depends sibling_data with
                 | Some v => depends_contains suspend_job_id v
                 | None => false
                 end)
              sibling_list
        | None => false
        end.

(** [filter(p, job_list)] raises [TypeError] when [job_list] is [None];
    the set comprehension then asks the filter for every job in turn. *)
Definition _get_before_suspend_dependency_set
    (suspend_job_id : string) (job_list : option (list JobDefinition))
  : Res (gset string) :=
  match job_list with
  | None => raise TypeError
  | Some l =>
      suspend_deps_jobs <~
        for_each
          (λ job,
             impacting <~ _is_job_impacting_suspend suspend_job_id job;
             ret (if impacting : bool then [job] else []))
          l;
      ret (list_to_set (id <$> suspend_deps_jobs))
  end.

Definition get_dependency_set
    (job : JobDefinition) (job_list : option (list JobDefinition))
  : Res (gset (DependencyType * string)) :=
  let depends := DEPENDS in
  let after := AFTER in
  let resource := RESOURCE in
  let before := BEFORE in
  let direct_deps := get_direct_dependencies job in
  let after_deps := get_after_dependencies job in
  let before_refs := before_references job in
  let resource_deps :=
    match get_resource_dependencies job with
    | Some deps => deps
    | None => []
    end in
  suspend_deps <~
    (if bool_decide (id job ∈ [AUTO_JOB_ID; MANUAL_JOB_ID])
     then _get_before_suspend_dependency_set (id job) job_list
     else ret ∅);
  ret (list_to_set
         (((λ d, (depends, d)) <$> direct_deps) ++
          ((λ d, (resource, d)) <$> resource_deps) ++
          ((λ d, (after, d)) <$> after_deps) ++
          ((λ d, (after, d)) <$> elements suspend_deps) ++
          ((λ d, (before, d)) <$> elements before_refs))).

(** ** Readiness inhibitor engine *)

Definition inhibitor (c : InhibitionCause) (j : JobDefinition)
    (e : option ResourceExpression) : JobReadinessInhibitor :=
  {| cause := c; related_job := Some j; related_expression := e |}.

(** The values of the dictionary are visited in the order of
    [map_to_list]; [filter] is lazy, so a job is tested and then looked up
    before the next one is tested. *)
Definition _get_suspend_inhibitor_list
    (session_state : SessionState) (suspend_job : JobDefinition)
  : Res (list JobReadinessInhibitor) :=
  let undesired_inhibitor :=
    {| cause := UNDESIRED; related_job := None; related_expression := None |} in
  let run_list :=
    job <$> filter (λ state, undesired_inhibitor ∉ readiness_inhibitor_list state)
                   ((map_to_list (job_state_map session_state)).*2) in
  for_each
    (λ job,
       impacting <~ _is_job_impacting_suspend (id suspend_job) job;
       if impacting : bool then
         state <~ getitem (job_state_map session_state) (id job);
         if bool_decide (outcome (result state) = OUTCOME_NONE)
         then ret [inhibitor PENDING_DEP job None]
         else ret []
       else ret [])
    run_list.

Definition get_inhibitor_list
    (session_state : SessionState) (job : JobDefinition)
  : Res (list JobReadinessInhibitor) :=
  from_resources <~
    match get_resource_program job with
    | None => ret []
    | Some prog =>
        match evaluate_or_raise prog (resource_map session_state) with
        | Evaluated => ret []
        | ExpressionCannotEvaluateError expression =>
            for_each
              (λ resource_id,
                 state <~ getitem (job_state_map session_state) resource_id;
                 if bool_decide (outcome (result state) = OUTCOME_PASS)
                 then ret []
                 else ret [inhibitor PENDING_RESOURCE (job_of state)
                                     (Some expression)])
              (resource_id_list expression)
        | ExpressionFailedError expression =>
            for_each
              (λ resource_id,
                 state <~ getitem (job_state_map session_state) resource_id;
                 ret [inhibitor FAILED_RESOURCE (job_of state)
                                (Some expression)])
              (resource_id_list expression)
        end
    end;
  from_depends <~
    for_each
      (λ dep_id,
         dep_job_state <~ getitem (job_state_map session_state) dep_id;
         if bool_decide (outcome (result dep_job_state) = OUTCOME_NONE)
         then ret [inhibitor PENDING_DEP (job_of dep_job_state) None]
         else if bool_decide (outcome (result dep_job_state) ≠ OUTCOME_PASS)
         then ret [inhibitor FAILED_DEP (job_of dep_job_state) None]
         else ret [])
      (sorted (get_direct_dependencies job));
  from_after <~
    for_each
      (λ dep_id,
         dep_job_state <~ getitem (job_state_map session_state) dep_id;
         if bool_decide (outcome (result dep_job_state) = OUTCOME_NONE)
         then ret [inhibitor PENDING_DEP (job_of dep_job_state) None]
         else ret [])
      (sorted (get_after_dependencies job));
  from_salvage <~
    for_each
      (λ dep_id,
         dep_job_state <~ getitem (job_state_map session_state) dep_id;
         if bool_decide (outcome (result dep_job_state) ≠ OUTCOME_FAIL)
         then ret [inhibitor NOT_FAILED_DEP (job_of dep_job_state) None]
         else ret [])
      (sorted (get_salvage_dependencies job));
  from_suspend <~
    (if bool_decide (id job ∈ [AUTO_JOB_ID; MANUAL_JOB_ID])
     then _get_suspend_inhibitor_list session_state job
     else ret []);
  ret (from_resources ++ from_depends ++ from_after ++ from_salvage ++
       from_suspend).

End controller.

(** ** Logging and the state monad *)

Inductive Level := DEBUG | WARNING | ERROR | CRITICAL.

Global Instance Level_eq_dec : EqDecision Level.
Proof. solve_decision. Defined.

(** The exception of the paragraph parser. *)
Record RFC822SyntaxError := {
  lineno : nat;
  msg : string;
}.

Global Instance RFC822SyntaxError_eq_dec : EqDecision RFC822SyntaxError.
Proof. solve_decision. Defined.

(** One constructor per call of [logger] in the module, with the
    arguments of the format string. *)
Inductive Message :=
  | before_dependency_does_not_exist (job_id dep_id : string)
  | before_dependency_not_in_test_plan (job_id dep_id : string)
  | processing_output_from_a_job (j : JobDefinition)
  | returned_invalid_RFC822_data (job_id : string) (exc : RFC822SyntaxError)
  | storing_resource_record (job_id : string) (r : Resource)
  | ignoring_missing_template_parameter (raw_id : option string)
      (parameter : string)
  | str_of (c : Issue)
  | ignoring_invalid_generated_job (unit_id : string).

Global Instance Message_eq_dec : EqDecision Message.
Proof. solve_decision. Defined.

Record LogRecord := {
  level : Level;
  message : Message;
}.

Global Instance LogRecord_eq_dec : EqDecision LogRecord.
Proof. solve_decision. Defined.

(** The run of a computation over a store [S]: what it returned or raised,
    the store it left, and what it logged, in order. *)
Record Run (S A : Type) := mkRun {
  returned : Res A;
  store : S;
  logged : list LogRecord;
}.
Arguments mkRun {S A}.
Arguments returned {S A}.
Arguments store {S A}.
Arguments logged {S A}.

Definition M (S A : Type) : Type := S → Run S A.

Definition st_ret {S A} (a : A) : M S A := λ s, mkRun (inr a) s [].
Definition st_bind {S A B} (m : M S A) (k : A → M S B) : M S B :=
  λ s,
    let r := m s in
    match returned r with
    | inl e => mkRun (inl e) (store r) (logged r)
    | inr a =>
        let r' := k a (store r) in
        mkRun (returned r') (store r') (logged r ++ logged r')
    end.

Definition st_get {S} : M S S := λ s, mkRun (inr s) s [].
Definition st_put {S} (s : S) : M S () := λ _, mkRun (inr ()) s [].
Definition st_lift {S A} (r : Res A) : M S A := λ s, mkRun r s [].
Definition log {S} (l : Level) (m : Message) : M S () :=
  λ s, mkRun (inr ()) s [{| level := l; message := m |}].

Declare Scope st_scope.
Delimit Scope st_scope with st.
Notation "x <~ m ; k" := (st_bind m (fun x => k))
  (at level 20, m at level 100, k at level 200, only parsing) : st_scope.
Notation "m ;; k" := (st_bind m (fun _ => k))
  (at level 100, k at level 200, only parsing, right associativity) : st_scope.

(** A [for] loop run for its effects only. *)
Fixpoint st_for {S A} (body : A → M S ()) (l : list A) : M S () :=
  match l with
  | [] => st_ret ()
  | x :: l' => (body x;; st_for body l')%st
  end.

(** A generator is the sequence of what it does when it is driven to its
    end: values yielded and records logged in between. *)
Inductive Step (A : Type) :=
  | Yield (a : A)
  | Logs (l : Level) (m : Message).
Arguments Yield {A}.
Arguments Logs {A}.

(** [for x in generator: body] where the body appends to one list. *)
Fixpoint st_for_gen {S A B} (body : A → M S (list B)) (g : list (Step A))
  : M S (list B) :=
  match g with
  | [] => st_ret []
  | Yield x :: g' =>
      (ys <~ body x;
       zs <~ st_for_gen body g';
       st_ret (ys ++ zs))%st
  | Logs l m :: g' => (log l m;; st_for_gen body g')%st
  end.

(** The values a caller receives from the generator. *)
Definition yielded {A} (g : list (Step A)) : list A :=
  omap (λ s, match s with Yield a => Some a | Logs _ _ => None end) g.

(** What the generator logs while it is driven. *)
Definition gen_logged {A} (g : list (Step A)) : list LogRecord :=
  omap (λ s, match s with
             | Yield _ => None
             | Logs l m => Some {| level := l; message := m |}
             end) g.

(** ** Before-reference linker *)

Definition add_before_reference (job_id : string) (j : JobDefinition)
  : JobDefinition :=
  {| id := id j;
     plugin := plugin j;
     flags := flags j;
     siblings := siblings j;
     get_direct_dependencies := get_direct_dependencies j;
     get_after_dependencies := get_after_dependencies j;
     get_salvage_dependencies := get_salvage_dependencies j;
     get_before_dependencies := get_before_dependencies j;
     get_resource_dependencies := get_resource_dependencies j;
     get_resource_program := get_resource_program j;
     before_references := {[job_id]} ∪ before_references j |}.

(** The store is [job_map], whose job objects are mutated in place;
    [global_job_map] is only asked whether it has an id. *)
Definition add_before_deps (job : JobDefinition)
    (global_job_map : gmap string JobDefinition)
  : M (gmap string JobDefinition) () :=
  let before_deps := get_before_dependencies job in
  st_for
    (λ dep_id,
       job_map <~ st_get;
       if bool_decide (dep_id ∉ dom global_job_map) then
         log ERROR (before_dependency_does_not_exist (id job) dep_id)
       else if bool_decide (dep_id ∉ dom job_map) then
         log DEBUG (before_dependency_not_in_test_plan (id job) dep_id)
       else
         target <~ st_lift (getitem job_map dep_id);
         st_put (<[dep_id := add_before_reference (id job) target]> job_map))%st
    before_deps.

(** The linking pass of the caller: [add_before_deps] for each job of the
    list in turn, on the same [job_map]. *)
Definition add_before_deps_over (job_list : list JobDefinition)
    (global_job_map : gmap string JobDefinition)
  : M (gmap string JobDefinition) () :=
  st_for (λ job, add_before_deps job global_job_map) job_list.

(** ** Resource parser *)

(** A parsed paragraph; [data] is [record.data]. *)
Record RFC822Record := { data : gmap string string }.

Global Instance RFC822Record_eq_dec : EqDecision RFC822Record.
Proof. solve_decision. Defined.

(** [plainbox.impl.secure.rfc822.gen_rfc822_records] driven to its end on
    the given lines: the records it yields, and the [RFC822SyntaxError] that
    ends it if it raises one.  [decode] is
    [bytes.decode("UTF-8", errors="replace")]. *)
Class RFC822Parser := {
  decode : string → string;
  gen_rfc822_records :
    list string → list RFC822Record * option RFC822SyntaxError;
}.

Section parser.
Context {parser : RFC822Parser}.

(** The generator expression bound to [line_gen]: the decoded text of
    the stdout records of the I/O log. *)
Definition line_gen (result : JobResult) : list string :=
  (λ record, decode (io_data record)) <$>
    filter (λ record, stream_name record = "stdout") (get_io_log result).

Definition gen_rfc822_records_from_io_log
    (job : JobDefinition) (result : JobResult) : list (Step RFC822Record) :=
  let '(records, exc) := gen_rfc822_records (line_gen result) in
  Logs DEBUG (processing_output_from_a_job job) ::
  (Yield <$> records) ++
  match exc with
  | Some exc => [Logs WARNING (returned_invalid_RFC822_data (id job) exc)]
  | None => []
  end.

End parser.

(** ** Session operations used by the controller *)

Definition with_job_state_map (m : gmap string JobState) (s : SessionState)
  : SessionState :=
  {| job_state_map := m;
     resource_map := resource_map s;
     unit_list := unit_list s;
     metadata_flags := metadata_flags s;
     fired := fired s |}.

Definition with_resource_map (m : gmap string (list Resource))
    (s : SessionState) : SessionState :=
  {| job_state_map := job_state_map s;
     resource_map := m;
     unit_list := unit_list s;
     metadata_flags := metadata_flags s;
     fired := fired s |}.

Definition with_unit_list (l : list Unit) (s : SessionState) : SessionState :=
  {| job_state_map := job_state_map s;
     resource_map := resource_map s;
     unit_list := l;
     metadata_flags := metadata_flags s;
     fired := fired s |}.

Definition with_fired (l : list Signal) (s : SessionState) : SessionState :=
  {| job_state_map := job_state_map s;
     resource_map := resource_map s;
     unit_list := unit_list s;
     metadata_flags := metadata_flags s;
     fired := l |}.

Definition with_result (r : JobResult) (s : JobState) : JobState :=
  {| job := job s;
     result := r;
     readiness_inhibitor_list := readiness_inhibitor_list s |}.

Definition with_readiness_inhibitor_list (l : list JobReadinessInhibitor)
    (s : JobState) : JobState :=
  {| job := job s;
     result := result s;
     readiness_inhibitor_list := l |}.

(** [session_state.on_...(...)]: the notification is fired. *)
Definition fire (sig : Signal) : M SessionState () :=
  (s <~ st_get; st_put (with_fired (fired s ++ [sig]) s))%st.

(** Modelled from the spec: [SessionState.set_resource_list] is not in the
    sources; the entry of the resource id is replaced wholesale by the new
    record list. *)
Definition set_resource_list (resource_id : string)
    (resource_list : list Resource) : M SessionState () :=
  (s <~ st_get;
   st_put (with_resource_map (<[resource_id := resource_list]> (resource_map s)) s))%st.

(** Modelled from the spec: [SessionState.add_unit] is not in the sources;
    the unit is inserted into the unit collection of the session (with
    [recompute=False], nothing else is recomputed). *)
Definition add_unit (new_unit : Unit) (via : JobDefinition)
  : M SessionState () :=
  (s <~ st_get; st_put (with_unit_list (unit_list s ++ [new_unit]) s))%st.

(** What [unit.check()] does: it raises [MissingParam] or returns the
    findings. *)
Inductive Checked :=
  | RaisesMissingParam (parameter : string)
  | Findings (check_result : list Issue).

(** What the session and the template units provide: the name of the
    strict-expansion flag, [template_unit.instantiate_all], which generates
    job units, [unit.check()], [unit._raw_data.get("id")], and the inhibitor
    list that the session computes for a job state. *)
Class TemplateEngine := {
  FLAG_FEATURE_STRICT_TEMPLATE_EXPANSION : string;
  instantiate_all : TemplateUnit → list Resource → bool → list JobDefinition;
  check : JobDefinition → Checked;
  raw_data_id : JobDefinition → option string;
  readiness : SessionState → JobState → list JobReadinessInhibitor;
}.

Section pipeline.
Context {parser : RFC822Parser} {engine : TemplateEngine}.

(** Modelled from the spec: [SessionState._recompute_job_readiness] is not
    in the sources; one session-wide recomputation, which rewrites the
    inhibitor list of every job state and nothing else. *)
Definition _recompute_job_readiness : M SessionState () :=
  (s <~ st_get;
   st_put (with_job_state_map
             ((λ state, with_readiness_inhibitor_list (readiness s state) state)
                <$> job_state_map s) s))%st.

Definition _parse_and_store_resource
    (job : JobDefinition) (result : JobResult) : M SessionState () :=
  if bool_decide (outcome result = OUTCOME_NONE) then st_ret ()
  else
    (new_resource_list <~
       st_for_gen
         (λ record,
            let resource := mkResource (data record) in
            log DEBUG (storing_resource_record (id job) resource);;
            st_ret [resource])
         (gen_rfc822_records_from_io_log job result);
     let new_resource_list :=
       if bool_decide (new_resource_list = [])
       then [mkResource ∅]
       else new_resource_list in
     set_resource_list (id job) new_resource_list)%st.

Definition _filter_invalid_log {S} (unit : JobDefinition) : M S bool :=
  match check unit with
  | RaisesMissingParam parameter =>
      (log CRITICAL
         (ignoring_missing_template_parameter (raw_data_id unit) parameter);;
       st_ret false)%st
  | Findings check_result =>
      let errors := filter (λ c, severity c = error) check_result in
      let warnings := filter (λ c, severity c = warning) check_result in
      (st_for (λ warning, log WARNING (str_of warning)) warnings;;
       if bool_decide (errors = []) then st_ret true
       else
         st_for (λ error, log ERROR (str_of error)) errors;;
         log CRITICAL (ignoring_invalid_generated_job (id unit));;
         st_ret false)%st
  end.

Definition _wrap_invalid_units {S} (unit : JobDefinition) : M S Unit :=
  (errors <~
     match check unit with
     | Findings check_result =>
         let errors := filter (λ c, severity c = error) check_result in
         let warnings := filter (λ c, severity c = warning) check_result in
         st_for (λ warning, log WARNING (str_of warning)) warnings;;
         st_ret (IssueError <$> errors)
     | RaisesMissingParam parameter => st_ret [MissingParam parameter]
     end;
   if bool_decide (errors = []) then st_ret (JobUnit unit)
   else st_ret (InvalidJob unit errors))%st.

(** The units a template generates are jobs, never templates, so the
    lazily filtered [template_units] sees no further element while the
    loop appends to [unit_list]; the candidates are checked one by one as
    the loop asks for them. *)
Definition _instantiate_templates
    (job : JobDefinition) (result : JobResult) (fake_resources : bool)
  : M SessionState () :=
  if bool_decide (outcome result = OUTCOME_NONE) then st_ret ()
  else
    (session_state <~ st_get;
     let template_units :=
       omap (λ unit,
               match unit with
               | TemplateUnit_ t =>
                   if bool_decide (resource_id t = id job) then Some t else None
               | _ => None
               end)
            (unit_list session_state) in
     parsed_resource <~ st_lift (getitem (resource_map session_state) (id job));
     let new_units :=
       template_unit ← template_units;
       instantiate_all template_unit parsed_resource fake_resources in
     (if bool_decide (FLAG_FEATURE_STRICT_TEMPLATE_EXPANSION
                        ∈ metadata_flags session_state)
      then
        st_for (λ new_unit,
                  new_unit <~ _wrap_invalid_units new_unit;
                  add_unit new_unit job)
               new_units
      else
        st_for (λ new_unit,
                  keep <~ _filter_invalid_log new_unit;
                  if keep : bool then add_unit (JobUnit new_unit) job
                  else st_ret ())
               new_units);;
     _recompute_job_readiness)%st.

Definition _process_resource_result
    (job : JobDefinition) (result : JobResult) (fake_resources : bool)
  : M SessionState () :=
  (_parse_and_store_resource job result;;
   session_state <~ st_get;
   resource_list <~ st_lift (getitem (resource_map session_state) (id job));
   if bool_decide (resource_list ≠ [mkResource ∅])
   then _instantiate_templates job result fake_resources
   else st_ret ())%st.

(** ** Result observer *)

Definition observe_result
    (job : JobDefinition) (result : JobResult) (fake_resources : bool)
  : M SessionState () :=
  (session_state <~ st_get;
   state <~ st_lift (getitem (job_state_map session_state) (id job));
   st_put (with_job_state_map
             (<[id job := with_result result state]>
                (job_state_map session_state)) session_state);;
   fire on_job_state_map_changed;;
   fire (on_job_result_changed job result);;
   if bool_decide (plugin job = "resource")
   then _process_resource_result job result fake_resources
   else st_ret ())%st.

End pipeline.

(** ** Vocabulary of the statements *)

Section vocabulary.
Context {consts : Suspend} {evaluator : ResourceEvaluator}.

(** The ids of the resources named by the expression that the requirement
    program of [job] raises on the resource map of the session. *)
Definition raised_resource_ids (st : SessionState) (job : JobDefinition)
  : list string :=
  match get_resource_program job with
  | None => []
  | Some prog =>
      match evaluate_or_raise prog (resource_map st) with
      | Evaluated => []
      | ExpressionCannotEvaluateError expression
      | ExpressionFailedError expression => resource_id_list expression
      end
  end.

(** Every id that the inhibitor engine looks up for [job] has a job state,
    and every job state is filed under the id of its job. *)
Definition session_covers (st : SessionState) (job : JobDefinition) : Prop :=
  Forall (λ d, is_Some (job_state_map st !! d))
    (raised_resource_ids st job ++ get_direct_dependencies job ++
     get_after_dependencies job ++ get_salvage_dependencies job) ∧
  map_Forall (λ k state, id (job_of state) = k) (job_state_map st).

Global Instance session_covers_dec st job : Decision (session_covers st job).
Proof. unfold session_covers. apply _. Defined.

(** [_is_job_impacting_suspend] returns [True] for the checkpoint id and
    the job. *)
Definition impacts (suspend_job_id : string) (job : JobDefinition) : bool :=
  match _is_job_impacting_suspend suspend_job_id job with
  | inr impacting => impacting
  | inl _ => false
  end.
End vocabulary.

(** The job state carries the UNDESIRED inhibitor: the job is not part of
    the run. *)
Definition marked_undesired (state : JobState) : Prop :=
  {| cause := UNDESIRED; related_job := None; related_expression := None |}
    ∈ readiness_inhibitor_list state.

Global Instance marked_undesired_dec state : Decision (marked_undesired state).
Proof. unfold marked_undesired. apply _. Defined.

Section pipeline_vocabulary.
Context {parser : RFC822Parser} {engine : TemplateEngine}.

(** The resource records that [_parse_and_store_resource] builds from the
    output of a resource job, before the empty list is replaced. *)
Definition parsed_resources (job : JobDefinition) (result : JobResult)
  : list Resource :=
  (λ record, mkResource (data record))
    <$> yielded (gen_rfc822_records_from_io_log job result).

(** The template units of the session that are bound to the id of [job]. *)
Definition bound_templates (st : SessionState) (job : JobDefinition)
  : list TemplateUnit :=
  omap (λ unit,
          match unit with
          | TemplateUnit_ t =>
              if bool_decide (resource_id t = id job) then Some t else None
          | _ => None
          end)
       (unit_list st).

(** What makes a generated unit invalid: the missing parameter, or the
    findings of error severity. *)
Definition validation_errors (unit : JobDefinition) : list UnitError :=
  match check unit with
  | RaisesMissingParam parameter => [MissingParam parameter]
  | Findings check_result =>
      IssueError <$> filter (λ c, severity c = error) check_result
  end.

Definition validates (unit : JobDefinition) : Prop :=
  validation_errors unit = [].

Global Instance validates_dec unit : Decision (validates unit).
Proof. unfold validates. apply _. Defined.

(** The unit itself when it validates, and otherwise the placeholder
    around it that holds its validation errors. *)
Definition unit_or_placeholder (unit : JobDefinition) : Unit :=
  if decide (validates unit) then JobUnit unit
  else InvalidJob unit (validation_errors unit).

Definition strict (st : SessionState) : Prop :=
  FLAG_FEATURE_STRICT_TEMPLATE_EXPANSION ∈ metadata_flags st.

Global Instance strict_dec st : Decision (strict st).
Proof. unfold strict. apply _. Defined.
End pipeline_vocabulary.

(** What [add_before_deps] logs for one id of the [before] list of the job
    with id [job_id]. *)
Definition before_dep_log (job_id : string)
    (global_job_map job_map : gmap string JobDefinition) (dep_id : string)
  : list LogRecord :=
  if bool_decide (dep_id ∉ dom global_job_map) then
    [{| level := ERROR;
        message := before_dependency_does_not_exist job_id dep_id |}]
  else if bool_decide (dep_id ∉ dom job_map) then
    [{| level := DEBUG;
        message := before_dependency_not_in_test_plan job_id dep_id |}]
  else [].

(** ** A paragraph parser *)

Module Paragraphs.

Fixpoint is_blank (line : string) : bool :=
  match line with
  | String c rest => Ascii.is_space c && is_blank rest
  | EmptyString => true
  end.

Fixpoint lstrip (s : string) : string :=
  match s with
  | String c rest => if Ascii.is_space c then lstrip rest else s
  | EmptyString => EmptyString
  end.

Definition strip (s : string) : string :=
  String.rev (lstrip (String.rev (lstrip s))).

(** The text before the first colon and the text after it. *)
Fixpoint split_colon (s : string) : option (string * string) :=
  match s with
  | EmptyString => None
  | String c rest =>
      if Ascii.eqb c ":"%char then Some (EmptyString, rest)
      else prod_map (String c) (λ v, v) <$> split_colon rest
  end.

Definition commit (current : gmap string string) : list RFC822Record :=
  if decide (current = ∅) then [] else [{| data := current |}].

(** Modelled from the spec: [plainbox.impl.secure.rfc822.gen_rfc822_records]
    is not in the sources.  The lines are parsed as "blocks of key: value
    lines separated by blank lines"; each block becomes one record; a
    line that is neither blank nor [key: value] is the parse error of its
    paragraph, which is raised there, so that the generator yields nothing
    after it. *)
Fixpoint parse (lines : list string) (n : nat)
    (current : gmap string string)
  : list RFC822Record * option RFC822SyntaxError :=
  match lines with
  | [] => (commit current, None)
  | line :: rest =>
      if is_blank line then
        let '(records, exc) := parse rest (S n) ∅ in
        (commit current ++ records, exc)
      else
        match split_colon line with
        | Some (key, value) =>
            parse rest (S n) (<[strip key := strip value]> current)
        | None =>
            ([], Some {| lineno := n; msg := "Unexpected non-empty line" |})
        end
  end.

(** The parser, reading text that is already decoded. *)
Definition parser : RFC822Parser :=
  {| decode := λ bytes, bytes;
     gen_rfc822_records := λ lines, parse lines 1 ∅ |}.

End Paragraphs.

(** ** Concrete collaborators and sessions used as test inputs *)

Module Demo.

(** The flags are those named by the docstrings of the controller. *)
Definition consts : Suspend :=
  {| AUTO_JOB_ID := "suspend/suspend_advanced_auto";
     MANUAL_JOB_ID := "suspend/suspend_advanced";
     AUTO_FLAG := "also-after-suspend";
     MANUAL_FLAG := "also-after-suspend-manual" |}.

(** An evaluator that cannot evaluate the first expression naming a
    resource id without an entry in the resource map. *)
Definition evaluator : ResourceEvaluator :=
  {| evaluate_or_raise prog resource_map :=
       match filter (λ e, ¬ Forall (λ r, is_Some (resource_map !! r))
                                   (resource_id_list e))
                    (expression_list prog) with
       | e :: _ => ExpressionCannotEvaluateError e
       | [] => Evaluated
       end |}.

(** A job with the given id, plugin, flags and hard dependencies and
    nothing else declared. *)
Definition make_job (job_id plugin : string) (flags : option string)
    (depends : list string) : JobDefinition :=
  {| id := job_id;
     plugin := plugin;
     flags := flags;
     siblings := None;
     get_direct_dependencies := depends;
     get_after_dependencies := [];
     get_salvage_dependencies := [];
     get_before_dependencies := [];
     get_resource_dependencies := Some [];
     get_resource_program := None;
     before_references := ∅ |}.

Definition make_result (o : Outcome) : JobResult :=
  {| outcome := o; get_io_log := [] |}.

Definition make_state (j : JobDefinition) (o : Outcome) : JobState :=
  {| job := j; result := make_result o; readiness_inhibitor_list := [] |}.

Definition make_session (states : list JobState) : SessionState :=
  {| job_state_map := list_to_map ((λ s, (id (job s), s)) <$> states);
     resource_map := ∅;
     unit_list := [];
     metadata_flags := ∅;
     fired := [] |}.

(** Three jobs with outcomes NONE, FAIL and PASS, and a job depending on
    all three. *)
Definition job_a := make_job "a" "shell" None [].
Definition job_b := make_job "b" "shell" None [].
Definition job_c := make_job "c" "shell" None [].
Definition job_d := make_job "d" "shell" None ["c"; "b"; "a"].
Definition session_abc : SessionState :=
  make_session [make_state job_a OUTCOME_NONE;
                make_state job_b OUTCOME_FAIL;
                make_state job_c OUTCOME_PASS;
                make_state job_d OUTCOME_NONE].

(** A session around the automatic suspend checkpoint: [job_linked]
    carries the flag of the checkpoint, [job_sibling] declares a sibling
    that depends on the checkpoint but is marked UNDESIRED, [job_a] is
    unrelated. *)
Definition checkpoint :=
  make_job "suspend/suspend_advanced_auto" "shell" None [].
Definition job_linked := make_job "linked" "shell" (Some "also-after-suspend") [].
Definition job_sibling : JobDefinition :=
  {| id := "sibling";
     plugin := "shell";
     flags := None;
     siblings :=
       Some [{| sibling_depends :=
                  Some (DependsText "suspend/suspend_advanced_auto") |}];
     get_direct_dependencies := [];
     get_after_dependencies := [];
     get_salvage_dependencies := [];
     get_before_dependencies := [];
     get_resource_dependencies := Some [];
     get_resource_program := None;
     before_references := ∅ |}.
Definition state_linked := make_state job_linked OUTCOME_NONE.
Definition state_sibling : JobState :=
  {| job := job_sibling;
     result := make_result OUTCOME_NONE;
     readiness_inhibitor_list :=
       [{| cause := UNDESIRED; related_job := None;
           related_expression := None |}] |}.
Definition session_suspend : SessionState :=
  make_session [state_linked; state_sibling;
                make_state job_a OUTCOME_PASS;
                make_state checkpoint OUTCOME_NONE].

(** A session around the same checkpoint in which a second job carries the
    flag of the manual checkpoint and no other. *)
Definition job_manual :=
  make_job "manual" "shell" (Some "also-after-suspend-manual") [].
Definition session_two_flags : SessionState :=
  make_session [state_linked;
                make_state job_manual OUTCOME_NONE;
                make_state checkpoint OUTCOME_NONE].

(** A resource job and three outputs: two paragraphs, nothing, and a
    malformed paragraph between two well-formed ones. *)
Definition job_r := make_job "r" "resource" None [].
Definition stdout (text : string) : IOLogRecord :=
  {| stream_name := "stdout"; io_data := text |}.
Definition newline : string := String (Ascii.ascii_of_nat 10) EmptyString.
Definition output (o : Outcome) (lines : list string) : JobResult :=
  {| outcome := o; get_io_log := (λ l, stdout (l +:+ newline)) <$> lines |}.
Definition result_two := output OUTCOME_PASS ["id: 1"; "name: foo"; ""; "id: 2"; "name: bar"].
Definition result_none := output OUTCOME_NONE [].
Definition result_empty := output OUTCOME_PASS [].
Definition result_malformed :=
  output OUTCOME_PASS ["id: 1"; ""; "oops"; ""; "id: 2"].

(** A template engine: a template generates, for each record, the job
    whose id is the template id followed by the [id] attribute of the
    record; a generated job lacks a parameter when the record has no [id]
    and has an error finding when that attribute is ["2"]. *)
Definition generated_id (t : TemplateUnit) (r : Resource) : string :=
  template_id t +:+ default "{id}" (resource_data r !! "id").
Definition engine : TemplateEngine :=
  {| FLAG_FEATURE_STRICT_TEMPLATE_EXPANSION := "strict-template-expansion";
     instantiate_all t resources fake :=
       (λ r, make_job (generated_id t r) "shell" None []) <$> resources;
     check unit :=
       if str_contains "{id}" (id unit) then RaisesMissingParam "id"
       else if str_contains "_2" (id unit) then
         Findings [{| severity := error; issue_text := "second record" |};
                   {| severity := warning; issue_text := "odd" |}]
       else Findings [{| severity := advice; issue_text := "fine" |}];
     raw_data_id unit := Some (id unit);
     readiness st state := readiness_inhibitor_list state |}.
Definition template_r : TemplateUnit :=
  {| template_id := "t_"; resource_id := "r" |}.
Definition template_other : TemplateUnit :=
  {| template_id := "u_"; resource_id := "other" |}.
Definition session_r (flags : gset string) : SessionState :=
  {| job_state_map := {[ "r" := make_state job_r OUTCOME_NONE ]};
     resource_map := ∅;
     unit_list := [JobUnit job_r; TemplateUnit_ template_r;
                   TemplateUnit_ template_other];
     metadata_flags := flags;
     fired := [] |}.

(** A test plan of two jobs: [job_first] declares [before: second]. *)
Definition job_first : JobDefinition :=
  {| id := "first";
     plugin := "shell";
     flags := None;
     siblings := None;
     get_direct_dependencies := [];
     get_after_dependencies := [];
     get_salvage_dependencies := [];
     get_before_dependencies := ["second"];
     get_resource_dependencies := Some [];
     get_resource_program := None;
     before_references := ∅ |}.
Definition job_second := make_job "second" "shell" None [].
Definition plan : list JobDefinition := [job_first; job_second].
Definition plan_map : gmap string JobDefinition :=
  list_to_map ((λ j, (id j, j)) <$> plan).

End Demo.

(** ** The inhibitors of a job, loop by loop *)

Section inhibitor_vocabulary.
Context {consts : Suspend} {evaluator : ResourceEvaluator}.

(** What each loop of [get_inhibitor_list] appends for one id that has a
    job state (nothing is appended for an id without one: the lookup
    raises). *)
Definition pending_resource_inhibitors (st : SessionState)
    (expression : ResourceExpression) (resource_id : string)
  : list JobReadinessInhibitor :=
  match job_state_map st !! resource_id with
  | Some state =>
      if bool_decide (outcome (result_of state) = OUTCOME_PASS) then []
      else [inhibitor PENDING_RESOURCE (job_of state) (Some expression)]
  | None => []
  end.

Definition failed_resource_inhibitors (st : SessionState)
    (expression : ResourceExpression) (resource_id : string)
  : list JobReadinessInhibitor :=
  match job_state_map st !! resource_id with
  | Some state =>
      [inhibitor FAILED_RESOURCE (job_of state) (Some expression)]
  | None => []
  end.

Definition depends_inhibitors (st : SessionState) (dep_id : string)
  : list JobReadinessInhibitor :=
  match job_state_map st !! dep_id with
  | Some state =>
      match outcome (result_of state) with
      | OUTCOME_NONE => [inhibitor PENDING_DEP (job_of state) None]
      | OUTCOME_PASS => []
      | _ => [inhibitor FAILED_DEP (job_of state) None]
      end
  | None => []
  end.

Definition after_inhibitors (st : SessionState) (dep_id : string)
  : list JobReadinessInhibitor :=
  match job_state_map st !! dep_id with
  | Some state =>
      if bool_decide (outcome (result_of state) = OUTCOME_NONE)
      then [inhibitor PENDING_DEP (job_of state) None] else []
  | None => []
  end.

Definition salvage_inhibitors (st : SessionState) (dep_id : string)
  : list JobReadinessInhibitor :=
  match job_state_map st !! dep_id with
  | Some state =>
      if bool_decide (outcome (result_of state) ≠ OUTCOME_FAIL)
      then [inhibitor NOT_FAILED_DEP (job_of state) None] else []
  | None => []
  end.

Definition requirement_inhibitors (st : SessionState) (job : JobDefinition)
  : list JobReadinessInhibitor :=
  match get_resource_program job with
  | None => []
  | Some prog =>
      match evaluate_or_raise prog (resource_map st) with
      | Evaluated => []
      | ExpressionCannotEvaluateError expression =>
          concat (pending_resource_inhibitors st expression
                    <$> resource_id_list expression)
      | ExpressionFailedError expression =>
          concat (failed_resource_inhibitors st expression
                    <$> resource_id_list expression)
      end
  end.

Definition checkpoint_inhibitors (st : SessionState) (job : JobDefinition)
  : list JobReadinessInhibitor :=
  if bool_decide (id job ∈ [AUTO_JOB_ID; MANUAL_JOB_ID]) then
    concat
      ((λ state,
          if impacts (id job) (job_of state) &&
             bool_decide (outcome (result_of state) = OUTCOME_NONE)
          then [inhibitor PENDING_DEP (job_of state) None] else [])
       <$> filter (λ state, ¬ marked_undesired state)
                  (map_to_list (job_state_map st)).*2)
  else [].

End inhibitor_vocabulary.

(** ** Further test inputs *)

Module Demo2.

(** A job that requires an attribute of the resource [r]. *)
Definition expression_r : ResourceExpression :=
  {| expression_text := "r.attr == 'x'"; resource_id_list := ["r"] |}.
Definition program_r : ResourceProgram :=
  {| expression_list := [expression_r] |}.
Definition job_requiring_r : JobDefinition :=
  {| id := "needs-r";
     plugin := "shell";
     flags := None;
     siblings := None;
     get_direct_dependencies := [];
     get_after_dependencies := [];
     get_salvage_dependencies := [];
     get_before_dependencies := [];
     get_resource_dependencies := Some ["r"];
     get_resource_program := Some program_r;
     before_references := ∅ |}.

(** An evaluator for which every expression fails. *)
Definition failing_evaluator : ResourceEvaluator :=
  {| evaluate_or_raise prog resource_map :=
       match expression_list prog with
       | e :: _ => ExpressionFailedError e
       | [] => Evaluated
       end |}.

(** The job [d] of [Demo], with its dependencies in another order. *)
Definition job_d_reordered := Demo.make_job "d" "shell" None ["a"; "c"; "b"].

(** A job with two dependencies that the session of [Demo] does not
    know. *)
Definition job_dangling := Demo.make_job "e" "shell" None ["zz"; "a"; "missing"].

(** The session of the resource job [r] once it has two resources. *)
Definition two_resources : list Resource :=
  [mkResource {[ "id" := "1" ]}; mkResource {[ "id" := "2" ]}].
Definition session_with_resources (flags : gset string) : SessionState :=
  with_resource_map {[ "r" := two_resources ]} (Demo.session_r flags).

End Demo2.

(** ** The linking pass, job by job *)

(** The job [j] with the ids of [ids] added to its [before_references]. *)
Definition add_before_references (ids : gset string) (j : JobDefinition)
  : JobDefinition :=
  {| id := id j;
     plugin := plugin j;
     flags := flags j;
     siblings := siblings j;
     get_direct_dependencies := get_direct_dependencies j;
     get_after_dependencies := get_after_dependencies j;
     get_salvage_dependencies := get_salvage_dependencies j;
     get_before_dependencies := get_before_dependencies j;
     get_resource_dependencies := get_resource_dependencies j;
     get_resource_program := get_resource_program j;
     before_references := ids ∪ before_references j |}.

(** The ids of the jobs of [job_list] that name [k] in their [before]
    list, when the global catalog has [k]. *)
Definition declared_before (job_list : list JobDefinition)
    (global_job_map : gmap string JobDefinition) (k : string) : gset string :=
  list_to_set
    (id <$> filter (λ a, k ∈ get_before_dependencies a ∧ k ∈ dom global_job_map)
                   job_list).

(** ** The resource pipeline, step by step *)

Section pipeline_steps.
Context {parser : RFC822Parser} {engine : TemplateEngine}.

(** The list stored for a resource job whose result ran: the parsed
    resources, or one empty resource when there is none. *)
Definition stored_resources (job : JobDefinition) (result : JobResult)
  : list Resource :=
  if bool_decide (parsed_resources job result = []) then [mkResource ∅]
  else parsed_resources job result.

(** The units that [_instantiate_templates] appends for the resource list
    [parsed], in the mode of the session. *)
Definition generated_units (st : SessionState) (job : JobDefinition)
    (parsed : list Resource) (fake_resources : bool) : list Unit :=
  let candidates :=
    t ← bound_templates st job; instantiate_all t parsed fake_resources in
  if bool_decide (strict st) then unit_or_placeholder <$> candidates
  else JobUnit <$> filter validates candidates.

(** The session after the readiness of every job was recomputed. *)
Definition recomputed (st : SessionState) : SessionState :=
  with_job_state_map
    ((λ state, with_readiness_inhibitor_list (readiness st state) state)
       <$> job_state_map st) st.

End pipeline_steps.

(** The unit is a placeholder built by [InvalidJob.from_unit]. *)
Definition is_placeholder (u : Unit) : Prop :=
  match u with
  | InvalidJob _ _ => True
  | _ => False
  end.

Global Instance is_placeholder_dec u : Decision (is_placeholder u).
Proof. destruct u; apply _. Defined.

(** ** The nest of symbolic links ([SymLinkNest]) *)

Module Nest.

(** [OSError], as [os.symlink] raises it. *)
Record OSError := {
  errno : nat;
  strerror : string;
}.

(** The file system under the process: [symlink filename dest] is
    [os.symlink(filename, dest)], which returns with the file system
    changed or raises [OSError]. *)
Class FileSystem := {
  FS : Type;
  symlink : string → string → FS → OSError + FS;
}.

(** The two calls of [logger] of the class, with their arguments. *)
Inductive NestMessage :=
  | adding_executable_to_nest (filename dirname : string)
  | unable_to_create_symlink (filename dest : string) (exc : OSError).

Record NestLogRecord := {
  nest_level : Level;
  nest_message : NestMessage;
}.

Definition slash : ascii := "/"%char.

Fixpoint has_slash (p : string) : bool :=
  match p with
  | String c rest => Ascii.eqb c slash || has_slash rest
  | EmptyString => false
  end.

(** [os.path.basename] of a POSIX system: [p[p.rfind("/") + 1:]]. *)
Fixpoint basename (p : string) : string :=
  match p with
  | String c rest =>
      if has_slash rest then basename rest
      else if Ascii.eqb c slash then rest
      else p
  | EmptyString => EmptyString
  end.

Fixpoint endswith_slash (p : string) : bool :=
  match p with
  | String c EmptyString => Ascii.eqb c slash
  | String _ rest => endswith_slash rest
  | EmptyString => false
  end.

Definition startswith_slash (p : string) : bool :=
  match p with
  | String c _ => Ascii.eqb c slash
  | EmptyString => false
  end.

(** [os.path.join(a, b)] of a POSIX system. *)
Definition join (a b : string) : string :=
  if startswith_slash b then b
  else if String.eqb a EmptyString || endswith_slash a then a +:+ b
  else a +:+ String slash b.

Section nest.
Context {os : FileSystem}.

(** The nest is its directory name, [self._dirname]; the store is the file
    system, and the records logged are returned beside it. *)
Definition add_executable (_dirname filename : string) (fs : FS)
  : FS * list NestLogRecord :=
  let debug :=
    {| nest_level := DEBUG;
       nest_message := adding_executable_to_nest filename _dirname |} in
  let dest := join _dirname (basename filename) in
  match symlink filename dest fs with
  | inr fs' => (fs', [debug])
  | inl exc =>
      (fs, [debug;
            {| nest_level := ERROR;
               nest_message := unable_to_create_symlink filename dest exc |}])
  end.

(** [executable_list] is [provider.executable_list]. *)
Fixpoint add_provider (_dirname : string) (executable_list : list string)
    (fs : FS) : FS * list NestLogRecord :=
  match executable_list with
  | [] => (fs, [])
  | filename :: rest =>
      let '(fs1, log1) := add_executable _dirname filename fs in
      let '(fs2, log2) := add_provider _dirname rest fs1 in
      (fs2, log1 ++ log2)
  end.

End nest.

(** A file system of symbolic links only, in which creating a link fails
    exactly when the destination exists ([EEXIST]). *)
Definition links : FileSystem :=
  {| FS := gmap string string;
     symlink filename dest fs :=
       match fs !! dest with
       | Some _ => inl {| errno := 17; strerror := "File exists" |}
       | None => inr (<[dest := filename]> fs)
       end |}.

End Nest.

(** ** The table of processor names ([providers/base/bin/cpuid.py]) *)

Module Cpuid.

(** The dictionary [CPUIDS], in the order of its literal. *)
Definition CPUIDS : list (string * list string) :=
  [
   ("Amber Lake", ["0x806e9"]);
   ("AMD EPYC", ["0x800f12"]);
   ("AMD Genoa", ["0xa10f11"]);
   ("AMD Lisbon", ["0x100f81"]);
   ("AMD Magny-Cours", ["0x100f91"]);
   ("AMD Milan", ["0xa00f11"]);
   ("AMD Milan-X", ["0xa00f12"]);
   ("AMD ROME", ["0x830f10"]);
   ("AMD Ryzen", ["0x810f81"]);
   ("AMD Bergamo", ["0xaa0f01"]);
   ("AMD Siena SP6", ["0xaa0f02"]);
   ("AMD Raphael", ["0xa60f12"]);
   ("AMD Turin", ["0xb00f21"; "0xb10f10"]);
   ("AMD Grado", ["0xb40f40"]);
   ("Broadwell", ["0x4067"; "0x306d4"; "0x5066"; "0x406f"]);
   ("Canon Lake", ["0x6066"]);
   ("Cascade Lake", ["0x50655"; "0x50656"; "0x50657"]);
   ("Coffee Lake", ["0x806ea"; "0x906ea"; "0x906eb"; "0x906ec"; "0x906ed"]);
   ("Comet Lake", ["0x806ec"; "0xa065"]);
   ("Cooper Lake", ["0x5065a"; "0x5065b"]);
   ("Emerald Rapids", ["0xc06f2"]);
   ("Haswell", ["0x306c"; "0x4065"; "0x4066"; "0x306f"]);
   ("Hygon Dhyana Plus", ["0x900f22"]);
   ("Hygon C86-4G 7490", ["0x900f41"]);
   ("Ice Lake", ["0x606e6"; "0x606a6"; "0x706e6"; "0x606c1"]);
   ("Ivy Bridge", ["0x306a"; "0x306e"]);
   ("Kaby Lake", ["0x806e9"; "0x906e9"]);
   ("Knights Landing", ["0x5067"]);
   ("Knights Mill", ["0x8065"]);
   ("Nehalem", ["0x106a"; "0x106e5"; "0x206e"]);
   ("Pineview", ["0x106ca"]);
   ("Penryn", ["0x1067a"]);
   ("Raptor Lake", ["0xb0671"; "0xb06f2"; "0xb06f5"; "0xb06a2"]);
   ("Rocket Lake", ["0xa0671"]);
   ("Sandy Bridge", ["0x206a"; "0x206d6"; "0x206d7"]);
   ("Sapphire Rapids", ["0x806f3"; "0x806f6"; "0x806f7"; "0x806f8"]);
   ("Skylake", ["0x406e3"; "0x506e3"; "0x50654"; "0x50652"]);
   ("Tiger Lake", ["0x806c1"]);
   ("Alder Lake", ["0x906a4"; "0x906a3"; "0x90675"; "0x90672"]);
   ("Westmere", ["0x2065"; "0x206c"; "0x206f"]);
   ("Whisky Lake", ["0x806eb"; "0x806ec"]);
   ("Sierra Forest", ["0xa06f3"]);
   ("Granite Rapids", ["0xa06e0"; "0xa06d0"; "0xa06d1"]);
   ("Meteor Lake", ["0xa06a4"]);
   ("Arrow Lake", ["0xc0660"; "0xc0652"]);
   ("Lunar Lake", ["0xb06d1"])
  ].

(** [str.lower()].  The texts compared are hexadecimal ids; on the bytes
    of an encoded text only the letters A to Z change, and no other
    character lowers to a digit, to a letter a to f or to x. *)
Definition lower_char (c : ascii) : ascii :=
  let n := nat_of_ascii c in
  if (65 <=? n)%nat && (n <=? 90)%nat then ascii_of_nat (n + 32) else c.

Fixpoint lower (s : string) : string :=
  match s with
  | String c rest => String (lower_char c) (lower rest)
  | EmptyString => EmptyString
  end.

Inductive Raised := ValueError (cpuid : string).

(** The inner loop: some value of the entry occurs in the id. *)
Definition some_value_in (values : list string) (cpuid : string) : bool :=
  existsb (λ value, str_contains (lower value) (lower cpuid)) values.

(** The outer loop: the first key with such a value. *)
Fixpoint first_key (table : list (string * list string)) (cpuid : string)
  : option string :=
  match table with
  | (key, values) :: rest =>
      if some_value_in values cpuid then Some key else first_key rest cpuid
  | [] => None
  end.

Definition cpuid_to_human_friendly (cpuid : string) : Raised + string :=
  match first_key CPUIDS cpuid with
  | Some key => inr key
  | None => inl (ValueError cpuid)
  end.

End Cpuid.

Global Instance Cpuid_Raised_eq_dec : EqDecision Cpuid.Raised.
Proof. solve_decision. Defined.

(** * Properties *)

(** ** The exception monad and its loops *)


Lemma getitem_Some {V} (d : gmap string V) k v :
  d !! k = Some v → getitem d k = inr v.
Proof. unfold getitem. by intros ->. Qed.


Lemma for_each_inr {A B} (body : A → Res (list B)) (g : A → list B) l :
  Forall (λ x, body x = inr (g x)) l →
  for_each body l = inr (concat (g <$> l)).
Proof.
  induction 1 as [|x l Hx _ IH]; [done|].
  simpl. by rewrite Hx, IH.
Qed.

Lemma for_each_returns {A B} (body : A → Res (list B)) l :
  Forall (λ x, ∃ ys, body x = inr ys) l →
  ∃ zs, for_each body l = inr zs.
Proof.
  induction 1 as [|x l [ys Hx] _ [zs IH]]; [by eexists|].
  simpl. rewrite Hx, IH. by eexists.
Qed.


Lemma sorted_Permutation l : sorted l ≡ₚ l.
Proof. apply merge_sort_Permutation. Qed.

Lemma sorted_Sorted l : Sorted String.le (sorted l).
Proof. apply (Sorted_merge_sort String.le). Qed.

Lemma sorted_Forall (P : string → Prop) l : Forall P l → Forall P (sorted l).
Proof. intros H. by rewrite sorted_Permutation. Qed.

Lemma getitem_None' {V} (d : gmap string V) k :
  d !! k = None → getitem d k = inl (KeyError k).
Proof. unfold getitem. by intros ->. Qed.

Lemma for_each_fmap {A B C} (f : A → B) (body : B → Res (list C)) l :
  for_each body (f <$> l) = for_each (λ x, body (f x)) l.
Proof.
  induction l as [|x l IH]; [done|].
  rewrite fmap_cons. cbn [for_each]. by rewrite IH.
Qed.

Lemma elem_of_concat {A} (x : A) (ls : list (list A)) :
  x ∈ concat ls ↔ ∃ l, l ∈ ls ∧ x ∈ l.
Proof.
  induction ls as [|l ls IH]; simpl.
  - rewrite elem_of_nil. split; [done|]. intros (l & Hl & _).
    by apply elem_of_nil in Hl.
  - rewrite elem_of_app, IH. split.
    + intros [Hx|(l' & Hl' & Hx)].
      * exists l. split; [left|done].
      * exists l'. split; [by right|done].
    + intros (l' & [->|Hl']%elem_of_cons & Hx); [by left|].
      right. by exists l'.
Qed.

Lemma concat_nil_iff {A} (ls : list (list A)) :
  concat ls = [] ↔ Forall (λ l, l = []) ls.
Proof.
  induction ls as [|l ls IH]; simpl; [by split|].
  rewrite Forall_cons, <- IH. split.
  - by intros [-> ->]%app_eq_nil.
  - by intros [-> ->].
Qed.

(** ** Readiness inhibitor engine *)

Section inhibitors.
Context {consts : Suspend} {evaluator : ResourceEvaluator}.

(** For the id of a checkpoint the dictionary of expected flags has a
    flag. *)
Lemma expected_flag_of_checkpoint suspend_job_id :
  suspend_job_id ∈ [AUTO_JOB_ID; MANUAL_JOB_ID] →
  is_Some ((<[MANUAL_JOB_ID := MANUAL_FLAG]> (<[AUTO_JOB_ID := AUTO_FLAG]> ∅)
              : gmap string string) !! suspend_job_id).
Proof.
  intros Hid. apply elem_of_dom. rewrite !dom_insert_L. set_solver.
Qed.

(** Asked about a checkpoint, [_is_job_impacting_suspend] returns. *)
Lemma is_job_impacting_suspend_returns suspend_job_id job :
  suspend_job_id ∈ [AUTO_JOB_ID; MANUAL_JOB_ID] →
  _is_job_impacting_suspend suspend_job_id job
  = inr (impacts suspend_job_id job).
Proof.
  intros [flag Hflag]%expected_flag_of_checkpoint.
  unfold impacts, _is_job_impacting_suspend. cbv zeta. rewrite Hflag.
  destruct (flags job) as [text|]; [|done]. cbn [bind ret].
  case_bool_decide; [done|]. cbn [bind ret].
  by destruct (str_contains flag text).
Qed.

Lemma impacts_iff suspend_job_id job (b : bool) :
  suspend_job_id ∈ [AUTO_JOB_ID; MANUAL_JOB_ID] →
  _is_job_impacting_suspend suspend_job_id job = inr b ↔
  impacts suspend_job_id job = b.
Proof.
  intros Hid. rewrite (is_job_impacting_suspend_returns _ _ Hid).
  split; [by intros [= ->]|by intros ->].
Qed.

(** A job impacts a checkpoint when the flag that the dictionary of
    expected flags gives for the checkpoint occurs in the text of its
    flags, or when one of its siblings names the checkpoint in its
    ["depends"] value. *)
Lemma is_job_impacting_suspend_iff suspend_job_id job :
  suspend_job_id ∈ [AUTO_JOB_ID; MANUAL_JOB_ID] →
  _is_job_impacting_suspend suspend_job_id job = inr true ↔
  (∃ flag text,
     (<[MANUAL_JOB_ID := MANUAL_FLAG]> (<[AUTO_JOB_ID := AUTO_FLAG]> ∅)
        : gmap string string) !! suspend_job_id = Some flag ∧
     flags job = Some text ∧ text ≠ EmptyString ∧
     str_contains flag text = true) ∨
  (∃ sibling_list sibling_data v,
     siblings job = Some sibling_list ∧
     sibling_data ∈ sibling_list ∧
     sibling_depends sibling_data = Some v ∧
     depends_contains suspend_job_id v = true).
Proof.
  intros [flag Hflag]%expected_flag_of_checkpoint.
  unfold _is_job_impacting_suspend. cbv zeta. rewrite Hflag.
  assert (match siblings job with
          | Some sibling_list =>
              existsb
                (λ sibling_data,
                   match sibling_depends sibling_data with
                   | Some v => depends_contains suspend_job_id v
                   | None => false
                   end)
                sibling_list
          | None => false
          end = true ↔
          ∃ sibling_list sibling_data v,
            siblings job = Some sibling_list ∧
            sibling_data ∈ sibling_list ∧
            sibling_depends sibling_data = Some v ∧
            depends_contains suspend_job_id v = true) as Hsibling.
  { destruct (siblings job) as [sibling_list|].
    - rewrite existsb_exists. split.
      + intros (sibling_data & Hin%list_elem_of_In & Hv).
        destruct (sibling_depends sibling_data) as [v|] eqn:Hd; [|done].
        by exists sibling_list, sibling_data, v.
      + intros (? & sibling_data & v & [= <-] & Hin%list_elem_of_In & Hd & Hv).
        exists sibling_data. split; [done|]. by rewrite Hd.
    - split; [done|]. by intros (? & ? & ? & [=] & _). }
  assert (∀ b : bool, (inr b : Res bool) = inr true ↔ b = true) as Hinr.
  { intros b. split; [by intros [= ->]|by intros ->]. }
  destruct (flags job) as [text|]; cbn [bind ret].
  - case_bool_decide as Hempty; cbn [bind ret].
    + rewrite Hinr, Hsibling. split; [by right|].
      intros [(? & ? & _ & [= <-] & Hne & _)|Hs]; [done|done].
    + destruct (str_contains flag text) eqn:Hocc.
      * split; [|done]. intros _. left. by exists flag, text.
      * rewrite Hinr, Hsibling. split; [by right|].
        intros [(? & ? & [= <-] & [= <-] & _ & Hocc')|Hs]; [|done].
        congruence.
  - rewrite Hinr, Hsibling. split; [by right|].
    by intros [(? & ? & _ & [=] & _)|Hs].
Qed.

Lemma for_each_ext {A B} (f g : A → Res (list B)) l :
  (∀ x, f x = g x) → for_each f l = for_each g l.
Proof.
  intros Hfg. induction l as [|x l IH]; [done|]. simpl. by rewrite Hfg, IH.
Qed.

(** The suspend loop of a checkpoint, with the test of each job
    evaluated. *)
Lemma suspend_inhibitor_list_eq st suspend_job :
  id suspend_job ∈ [AUTO_JOB_ID; MANUAL_JOB_ID] →
  _get_suspend_inhibitor_list st suspend_job
  = for_each
      (λ job,
         if impacts (id suspend_job) job then
           state <~ getitem (job_state_map st) (id job);
           if bool_decide (outcome (result state) = OUTCOME_NONE)
           then ret [inhibitor PENDING_DEP job None]
           else ret []
         else ret [])
      (job_of <$> filter (λ s, ¬ marked_undesired s)
                         (map_to_list (job_state_map st)).*2).
Proof.
  intros Hid. unfold _get_suspend_inhibitor_list. apply for_each_ext.
  intros job. by rewrite (is_job_impacting_suspend_returns _ _ Hid).
Qed.

Lemma lookups_return {B} st (k : JobState → Res (list B)) l :
  (∀ state, ∃ ys, k state = inr ys) →
  Forall (λ d, is_Some (job_state_map st !! d)) l →
  ∃ zs, for_each (λ d, bind (getitem (job_state_map st) d) k) l = inr zs.
Proof.
  intros Hk Hl. apply for_each_returns.
  eapply Forall_impl; [exact Hl|].
  intros d [state Hd]. simpl. rewrite (getitem_Some _ _ _ Hd). apply Hk.
Qed.

Lemma resource_inhibitors_return st job :
  Forall (λ d, is_Some (job_state_map st !! d)) (raised_resource_ids st job) →
  ∃ zs,
    match get_resource_program job with
    | None => ret []
    | Some prog =>
        match evaluate_or_raise prog (resource_map st) with
        | Evaluated => ret []
        | ExpressionCannotEvaluateError expression =>
            for_each
              (λ resource_id,
                 state <~ getitem (job_state_map st) resource_id;
                 if bool_decide (outcome (result state) = OUTCOME_PASS)
                 then ret []
                 else ret [inhibitor PENDING_RESOURCE (job_of state)
                                     (Some expression)])
              (resource_id_list expression)
        | ExpressionFailedError expression =>
            for_each
              (λ resource_id,
                 state <~ getitem (job_state_map st) resource_id;
                 ret [inhibitor FAILED_RESOURCE (job_of state)
                                (Some expression)])
              (resource_id_list expression)
        end
    end = inr zs.
Proof.
  unfold raised_resource_ids.
  destruct (get_resource_program job) as [prog|]; [|by eexists].
  destruct (evaluate_or_raise prog (resource_map st)) as [|e|e];
    [by eexists|..]; intros Hl.
  - apply (lookups_return st _ _); [|done].
    intros state. case_bool_decide; by eexists.
  - apply (lookups_return st _ _); [|done].
    intros state. by eexists.
Qed.

(** The suspend loop in a session whose job states are filed under the ids
    of their jobs. *)
Lemma suspend_inhibitors_value st suspend_job :
  id suspend_job ∈ [AUTO_JOB_ID; MANUAL_JOB_ID] →
  map_Forall (λ k state, id (job_of state) = k) (job_state_map st) →
  _get_suspend_inhibitor_list st suspend_job
  = inr (concat
      ((λ state,
          if impacts (id suspend_job) (job_of state) &&
             bool_decide (outcome (result_of state) = OUTCOME_NONE)
          then [inhibitor PENDING_DEP (job_of state) None] else [])
       <$> filter (λ state, ¬ marked_undesired state)
                  (map_to_list (job_state_map st)).*2)).
Proof.
  intros Hid Hkeys. rewrite (suspend_inhibitor_list_eq _ _ Hid).
  rewrite for_each_fmap. apply for_each_inr.
  apply Forall_forall. intros state Hstate.
  apply list_elem_of_filter in Hstate as [_ Hstate].
  apply list_elem_of_fmap in Hstate as [[k state'] [-> Hin]].
  apply elem_of_map_to_list in Hin. simpl.
  destruct (impacts _ _); [|done].
  rewrite <- (Hkeys _ _ Hin) in Hin.
  rewrite (getitem_Some _ _ _ Hin). simpl.
  by case_bool_decide.
Qed.

(** A loop of look-ups over ids that all have a job state. *)
Lemma lookup_loop_value {B} st (k : JobState → Res (list B))
    (g : JobState → list B) l :
  (∀ state, k state = inr (g state)) →
  Forall (λ d, is_Some (job_state_map st !! d)) l →
  for_each (λ d, bind (getitem (job_state_map st) d) k) l
  = inr (concat ((λ d, match job_state_map st !! d with
                       | Some state => g state
                       | None => []
                       end) <$> l)).
Proof.
  intros Hk Hl. apply for_each_inr.
  eapply Forall_impl; [exact Hl|].
  intros d [state Hd]. simpl.
  rewrite (getitem_Some _ _ _ Hd), Hd. cbn [bind]. apply Hk.
Qed.

(** In a session that covers the job, [get_inhibitor_list] returns the
    inhibitors of the requirement, of the hard, after and salvage
    dependencies in sorted order, and of the checkpoint, in this order. *)
Lemma inhibitor_list_value st job :
  session_covers st job →
  get_inhibitor_list st job
  = inr (requirement_inhibitors st job ++
         concat (depends_inhibitors st <$> sorted (get_direct_dependencies job)) ++
         concat (after_inhibitors st <$> sorted (get_after_dependencies job)) ++
         concat (salvage_inhibitors st
                   <$> sorted (get_salvage_dependencies job)) ++
         checkpoint_inhibitors st job).
Proof.
  intros [Hids Hkeys].
  rewrite !Forall_app in Hids. destruct Hids as (Hres & Hdep & Haft & Hsal).
  unfold get_inhibitor_list.
  assert (match get_resource_program job with
      | None => ret []
      | Some prog =>
          match evaluate_or_raise prog (resource_map st) with
          | Evaluated => ret []
          | ExpressionCannotEvaluateError expression =>
              for_each
                (λ resource_id,
                   state <~ getitem (job_state_map st) resource_id;
                   if bool_decide (outcome (result state) = OUTCOME_PASS)
                   then ret []
                   else ret [inhibitor PENDING_RESOURCE (job_of state)
                                       (Some expression)])
                (resource_id_list expression)
          | ExpressionFailedError expression =>
              for_each
                (λ resource_id,
                   state <~ getitem (job_state_map st) resource_id;
                   ret [inhibitor FAILED_RESOURCE (job_of state)
                                  (Some expression)])
                (resource_id_list expression)
          end
      end = inr (requirement_inhibitors st job)) as ->.
  { unfold requirement_inhibitors, raised_resource_ids in *.
    destruct (get_resource_program job) as [prog|]; [|done].
    destruct (evaluate_or_raise prog (resource_map st)) as [|e|e]; [done|..].
    - apply (lookup_loop_value st _
               (λ state, if bool_decide (outcome (result_of state) = OUTCOME_PASS)
                         then []
                         else [inhibitor PENDING_RESOURCE (job_of state) (Some e)]));
        [|done].
      intros state. by case_bool_decide.
    - by apply (lookup_loop_value st _
               (λ state, [inhibitor FAILED_RESOURCE (job_of state) (Some e)])). }
  cbn [bind].
  rewrite (lookup_loop_value st _
    (λ state, match outcome (result_of state) with
              | OUTCOME_NONE => [inhibitor PENDING_DEP (job_of state) None]
              | OUTCOME_PASS => []
              | _ => [inhibitor FAILED_DEP (job_of state) None]
              end));
    [|intros state; by destruct (outcome (result_of state))
     |by apply sorted_Forall].
  cbn [bind].
  rewrite (lookup_loop_value st _
    (λ state, if bool_decide (outcome (result_of state) = OUTCOME_NONE)
              then [inhibitor PENDING_DEP (job_of state) None] else []));
    [|intros state; by case_bool_decide|by apply sorted_Forall].
  cbn [bind].
  rewrite (lookup_loop_value st _
    (λ state, if bool_decide (outcome (result_of state) ≠ OUTCOME_FAIL)
              then [inhibitor NOT_FAILED_DEP (job_of state) None] else []));
    [|intros state; by case_bool_decide|by apply sorted_Forall].
  cbn [bind].
  unfold checkpoint_inhibitors. case_bool_decide as Hid.
  - by rewrite (suspend_inhibitors_value _ _ Hid Hkeys).
  - done.
Qed.


(** C8, as the code has it.  A job that declares no hard, after or
    salvage dependency and no requirement expression, and whose id is not
    the id of a suspend checkpoint, has no inhibitor in any session, and
    the engine raises nothing. *)
Theorem no_declarations_no_inhibitors st job :
  get_direct_dependencies job = [] →
  get_after_dependencies job = [] →
  get_salvage_dependencies job = [] →
  get_resource_program job = None →
  id job ∉ [AUTO_JOB_ID; MANUAL_JOB_ID] →
  get_inhibitor_list st job = inr [].
Proof.
  intros Hdep Haft Hsal Hprog Hid. unfold get_inhibitor_list.
  rewrite Hdep, Haft, Hsal, Hprog. simpl.
  by rewrite bool_decide_eq_false_2.
Qed.




End inhibitors.




(** C8 as stated fails on a suspend checkpoint: the automatic checkpoint of
    [Demo.session_suspend] declares nothing, and yet it is inhibited by the
    job that carries its flag and has not run. *)
Lemma no_declarations_counterexample :
  get_direct_dependencies Demo.checkpoint = [] ∧
  get_after_dependencies Demo.checkpoint = [] ∧
  get_salvage_dependencies Demo.checkpoint = [] ∧
  get_resource_program Demo.checkpoint = None ∧
  before_references Demo.checkpoint = ∅ ∧
  @get_inhibitor_list Demo.consts Demo.evaluator Demo.session_suspend
    Demo.checkpoint
  = inr [inhibitor PENDING_DEP Demo.job_linked None] ∧
  @get_inhibitor_list Demo.consts Demo.evaluator Demo.session_suspend
    Demo.checkpoint
  ≠ inr [].
Proof.
  split_and!; [reflexivity..|].
  vm_compute. discriminate.
Qed.

Lemma no_declarations_no_inhibitors_witness :
  @get_inhibitor_list Demo.consts Demo.evaluator Demo.session_abc Demo.job_a
  = inr [].
Proof.
  apply (@no_declarations_no_inhibitors Demo.consts Demo.evaluator);
    [reflexivity..|].
  apply (bool_decide_unpack _). vm_compute. exact I.
Defined.

(** ** Before-reference linker *)

Section linker.
Implicit Types (job_map global_job_map : gmap string JobDefinition).

Lemma add_before_reference_idemp job_id j :
  add_before_reference job_id (add_before_reference job_id j)
  = add_before_reference job_id j.
Proof.
  unfold add_before_reference. simpl. f_equal.
  by rewrite (assoc_L (∪)), (idemp_L (∪)).
Qed.

(** One turn of the loop, followed by the rest of the computation. *)
Lemma add_before_deps_step {B} job_id global_job_map d job_map
    (k : () → M (gmap string JobDefinition) B) :
  let job_map1 :=
    if bool_decide (d ∈ dom global_job_map ∧ d ∈ dom job_map)
    then alter (add_before_reference job_id) d job_map else job_map in
  st_bind
    (job_map <~ st_get;
     if bool_decide (d ∉ dom global_job_map) then
       log ERROR (before_dependency_does_not_exist job_id d)
     else if bool_decide (d ∉ dom job_map) then
       log DEBUG (before_dependency_not_in_test_plan job_id d)
     else
       target <~ st_lift (getitem job_map d);
       st_put (<[d := add_before_reference job_id target]> job_map))%st
    k job_map
  = mkRun (returned (k () job_map1)) (store (k () job_map1))
          (before_dep_log job_id global_job_map job_map d
           ++ logged (k () job_map1)).
Proof.
  unfold before_dep_log, st_bind, st_get, log. simpl.
  destruct (decide (d ∈ dom global_job_map)) as [Hg|Hg].
  - rewrite (bool_decide_eq_false_2 (d ∉ dom global_job_map)) by auto.
    destruct (decide (d ∈ dom job_map)) as [Hm|Hm].
    + rewrite (bool_decide_eq_false_2 (d ∉ dom job_map)) by auto.
      rewrite bool_decide_eq_true_2 by done.
      apply elem_of_dom in Hm as [target Ht].
      unfold st_lift, st_put. rewrite (getitem_Some _ _ _ Ht). simpl.
      assert (<[d:=add_before_reference job_id target]> job_map
              = alter (add_before_reference job_id) d job_map) as ->; [|done].
      apply map_eq. intros k'.
      destruct (decide (d = k')) as [<-|Hne].
      * by rewrite lookup_insert_eq, lookup_alter_eq, Ht.
      * by rewrite lookup_insert_ne, lookup_alter_ne.
    + rewrite (bool_decide_eq_true_2 (d ∉ dom job_map)) by done.
      rewrite bool_decide_eq_false_2 by (by intros [_ ?]).
      done.
  - rewrite (bool_decide_eq_true_2 (d ∉ dom global_job_map)) by done.
    rewrite bool_decide_eq_false_2 by (by intros [? _]).
    done.
Qed.

Lemma add_before_deps_loop job_id global_job_map l job_map :
  let run :=
    st_for
      (λ dep_id,
         job_map <~ st_get;
         if bool_decide (dep_id ∉ dom global_job_map) then
           log ERROR (before_dependency_does_not_exist job_id dep_id)
         else if bool_decide (dep_id ∉ dom job_map) then
           log DEBUG (before_dependency_not_in_test_plan job_id dep_id)
         else
           target <~ st_lift (getitem job_map dep_id);
           st_put (<[dep_id := add_before_reference job_id target]> job_map))%st
      l job_map in
  returned run = inr () ∧
  (∀ k, store run !! k =
        if bool_decide (k ∈ l ∧ k ∈ dom global_job_map)
        then add_before_reference job_id <$> job_map !! k
        else job_map !! k) ∧
  logged run
  = concat (before_dep_log job_id global_job_map job_map <$> l).
Proof.
  revert job_map. induction l as [|d l IH]; intros job_map.
  { cbn zeta. split_and!; [done| |done].
    intros k. rewrite bool_decide_eq_false_2; [done|].
    intros [Hk _]. by apply elem_of_nil in Hk. }
  cbn zeta. simpl st_for. rewrite add_before_deps_step. cbn zeta.
  set (job_map1 :=
    if bool_decide (d ∈ dom global_job_map ∧ d ∈ dom job_map)
    then alter (add_before_reference job_id) d job_map else job_map).
  assert (dom job_map1 = dom job_map) as Hdom.
  { unfold job_map1. case_bool_decide; [|done]. apply dom_alter_L. }
  assert (∀ k, job_map1 !! k =
    if bool_decide (k = d ∧ d ∈ dom global_job_map)
    then add_before_reference job_id <$> job_map !! k
    else job_map !! k) as Hmap1.
  { intros k. unfold job_map1.
    destruct (decide (d ∈ dom global_job_map ∧ d ∈ dom job_map))
      as [[Hg Hm]|Hno].
    - rewrite bool_decide_eq_true_2 by done.
      destruct (decide (k = d)) as [->|Hne].
      + rewrite bool_decide_eq_true_2 by done. apply lookup_alter_eq.
      + rewrite bool_decide_eq_false_2 by (by intros [??]).
        by apply lookup_alter_ne.
    - rewrite (bool_decide_eq_false_2 _ Hno).
      case_bool_decide as Hk; [|done]. destruct Hk as [-> Hg].
      assert (d ∉ dom job_map) as Hm by auto.
      apply not_elem_of_dom in Hm. by rewrite Hm. }
  destruct (IH job_map1) as (Hret & Hstore & Hlog). clear IH.
  clearbody job_map1. simpl.
  split_and!.
  - exact Hret.
  - intros k. rewrite Hstore, Hmap1. clear Hstore Hlog Hret Hmap1.
    destruct (decide (k = d)) as [->|Hne].
    + destruct (decide (d ∈ dom global_job_map)) as [Hg|Hg].
      * rewrite (bool_decide_eq_true_2 (d = d ∧ _)) by done.
        rewrite (bool_decide_eq_true_2 (d ∈ d :: l ∧ _))
          by (split; [left|done]).
        case_bool_decide; [|done].
        destruct (job_map !! d); [|done]. simpl.
        by rewrite add_before_reference_idemp.
      * rewrite !bool_decide_eq_false_2; [done|by intros [??]..].
    + rewrite (bool_decide_eq_false_2 (k = d ∧ _)) by (by intros [??]).
      apply (f_equal (λ b : bool, if b then _ else _)).
      apply bool_decide_ext. rewrite elem_of_cons.
      split; [by intros [??]; split; [right|]|by intros [[?|?] ?]].
  - rewrite Hlog. do 2 f_equal.
    apply list_fmap_ext. intros _ d' _.
    unfold before_dep_log. by rewrite Hdom.
Qed.

(** C9.  [add_before_deps] returns without raising; afterwards a job of
    [job_map] has the id of [job] added to its [before_references] when
    its id is in the [before] list of [job] and in the global catalog, and
    every other entry of [job_map] is as it was; for each id of the
    [before] list in turn it logs an error when the id is not in the
    global catalog, a debug record when it is there but not in
    [job_map], and nothing otherwise.  Field by field: [job_map] keeps its
    keys, the [before_references] of a target are those it had together
    with the id of [job], those of any other job are as they were, and no
    other field of any job changes. *)
Theorem add_before_deps_links job global_job_map job_map :
  let run := add_before_deps job global_job_map job_map in
  returned run = inr () ∧
  (∀ k, store run !! k =
        if bool_decide (k ∈ get_before_dependencies job ∧
                        k ∈ dom global_job_map)
        then add_before_reference (id job) <$> job_map !! k
        else job_map !! k) ∧
  logged run
  = concat (before_dep_log (id job) global_job_map job_map
              <$> get_before_dependencies job) ∧
  dom (store run) = dom job_map ∧
  (∀ k j, job_map !! k = Some j →
     ∃ j', store run !! k = Some j' ∧
       before_references j'
       = (if bool_decide (k ∈ get_before_dependencies job ∧
                          k ∈ dom global_job_map)
          then {[id job]} ∪ before_references j
          else before_references j) ∧
       id j' = id j ∧ plugin j' = plugin j ∧ flags j' = flags j ∧
       siblings j' = siblings j ∧
       get_direct_dependencies j' = get_direct_dependencies j ∧
       get_after_dependencies j' = get_after_dependencies j ∧
       get_salvage_dependencies j' = get_salvage_dependencies j ∧
       get_before_dependencies j' = get_before_dependencies j ∧
       get_resource_dependencies j' = get_resource_dependencies j ∧
       get_resource_program j' = get_resource_program j).
Proof.
  destruct (add_before_deps_loop (id job) global_job_map
              (get_before_dependencies job) job_map) as (Hret & Hstore & Hlog).
  cbn zeta in *. fold (add_before_deps job global_job_map) in *.
  split_and!; [exact Hret|exact Hstore|exact Hlog|..].
  - apply set_eq. intros k. rewrite !elem_of_dom, Hstore.
    case_bool_decide; [|done]. by rewrite fmap_is_Some.
  - intros k j Hk. rewrite Hstore, Hk.
    case_bool_decide; eexists; (split; [done|]); by split_and!.
Qed.

(** One call keeps every job of [job_map] and only adds references. *)
Lemma add_before_deps_grows job global_job_map job_map k j :
  job_map !! k = Some j →
  ∃ j', store (add_before_deps job global_job_map job_map) !! k = Some j' ∧
        before_references j ⊆ before_references j' ∧
        (k ∈ get_before_dependencies job → k ∈ dom global_job_map →
         id job ∈ before_references j').
Proof.
  intros Hk.
  destruct (add_before_deps_loop (id job) global_job_map
              (get_before_dependencies job) job_map) as (_ & Hstore & _).
  cbn zeta in Hstore. unfold add_before_deps.
  rewrite Hstore, Hk. case_bool_decide as Hin.
  - eexists. split; [done|]. simpl.
    split; [apply union_subseteq_r|intros _ _; apply elem_of_union_l, elem_of_singleton; done].
  - exists j. split; [done|]. split; [done|]. intros ??. by destruct Hin.
Qed.

(** The pass over the job list returns, keeps every job of [job_map], and
    leaves in each the id of every job of the list that names it in its
    [before] list, provided the global catalog has it. *)
Lemma add_before_deps_over_grows job_list global_job_map job_map :
  returned (add_before_deps_over job_list global_job_map job_map) = inr () ∧
  ∀ k j, job_map !! k = Some j →
    ∃ j', store (add_before_deps_over job_list global_job_map job_map) !! k
          = Some j' ∧
          before_references j ⊆ before_references j' ∧
          ∀ a, a ∈ job_list → k ∈ get_before_dependencies a →
               k ∈ dom global_job_map → id a ∈ before_references j'.
Proof.
  revert job_map. induction job_list as [|a0 job_list IH]; intros job_map.
  { split; [done|]. intros k j Hk. exists j. split; [done|].
    split; [done|]. intros a Ha. by apply elem_of_nil in Ha. }
  unfold add_before_deps_over. simpl st_for. unfold st_bind.
  destruct (add_before_deps_loop (id a0) global_job_map
              (get_before_dependencies a0) job_map) as (Hret0 & _ & _).
  cbn zeta in Hret0. fold (add_before_deps a0 global_job_map) in Hret0.
  rewrite Hret0.
  destruct (IH (store (add_before_deps a0 global_job_map job_map)))
    as [Hret Hgrow].
  unfold add_before_deps_over in Hret, Hgrow. simpl.
  split; [exact Hret|].
  intros k j Hk.
  destruct (add_before_deps_grows a0 global_job_map job_map k j Hk)
    as (j1 & Hk1 & Hsub1 & Hin1).
  destruct (Hgrow k j1 Hk1) as (j' & Hk' & Hsub' & Hin').
  exists j'. split; [exact Hk'|]. split; [by etrans|].
  intros a Ha Hbefore Hglobal.
  apply elem_of_cons in Ha as [->|Ha]; [|by apply Hin'].
  apply Hsub'. by apply Hin1.
Qed.

End linker.

Section dependency_set.
Context {consts : Suspend} {evaluator : ResourceEvaluator}.

Lemma concat_fmap_filter {A} (p : A → bool) (l : list A) :
  concat ((λ x, if p x then [x] else []) <$> l) = filter (λ x, p x) l.
Proof.
  induction l as [|x l IH]; [done|]. rewrite fmap_cons. cbn [concat].
  rewrite IH. destruct (p x) eqn:Hp.
  - rewrite filter_cons_True; [done|]. by apply Is_true_true.
  - rewrite filter_cons_False; [done|]. intros Hpx%Is_true_true. congruence.
Qed.

(** For a checkpoint and a candidate list, the set is that of the ids of
    the candidates that impact the checkpoint. *)
Lemma before_suspend_dependency_set_eq suspend_job_id l :
  suspend_job_id ∈ [AUTO_JOB_ID; MANUAL_JOB_ID] →
  _get_before_suspend_dependency_set suspend_job_id (Some l)
  = inr (list_to_set (id <$> filter (λ j, impacts suspend_job_id j) l)).
Proof.
  intros Hid. unfold _get_before_suspend_dependency_set.
  rewrite (for_each_ext _
    (λ job, ret (if impacts suspend_job_id job then [job] else []))).
  2: { intros job. by rewrite (is_job_impacting_suspend_returns _ _ Hid). }
  rewrite (for_each_inr _
    (λ job, if impacts suspend_job_id job then [job] else []))
    by (by apply Forall_forall).
  cbn [bind]. by rewrite concat_fmap_filter.
Qed.

(** [get_dependency_set] returns unless it is asked for a suspend
    checkpoint without a candidate list; the ids of [before_references]
    are read out as BEFORE edges, and an AFTER edge comes from the [after]
    list or from the suspend special case only. *)
Lemma get_dependency_set_edges job job_list :
  (job_list = None → id job ∉ [AUTO_JOB_ID; MANUAL_JOB_ID]) →
  ∃ deps, get_dependency_set job job_list = inr deps ∧
    (∀ a, (BEFORE, a) ∈ deps ↔ a ∈ before_references job) ∧
    (∀ a, (AFTER, a) ∈ deps ↔
          a ∈ get_after_dependencies job ∨
          (id job ∈ [AUTO_JOB_ID; MANUAL_JOB_ID] ∧
           ∃ candidates j,
             job_list = Some candidates ∧ j ∈ candidates ∧ id j = a ∧
             _is_job_impacting_suspend (id job) j = inr true)).
Proof.
  intros Hlist. unfold get_dependency_set.
  assert (∃ suspend_deps,
    (if bool_decide (id job ∈ [AUTO_JOB_ID; MANUAL_JOB_ID])
     then _get_before_suspend_dependency_set (id job) job_list
     else ret ∅) = inr suspend_deps ∧
    ∀ a, a ∈ suspend_deps ↔
      id job ∈ [AUTO_JOB_ID; MANUAL_JOB_ID] ∧
      ∃ candidates j,
        job_list = Some candidates ∧ j ∈ candidates ∧ id j = a ∧
        _is_job_impacting_suspend (id job) j = inr true)
    as (suspend_deps & -> & Hsuspend).
  { case_bool_decide as Hid.
    - destruct job_list as [candidates|]; [|by destruct Hlist].
      rewrite (before_suspend_dependency_set_eq _ _ Hid).
      eexists. split; [done|]. intros a.
      rewrite elem_of_list_to_set, list_elem_of_fmap. split.
      + intros (j & -> & [Himpact Hj]%list_elem_of_filter).
        split; [done|]. exists candidates, j. split_and!; [done..|].
        apply (impacts_iff _ _ _ Hid). by apply Is_true_true.
      + intros (_ & ? & j & [= <-] & Hj & <- & Himpact).
        exists j. split; [done|]. apply list_elem_of_filter.
        split; [|done]. apply Is_true_true.
        by apply (impacts_iff _ _ _ Hid).
    - eexists. split; [done|]. intros a. rewrite elem_of_empty.
      split; [done|]. by intros [? _]. }
  cbn [bind]. eexists. split; [done|]. split.
  - intros a. rewrite elem_of_list_to_set, !elem_of_app, !list_elem_of_fmap.
    split.
    + intros [(? & [=] & _)|[(? & [=] & _)|[(? & [=] & _)|
              [(? & [=] & _)|(d & [= ->] & Hd)]]]].
      by apply elem_of_elements in Hd.
    + intros Ha. do 4 right. exists a. split; [done|].
      by apply elem_of_elements.
  - intros a. rewrite elem_of_list_to_set, !elem_of_app, !list_elem_of_fmap.
    split.
    + intros [(? & [=] & _)|[(? & [=] & _)|[(d & [= ->] & Hd)|
              [(d & [= ->] & Hd)|(? & [=] & _)]]]].
      * by left.
      * right. apply Hsuspend. by apply elem_of_elements in Hd.
    + intros [Ha|Ha].
      * do 2 right. left. by exists a.
      * do 3 right. left. exists a. split; [done|].
        apply elem_of_elements. by apply Hsuspend.
Qed.

(** C2, as the code has it.  When a job of the list names [b] in its
    [before] list and [b] is both in the global catalog and in the active
    job map, the linking pass returns and leaves under [b] a job whose
    dependency set holds an edge of type BEFORE to that job; it holds an
    AFTER edge to that job exactly when the [after] list of [b] names it,
    or [b] is a suspend checkpoint and a candidate of that id impacts
    it. *)
Theorem before_declaration_gives_before_edge
    job_list global_job_map job_map a b :
  a ∈ job_list →
  b ∈ get_before_dependencies a →
  b ∈ dom global_job_map →
  b ∈ dom job_map →
  let run := add_before_deps_over job_list global_job_map job_map in
  returned run = inr () ∧
  ∃ job_b, store run !! b = Some job_b ∧
    id a ∈ before_references job_b ∧
    ∀ candidates,
      (candidates = None → id job_b ∉ [AUTO_JOB_ID; MANUAL_JOB_ID]) →
      ∃ deps,
        get_dependency_set job_b candidates = inr deps ∧
        (BEFORE, id a) ∈ deps ∧
        ((AFTER, id a) ∈ deps ↔
           id a ∈ get_after_dependencies job_b ∨
           (id job_b ∈ [AUTO_JOB_ID; MANUAL_JOB_ID] ∧
            ∃ candidate_list j,
              candidates = Some candidate_list ∧ j ∈ candidate_list ∧
              id j = id a ∧
              _is_job_impacting_suspend (id job_b) j = inr true)).
Proof.
  intros Ha Hbefore Hglobal [j Hb]%elem_of_dom. cbn zeta.
  destruct (add_before_deps_over_grows job_list global_job_map job_map)
    as [Hret Hgrow].
  split; [exact Hret|].
  destruct (Hgrow b j Hb) as (job_b & Hjob_b & _ & Hin).
  exists job_b. split; [exact Hjob_b|].
  specialize (Hin a Ha Hbefore Hglobal). split; [exact Hin|].
  intros candidates Hcandidates.
  destruct (get_dependency_set_edges job_b candidates Hcandidates)
    as (deps & Hdeps & Hbefore_edge & Hafter_edge).
  exists deps. split; [exact Hdeps|]. split; [by apply Hbefore_edge|].
  apply Hafter_edge.
Qed.

End dependency_set.

Lemma before_declaration_gives_before_edge_witness :
  let run := add_before_deps_over Demo.plan Demo.plan_map Demo.plan_map in
  returned run = inr () ∧
  ∃ job_b, store run !! "second" = Some job_b ∧
    "first" ∈ before_references job_b ∧
    ∀ candidates,
      (candidates = None →
       id job_b ∉ [@AUTO_JOB_ID Demo.consts; @MANUAL_JOB_ID Demo.consts]) →
      ∃ deps,
        @get_dependency_set Demo.consts job_b candidates = inr deps ∧
        (BEFORE, "first") ∈ deps ∧
        ((AFTER, "first") ∈ deps ↔
           "first" ∈ get_after_dependencies job_b ∨
           (id job_b
              ∈ [@AUTO_JOB_ID Demo.consts; @MANUAL_JOB_ID Demo.consts] ∧
            ∃ candidate_list j,
              candidates = Some candidate_list ∧ j ∈ candidate_list ∧
              id j = "first" ∧
              @_is_job_impacting_suspend Demo.consts (id job_b) j
              = inr true)).
Proof.
  apply (@before_declaration_gives_before_edge Demo.consts
           Demo.plan Demo.plan_map Demo.plan_map Demo.job_first "second").
  - left.
  - left.
  - apply (bool_decide_unpack _). vm_compute. exact I.
  - apply (bool_decide_unpack _). vm_compute. exact I.
Defined.

(** C2 as stated fails.  After the pass over [Demo.plan], in which
    [first] declares [before: second], the dependency set of [second] is
    the single edge (BEFORE, first); it holds no AFTER edge to [first].
    And although the active job map has both jobs, the pass leaves
    [second] as it was, with a dependency set that holds no edge at all,
    when the global catalog does not have [second], and also when the job
    list does not have [first]. *)
Lemma before_declaration_counterexample :
  let run := add_before_deps_over Demo.plan Demo.plan_map Demo.plan_map in
  let run_without :=
    add_before_deps_over Demo.plan (delete "second" Demo.plan_map)
      Demo.plan_map in
  let run_other :=
    add_before_deps_over [Demo.job_second] Demo.plan_map Demo.plan_map in
  "second" ∈ get_before_dependencies Demo.job_first ∧
  Demo.plan_map !! "first" = Some Demo.job_first ∧
  Demo.plan_map !! "second" = Some Demo.job_second ∧
  returned run = inr () ∧
  store run !! "second"
    = Some (add_before_reference "first" Demo.job_second) ∧
  @get_dependency_set Demo.consts
    (add_before_reference "first" Demo.job_second) None
    = inr {[ (BEFORE, "first") ]} ∧
  (AFTER, "first") ∉ ({[ (BEFORE, "first") ]} : gset (DependencyType * string)) ∧
  returned run_without = inr () ∧
  store run_without !! "second" = Some Demo.job_second ∧
  returned run_other = inr () ∧
  store run_other !! "second" = Some Demo.job_second ∧
  before_references Demo.job_second = ∅ ∧
  @get_dependency_set Demo.consts Demo.job_second None = inr ∅.
Proof.
  cbn zeta. split_and!.
  - left.
  - reflexivity.
  - reflexivity.
  - reflexivity.
  - vm_compute. reflexivity.
  - vm_compute. reflexivity.
  - intros [=]%elem_of_singleton.
  - reflexivity.
  - vm_compute. reflexivity.
  - reflexivity.
  - vm_compute. reflexivity.
  - reflexivity.
  - vm_compute. reflexivity.
Qed.

(** ** The state monad *)

Section state_monad.
Context {S A B : Type}.
Implicit Types (m : M S A) (k : A → M S B).

Lemma returned_bind m k s a :
  returned (m s) = inr a →
  returned (st_bind m k s) = returned (k a (store (m s))).
Proof. unfold st_bind. by intros ->. Qed.

Lemma store_bind m k s a :
  returned (m s) = inr a →
  store (st_bind m k s) = store (k a (store (m s))).
Proof. unfold st_bind. by intros ->. Qed.


Lemma bind_get (k' : S → M S B) s : st_bind st_get k' s = k' s s.
Proof. unfold st_bind, st_get. simpl. by destruct (k' s s). Qed.

Lemma bind_lift (r : Res A) k s a :
  r = inr a → st_bind (st_lift r) k s = k a s.
Proof. intros ->. unfold st_bind, st_lift. simpl. by destruct (k a s). Qed.

End state_monad.

(** ** Resource parser *)

Section parser_properties.
Context {parser : RFC822Parser}.

Lemma yielded_app {A} (g1 g2 : list (Step A)) :
  yielded (g1 ++ g2) = yielded g1 ++ yielded g2.
Proof. apply omap_app. Qed.

Lemma yielded_Yield {A} (l : list A) : yielded (Yield <$> l) = l.
Proof.
  induction l as [|x l IH]; [done|].
  rewrite fmap_cons.
  change (yielded (Yield x :: (Yield <$> l)))
    with (x :: yielded (Yield <$> l)).
  by rewrite IH.
Qed.

Lemma gen_logged_Yield {A} (l : list A) : gen_logged (Yield <$> l) = [].
Proof. by induction l. Qed.

(** The generator yields exactly what the parser yields, whether or not
    the parser ends with a syntax error. *)
Lemma yielded_from_io_log job result :
  yielded (gen_rfc822_records_from_io_log job result)
  = (gen_rfc822_records (line_gen result)).1.
Proof.
  unfold gen_rfc822_records_from_io_log.
  destruct (gen_rfc822_records (line_gen result)) as [records exc].
  change (yielded ((Yield <$> records) ++
            match exc with
            | Some exc =>
                [Logs WARNING (returned_invalid_RFC822_data (id job) exc)]
            | None => []
            end) = records).
  rewrite yielded_app, yielded_Yield. by destruct exc; simpl; rewrite app_nil_r.
Qed.

Lemma gen_logged_from_io_log job result :
  gen_logged (gen_rfc822_records_from_io_log job result)
  = {| level := DEBUG; message := processing_output_from_a_job job |} ::
    match (gen_rfc822_records (line_gen result)).2 with
    | Some exc =>
        [{| level := WARNING;
            message := returned_invalid_RFC822_data (id job) exc |}]
    | None => []
    end.
Proof.
  unfold gen_rfc822_records_from_io_log.
  destruct (gen_rfc822_records (line_gen result)) as [records exc].
  unfold gen_logged. simpl. f_equal.
  rewrite omap_app. fold (@gen_logged RFC822Record (Yield <$> records)).
  rewrite gen_logged_Yield. by destruct exc.
Qed.
End parser_properties.

(** ** Resource parsing and template instantiation *)

Section pipeline_properties.
Context {parser : RFC822Parser} {engine : TemplateEngine}.

(** The loop of [_parse_and_store_resource] returns one resource per
    yielded record and leaves the session as it is. *)
Lemma parse_loop job_id (g : list (Step RFC822Record)) (s : SessionState) :
  let run :=
    st_for_gen
      (λ record,
         let resource := mkResource (data record) in
         log DEBUG (storing_resource_record job_id resource);;
         st_ret [resource])%st
      g s in
  returned run = inr ((λ record, mkResource (data record)) <$> yielded g) ∧
  store run = s.
Proof.
  cbn zeta. induction g as [|[record|l m] g [IHr IHs]]; [done|..].
  - simpl st_for_gen. split.
    + erewrite returned_bind by reflexivity.
      change (store (st_bind _ _ s)) with s.
      erewrite returned_bind by exact IHr. done.
    + erewrite store_bind by reflexivity.
      change (store (st_bind _ _ s)) with s.
      erewrite store_bind by exact IHr. by rewrite IHs.
  - simpl st_for_gen. split.
    + erewrite returned_bind by reflexivity. exact IHr.
    + erewrite store_bind by reflexivity. exact IHs.
Qed.

Lemma parse_and_store_none job result s :
  outcome result = OUTCOME_NONE →
  _parse_and_store_resource job result s = mkRun (inr ()) s [].
Proof.
  intros Hnone. unfold _parse_and_store_resource.
  by rewrite (bool_decide_eq_true_2 _ Hnone).
Qed.

Lemma parse_and_store_run job result s :
  outcome result ≠ OUTCOME_NONE →
  let run := _parse_and_store_resource job result s in
  returned run = inr () ∧
  store run =
    with_resource_map
      (<[id job := if bool_decide (parsed_resources job result = [])
                   then [mkResource ∅]
                   else parsed_resources job result]> (resource_map s)) s.
Proof.
  intros Hsome. cbn zeta. unfold _parse_and_store_resource.
  rewrite (bool_decide_eq_false_2 _ Hsome).
  destruct (parse_loop (id job)
              (gen_rfc822_records_from_io_log job result) s) as [Hr Hs].
  cbn zeta in Hr, Hs.
  split.
  - erewrite returned_bind by exact Hr. done.
  - erewrite store_bind by exact Hr. rewrite Hs. done.
Qed.

(** With a result of outcome NONE, [_process_resource_result] changes
    nothing and logs nothing; it returns when the resource map has an
    entry for the job and raises [KeyError] when it has none. *)
Lemma process_none_result job result fake_resources s :
  outcome result = OUTCOME_NONE →
  _process_resource_result job result fake_resources s
  = mkRun (match resource_map s !! id job with
           | Some _ => inr ()
           | None => inl (KeyError (id job))
           end) s [].
Proof.
  intros Hnone. unfold _process_resource_result.
  unfold st_bind at 1. rewrite (parse_and_store_none _ _ _ Hnone). simpl.
  unfold st_bind, st_get, st_lift, getitem. simpl.
  destruct (resource_map s !! id job) as [resource_list|]; [|done]. simpl.
  unfold _instantiate_templates. rewrite (bool_decide_eq_true_2 _ Hnone).
  by case_bool_decide.
Qed.

(** C5.  When the result of a resource job has an outcome other than NONE
    and no record is parsed from it, [_process_resource_result] returns,
    the entry of the job id in the resource map becomes the list of one
    empty resource record, and nothing else of the session changes: no
    unit is added and no template is instantiated. *)
Theorem empty_output_stores_one_empty_record job result fake_resources s :
  outcome result ≠ OUTCOME_NONE →
  yielded (gen_rfc822_records_from_io_log job result) = [] →
  let run := _process_resource_result job result fake_resources s in
  returned run = inr () ∧
  store run =
    with_resource_map (<[id job := [mkResource ∅]]> (resource_map s)) s ∧
  resource_map (store run) !! id job = Some [mkResource ∅] ∧
  unit_list (store run) = unit_list s.
Proof.
  intros Hsome Hzero. cbn zeta.
  destruct (parse_and_store_run job result s Hsome) as [Hr Hs].
  cbn zeta in Hr, Hs.
  unfold parsed_resources in Hs. rewrite Hzero in Hs. simpl in Hs.
  assert (∀ run : Run SessionState (),
    returned run = inr () ∧
    store run =
      with_resource_map (<[id job := [mkResource ∅]]> (resource_map s)) s →
    returned run = inr () ∧
    store run =
      with_resource_map (<[id job := [mkResource ∅]]> (resource_map s)) s ∧
    resource_map (store run) !! id job = Some [mkResource ∅] ∧
    unit_list (store run) = unit_list s) as Hall.
  { intros run [Hrun ->]. split_and!; try done. simpl. apply lookup_insert_eq. }
  apply Hall. unfold _process_resource_result.
  erewrite returned_bind, store_bind by exact Hr. rewrite Hs.
  unfold st_bind, st_get, st_lift, getitem. simpl.
  rewrite lookup_insert_eq. simpl.
  rewrite bool_decide_eq_false_2 by (by intros Hne; apply Hne).
  done.
Qed.

(** [_filter_invalid_log] changes nothing and tells whether the unit
    validates. *)
Lemma log_loop_run {S} (l : Level) (issues : list Issue) (s : S) :
  returned (st_for (λ c, log l (str_of c)) issues s) = inr () ∧
  store (st_for (λ c, log l (str_of c)) issues s) = s.
Proof.
  induction issues as [|c issues [IHr IHs]]; [done|].
  cbn [st_for]. erewrite returned_bind, store_bind by reflexivity. done.
Qed.

Lemma validates_iff unit :
  validates unit ↔
  match check unit with
  | RaisesMissingParam _ => False
  | Findings check_result =>
      filter (λ c, severity c = error) check_result = []
  end.
Proof.
  unfold validates, validation_errors.
  destruct (check unit) as [parameter|check_result]; [done|].
  split; [apply fmap_nil_inv|by intros ->].
Qed.

Lemma filter_invalid_log_run {S} unit (s : S) :
  returned (_filter_invalid_log unit s) = inr (bool_decide (validates unit)) ∧
  store (_filter_invalid_log unit s) = s.
Proof.
  assert (∃ b, b = bool_decide (validates unit) ∧
               (b = true ↔ validates unit)) as (b & <- & Hb).
  { eexists. split; [done|]. apply bool_decide_eq_true. }
  rewrite validates_iff in Hb. unfold _filter_invalid_log.
  destruct (check unit) as [parameter|check_result].
  { destruct b; [by destruct Hb as [Hb _]; destruct Hb|done]. }
  destruct (log_loop_run (S:=S) WARNING
              (filter (λ c, severity c = warning) check_result) s)
    as [Hwr Hws].
  erewrite returned_bind, store_bind by exact Hwr. rewrite Hws.
  case_bool_decide as He.
  - destruct Hb as [_ Hb]. by rewrite (Hb He).
  - destruct b; [by destruct Hb as [Hb _]; destruct He; apply Hb|].
    destruct (log_loop_run (S:=S) ERROR
                (filter (λ c, severity c = error) check_result) s)
      as [Her Hes].
    erewrite returned_bind, store_bind by exact Her. rewrite Hes. done.
Qed.

(** [_wrap_invalid_units] changes nothing and returns the unit, or the
    placeholder around it. *)
Lemma wrap_invalid_units_run {S} unit (s : S) :
  returned (_wrap_invalid_units unit s) = inr (unit_or_placeholder unit) ∧
  store (_wrap_invalid_units unit s) = s.
Proof.
  assert (returned
    (match check unit with
     | Findings check_result =>
         let errors := filter (λ c, severity c = error) check_result in
         let warnings := filter (λ c, severity c = warning) check_result in
         (st_for (λ warning, log WARNING (str_of warning)) warnings;;
          st_ret (IssueError <$> errors))%st
     | RaisesMissingParam parameter => st_ret [MissingParam parameter]
     end s) = inr (validation_errors unit) ∧
    store
    (match check unit with
     | Findings check_result =>
         let errors := filter (λ c, severity c = error) check_result in
         let warnings := filter (λ c, severity c = warning) check_result in
         (st_for (λ warning, log WARNING (str_of warning)) warnings;;
          st_ret (IssueError <$> errors))%st
     | RaisesMissingParam parameter => st_ret [MissingParam parameter]
     end s) = s) as [Hr Hs].
  { unfold validation_errors.
    destruct (check unit) as [parameter|check_result]; [done|]. cbn zeta.
    destruct (log_loop_run (S:=S) WARNING
                (filter (λ c, severity c = warning) check_result) s)
      as [Hwr Hws].
    erewrite returned_bind, store_bind by exact Hwr. by rewrite Hws. }
  unfold _wrap_invalid_units. cbn zeta in Hr, Hs |- *.
  erewrite returned_bind, store_bind by exact Hr. rewrite Hs.
  unfold unit_or_placeholder, validates.
  destruct (decide (validation_errors unit = [])) as [Hnil|Hcons].
  - by rewrite bool_decide_eq_true_2.
  - by rewrite bool_decide_eq_false_2.
Qed.

(** The loop of the strict mode appends one unit per candidate. *)
Lemma strict_loop via candidates (s : SessionState) :
  let run :=
    st_for (λ new_unit,
              new_unit <~ _wrap_invalid_units new_unit;
              add_unit new_unit via)%st
           candidates s in
  returned run = inr () ∧
  store run
  = with_unit_list (unit_list s ++ (unit_or_placeholder <$> candidates)) s.
Proof.
  cbn zeta. revert s. induction candidates as [|c candidates IH]; intros s.
  { cbn [st_for fmap list_fmap filter list_filter]. rewrite app_nil_r. by destruct s. }
  cbn [st_for].
  destruct (wrap_invalid_units_run c s) as [Hwr Hws].
  assert (returned
    ((new_unit <~ _wrap_invalid_units c; add_unit new_unit via)%st s)
    = inr () ∧
    store
    ((new_unit <~ _wrap_invalid_units c; add_unit new_unit via)%st s)
    = with_unit_list (unit_list s ++ [unit_or_placeholder c]) s)
    as [Hr Hs].
  { split; [erewrite returned_bind by exact Hwr|
            erewrite store_bind by exact Hwr]; by rewrite Hws. }
  destruct (IH (with_unit_list (unit_list s ++ [unit_or_placeholder c]) s))
    as [IHr IHs].
  split.
  - erewrite returned_bind by exact Hr. rewrite Hs. exact IHr.
  - erewrite store_bind by exact Hr. rewrite Hs, IHs.
    unfold with_unit_list. simpl. by rewrite <- (assoc_L (++)).
Qed.

(** The loop of the lenient mode appends the candidates that validate. *)
Lemma lenient_loop via candidates (s : SessionState) :
  let run :=
    st_for (λ new_unit,
              keep <~ _filter_invalid_log new_unit;
              if keep : bool then add_unit (JobUnit new_unit) via
              else st_ret ())%st
           candidates s in
  returned run = inr () ∧
  store run
  = with_unit_list
      (unit_list s ++ (JobUnit <$> filter validates candidates)) s.
Proof.
  cbn zeta. revert s. induction candidates as [|c candidates IH]; intros s.
  { cbn [st_for fmap list_fmap filter list_filter]. rewrite app_nil_r. by destruct s. }
  cbn [st_for].
  destruct (filter_invalid_log_run c s) as [Hfr Hfs].
  set (s1 := if bool_decide (validates c)
             then with_unit_list (unit_list s ++ [JobUnit c]) s else s).
  assert (returned
    ((keep <~ _filter_invalid_log c;
      if keep : bool then add_unit (JobUnit c) via else st_ret ())%st s)
    = inr () ∧
    store
    ((keep <~ _filter_invalid_log c;
      if keep : bool then add_unit (JobUnit c) via else st_ret ())%st s)
    = s1) as [Hr Hs].
  { split; [erewrite returned_bind by exact Hfr|
            erewrite store_bind by exact Hfr]; rewrite Hfs;
      unfold s1; by case_bool_decide. }
  destruct (IH s1) as [IHr IHs].
  split; [erewrite returned_bind by exact Hr; rewrite Hs; exact IHr|].
  erewrite store_bind by exact Hr. rewrite Hs, IHs. unfold s1.
  case_bool_decide as Hc.
  - rewrite filter_cons_True by done. simpl.
    unfold with_unit_list. simpl. by rewrite <- (assoc_L (++)).
  - by rewrite filter_cons_False by done.
Qed.

Lemma fmap_bind_list {A B C} (f : B → C) (g : A → list B) (l : list A) :
  f <$> (l ≫= g) = l ≫= (λ x, f <$> g x).
Proof.
  induction l as [|x l IH]; [done|].
  by rewrite !bind_cons, fmap_app, IH.
Qed.

Lemma filter_bind_list {A B} (P : B → Prop) `{!∀ x, Decision (P x)}
    (g : A → list B) (l : list A) :
  filter P (l ≫= g) = l ≫= (λ x, filter P (g x)).
Proof.
  induction l as [|x l IH]; [done|].
  by rewrite !bind_cons, filter_app, IH.
Qed.

Lemma filter_all {A} (P : A → Prop) `{!∀ x, Decision (P x)} (l : list A) :
  Forall P l → filter P l = l.
Proof.
  induction 1 as [|x l Hx _ IH]; [done|].
  by rewrite filter_cons_True, IH.
Qed.

Lemma recompute_job_readiness_run (s : SessionState) :
  returned (_recompute_job_readiness s) = inr () ∧
  resource_map (store (_recompute_job_readiness s)) = resource_map s ∧
  unit_list (store (_recompute_job_readiness s)) = unit_list s.
Proof. done. Qed.

(** [_instantiate_templates] on a result that ran, in a session whose
    resource map has an entry for the job: the units of every bound
    template are appended, wrapped in strict mode and filtered
    otherwise. *)
Lemma instantiate_templates_run job result fake_resources s parsed :
  outcome result ≠ OUTCOME_NONE →
  resource_map s !! id job = Some parsed →
  let run := _instantiate_templates job result fake_resources s in
  let candidates :=
    t ← bound_templates s job; instantiate_all t parsed fake_resources in
  returned run = inr () ∧
  resource_map (store run) = resource_map s ∧
  unit_list (store run)
  = unit_list s ++
    if bool_decide (strict s)
    then unit_or_placeholder <$> candidates
    else JobUnit <$> filter validates candidates.
Proof.
  intros Hsome Hparsed. cbn zeta. unfold _instantiate_templates.
  rewrite (bool_decide_eq_false_2 _ Hsome).
  rewrite bind_get, (bind_lift _ _ _ _ (getitem_Some _ _ _ Hparsed)).
  fold (bound_templates s job).
  set (candidates :=
    t ← bound_templates s job; instantiate_all t parsed fake_resources).
  destruct (strict_loop job candidates s) as [Hsr Hss].
  destruct (lenient_loop job candidates s) as [Hlr Hls].
  cbn zeta in Hsr, Hss, Hlr, Hls.
  case_bool_decide as Hstrict.
  - rewrite (bool_decide_eq_true_2 (strict s)) by done. split_and!.
    + erewrite returned_bind by exact Hsr. done.
    + erewrite store_bind by exact Hsr. by rewrite Hss.
    + erewrite store_bind by exact Hsr. by rewrite Hss.
  - rewrite (bool_decide_eq_false_2 (strict s)) by done. split_and!.
    + erewrite returned_bind by exact Hlr. done.
    + erewrite store_bind by exact Hlr. by rewrite Hls.
    + erewrite store_bind by exact Hlr. by rewrite Hls.
Qed.

(** C4.  A resource job whose result ran and parses into [n] records,
    [n ≥ 1], each with at least one field as a parsed paragraph has, and
    templates that generate [n] candidates each.
    [_process_resource_result] returns and stores the records.  In strict mode it inserts, for each
    bound template, exactly [n] units: each candidate itself when it
    validates, and otherwise the placeholder with the same id that holds
    its validation errors.  In lenient mode it inserts the candidates
    that validate, which are all [n] of a template when all validate. *)
Theorem templates_expand_once_per_record job result fake_resources s :
  outcome result ≠ OUTCOME_NONE →
  parsed_resources job result ≠ [] →
  Forall (λ r, resource_data r ≠ ∅) (parsed_resources job result) →
  (∀ t, t ∈ bound_templates s job →
     length (instantiate_all t (parsed_resources job result) fake_resources)
     = length (parsed_resources job result)) →
  let n := length (parsed_resources job result) in
  let candidates t :=
    instantiate_all t (parsed_resources job result) fake_resources in
  let run := _process_resource_result job result fake_resources s in
  returned run = inr () ∧
  resource_map (store run) !! id job = Some (parsed_resources job result) ∧
  (strict s →
     unit_list (store run)
     = unit_list s ++
       (t ← bound_templates s job; unit_or_placeholder <$> candidates t) ∧
     ∀ t, t ∈ bound_templates s job →
       length (unit_or_placeholder <$> candidates t) = n ∧
       ∀ c, c ∈ candidates t →
         unit_id (unit_or_placeholder c) = id c ∧
         (validates c → unit_or_placeholder c = JobUnit c) ∧
         (¬ validates c →
          unit_or_placeholder c = InvalidJob c (validation_errors c))) ∧
  (¬ strict s →
     unit_list (store run)
     = unit_list s ++
       (t ← bound_templates s job;
        JobUnit <$> filter validates (candidates t)) ∧
     ∀ t, t ∈ bound_templates s job →
       Forall validates (candidates t) →
       JobUnit <$> filter validates (candidates t) = JobUnit <$> candidates t ∧
       length (JobUnit <$> filter validates (candidates t)) = n).
Proof.
  intros Hsome Hnonempty Hfields Hcount. cbn zeta.
  assert (parsed_resources job result ≠ [mkResource ∅]) as Hsentinel.
  { intros Heq. rewrite Heq in Hfields.
    by apply Forall_cons in Hfields as [Hfield _]. }
  destruct (parse_and_store_run job result s Hsome) as [Hpr Hps].
  cbn zeta in Hpr, Hps.
  rewrite (bool_decide_eq_false_2 _ Hnonempty) in Hps.
  set (s1 := with_resource_map
               (<[id job := parsed_resources job result]> (resource_map s)) s)
    in Hps.
  assert (resource_map s1 !! id job = Some (parsed_resources job result))
    as Hentry by apply lookup_insert_eq.
  destruct (instantiate_templates_run job result fake_resources s1
              (parsed_resources job result) Hsome Hentry)
    as (Hir & Him & Hiu).
  cbn zeta in Hir, Him, Hiu.
  assert (_process_resource_result job result fake_resources s
          = mkRun (returned (_instantiate_templates job result fake_resources s1))
                  (store (_instantiate_templates job result fake_resources s1))
                  (logged (_parse_and_store_resource job result s) ++
                   logged (_instantiate_templates job result fake_resources s1)))
    as ->.
  { unfold _process_resource_result. unfold st_bind at 1.
    rewrite Hpr, Hps. cbn [returned store logged].
    rewrite bind_get, (bind_lift _ _ _ _ (getitem_Some _ _ _ Hentry)).
    by rewrite (bool_decide_eq_true_2 _ Hsentinel). }
  cbn [returned store logged].
  split; [exact Hir|]. split; [by rewrite Him|].
  rewrite Hiu. change (bound_templates s1 job) with (bound_templates s job).
  change (unit_list s1) with (unit_list s).
  change (strict s1) with (strict s).
  split.
  - intros Hstrict. rewrite (bool_decide_eq_true_2 _ Hstrict).
    split; [by rewrite fmap_bind_list|].
    intros t Ht. split; [by rewrite length_fmap, Hcount|].
    intros c _. unfold unit_or_placeholder.
    destruct (decide (validates c)); by split_and!.
  - intros Hlenient. rewrite (bool_decide_eq_false_2 _ Hlenient).
    split; [by rewrite filter_bind_list, fmap_bind_list|].
    intros t Ht Hall. rewrite (filter_all _ _ Hall).
    split; [done|]. by rewrite length_fmap, Hcount.
Qed.

(** C6, as the code has it.  When the parser raises a syntax error after
    yielding some records, the generator yields exactly those records, then
    logs one warning with the error and ends: nothing is yielded after the
    warning.  Storing the resources of such a result returns without
    raising and files the records kept under the job id (the one empty
    record if none). *)
Theorem syntax_error_keeps_preceding_records job result records exc :
  gen_rfc822_records (line_gen result) = (records, Some exc) →
  gen_rfc822_records_from_io_log job result
  = Logs DEBUG (processing_output_from_a_job job) ::
    (Yield <$> records) ++
    [Logs WARNING (returned_invalid_RFC822_data (id job) exc)] ∧
  yielded (gen_rfc822_records_from_io_log job result) = records ∧
  gen_logged (gen_rfc822_records_from_io_log job result)
  = [{| level := DEBUG; message := processing_output_from_a_job job |};
     {| level := WARNING;
        message := returned_invalid_RFC822_data (id job) exc |}] ∧
  ∀ s, outcome result ≠ OUTCOME_NONE →
    returned (_parse_and_store_resource job result s) = inr () ∧
    resource_map (store (_parse_and_store_resource job result s)) !! id job
    = Some (if bool_decide (records = []) then [mkResource ∅]
            else (λ record, mkResource (data record)) <$> records).
Proof.
  intros Hparse.
  assert (yielded (gen_rfc822_records_from_io_log job result) = records)
    as Hyielded by (by rewrite yielded_from_io_log, Hparse).
  split; [unfold gen_rfc822_records_from_io_log; by rewrite Hparse|].
  split; [exact Hyielded|].
  split; [by rewrite gen_logged_from_io_log, Hparse|].
  intros s Hsome.
  destruct (parse_and_store_run job result s Hsome) as [Hr Hs].
  cbn zeta in Hr, Hs. split; [exact Hr|].
  rewrite Hs. simpl. rewrite lookup_insert_eq.
  unfold parsed_resources. rewrite Hyielded. f_equal.
  destruct records; by repeat case_bool_decide.
Qed.

(** C10.  For a job of the session whose plugin is not "resource",
    [observe_result] returns, replaces the stored result of the job by
    the new one whatever the old one was, fires the two notifications in
    order, and leaves the rest alone: the other job states, the job and
    the inhibitor list of this job state, the resource map, the unit
    collection and the metadata flags; it logs nothing. *)
Theorem observe_result_frame job result fake_resources s state :
  plugin job ≠ "resource" →
  job_state_map s !! id job = Some state →
  let run := observe_result job result fake_resources s in
  returned run = inr () ∧
  job_state_map (store run)
  = <[id job := with_result result state]> (job_state_map s) ∧
  (result_of <$> job_state_map (store run) !! id job) = Some result ∧
  (∀ k, k ≠ id job → job_state_map (store run) !! k = job_state_map s !! k) ∧
  resource_map (store run) = resource_map s ∧
  unit_list (store run) = unit_list s ∧
  metadata_flags (store run) = metadata_flags s ∧
  fired (store run)
  = fired s ++ [on_job_state_map_changed; on_job_result_changed job result] ∧
  logged run = [].
Proof.
  intros Hplugin Hstate. cbn zeta.
  assert (observe_result job result fake_resources s
          = mkRun (inr ())
              {| job_state_map :=
                   <[id job := with_result result state]> (job_state_map s);
                 resource_map := resource_map s;
                 unit_list := unit_list s;
                 metadata_flags := metadata_flags s;
                 fired := (fired s ++ [on_job_state_map_changed]) ++
                          [on_job_result_changed job result] |}
              []) as ->.
  { unfold observe_result.
    rewrite bind_get, (bind_lift _ _ _ _ (getitem_Some _ _ _ Hstate)).
    rewrite (bool_decide_eq_false_2 _ Hplugin). done. }
  cbn [returned store logged job_state_map resource_map unit_list
       metadata_flags fired].
  split_and!; try done.
  - by rewrite lookup_insert_eq.
  - intros k Hk. by rewrite lookup_insert_ne.
  - by rewrite <- (assoc_L (++)).
Qed.

End pipeline_properties.

(** ** The paragraph parser *)

(** Every record of the paragraph parser has at least one field. *)
Lemma paragraphs_have_fields lines n current :
  Forall (λ record, data record ≠ ∅) (Paragraphs.parse lines n current).1.
Proof.
  assert (∀ current, Forall (λ record, data record ≠ ∅)
                            (Paragraphs.commit current)) as Hcommit.
  { intros c. unfold Paragraphs.commit. case_decide; by repeat constructor. }
  revert n current. induction lines as [|line lines IH]; intros n current.
  { apply Hcommit. }
  simpl. destruct (Paragraphs.is_blank line).
  - specialize (IH (S n) ∅).
    destruct (Paragraphs.parse lines (S n) ∅) as [records exc].
    simpl in *. apply Forall_app. by split.
  - destruct (Paragraphs.split_colon line) as [[key value]|]; [apply IH|].
    constructor.
Qed.

Lemma parsed_paragraphs_have_fields job result :
  Forall (λ r, resource_data r ≠ ∅)
         (@parsed_resources Paragraphs.parser job result).
Proof.
  unfold parsed_resources. rewrite yielded_from_io_log.
  apply Forall_fmap. apply paragraphs_have_fields.
Qed.

(** ** The pipeline on concrete outputs *)

(** C3.  The session of [Demo.session_r] has no resource yet for the
    resource job [r]; handing [_process_resource_result] a result of
    outcome NONE for it leaves the session as it is, but the call raises
    [KeyError] instead of returning. *)
Theorem none_result_without_entry_raises :
  outcome Demo.result_none = OUTCOME_NONE ∧
  resource_map (Demo.session_r ∅) !! id Demo.job_r = None ∧
  @_process_resource_result Paragraphs.parser Demo.engine
     Demo.job_r Demo.result_none false (Demo.session_r ∅)
  = mkRun (inl (KeyError "r")) (Demo.session_r ∅) [].
Proof.
  split; [reflexivity|]. split; [reflexivity|].
  by rewrite process_none_result.
Qed.

Lemma empty_output_stores_one_empty_record_witness :
  let run :=
    @_process_resource_result Paragraphs.parser Demo.engine
      Demo.job_r Demo.result_empty false (Demo.session_r ∅) in
  returned run = inr () ∧
  store run =
    with_resource_map (<["r" := [mkResource ∅]]> ∅) (Demo.session_r ∅) ∧
  resource_map (store run) !! "r" = Some [mkResource ∅] ∧
  unit_list (store run) = unit_list (Demo.session_r ∅).
Proof.
  apply (@empty_output_stores_one_empty_record Paragraphs.parser Demo.engine
           Demo.job_r Demo.result_empty false (Demo.session_r ∅)).
  - discriminate.
  - reflexivity.
Defined.

Lemma syntax_error_keeps_preceding_records_witness :
  @gen_rfc822_records_from_io_log Paragraphs.parser
    Demo.job_r Demo.result_malformed
  = Logs DEBUG (processing_output_from_a_job Demo.job_r) ::
    (Yield <$> [{| data := {[ "id" := "1" ]} |}]) ++
    [Logs WARNING
       (returned_invalid_RFC822_data "r"
          {| lineno := 3; msg := "Unexpected non-empty line" |})] ∧
  yielded (@gen_rfc822_records_from_io_log Paragraphs.parser
             Demo.job_r Demo.result_malformed)
  = [{| data := {[ "id" := "1" ]} |}] ∧
  gen_logged (@gen_rfc822_records_from_io_log Paragraphs.parser
                Demo.job_r Demo.result_malformed)
  = [{| level := DEBUG; message := processing_output_from_a_job Demo.job_r |};
     {| level := WARNING;
        message := returned_invalid_RFC822_data "r"
                     {| lineno := 3; msg := "Unexpected non-empty line" |} |}] ∧
  ∀ s, outcome Demo.result_malformed ≠ OUTCOME_NONE →
    returned (@_parse_and_store_resource Paragraphs.parser
                Demo.job_r Demo.result_malformed s) = inr () ∧
    resource_map (store (@_parse_and_store_resource Paragraphs.parser
                           Demo.job_r Demo.result_malformed s)) !! "r"
    = Some (if bool_decide ([{| data := {[ "id" := "1" ]} |}] = [])
            then [mkResource ∅]
            else (λ record, mkResource (data record))
                   <$> [{| data := {[ "id" := "1" ]} |}]).
Proof.
  apply (@syntax_error_keeps_preceding_records Paragraphs.parser
           Demo.job_r Demo.result_malformed).
  vm_compute. reflexivity.
Defined.

(** C6 as stated fails: the output of [Demo.result_malformed] is the
    paragraph [id: 1], a malformed paragraph, and the paragraph [id: 2],
    which is well formed on its own; the record of the first paragraph is
    yielded and the record of the last one is not. *)
Lemma malformed_paragraph_counterexample :
  @line_gen Paragraphs.parser Demo.result_malformed
  = (λ l, l +:+ Demo.newline) <$> ["id: 1"; ""; "oops"; ""; "id: 2"] ∧
  @gen_rfc822_records Paragraphs.parser ["id: 2" +:+ Demo.newline]
  = ([{| data := {[ "id" := "2" ]} |}], None) ∧
  yielded (@gen_rfc822_records_from_io_log Paragraphs.parser
             Demo.job_r Demo.result_malformed)
  = [{| data := {[ "id" := "1" ]} |}] ∧
  {| data := {[ "id" := "2" ]} |}
    ∉ yielded (@gen_rfc822_records_from_io_log Paragraphs.parser
                 Demo.job_r Demo.result_malformed).
Proof.
  split_and!.
  - reflexivity.
  - vm_compute. reflexivity.
  - vm_compute. reflexivity.
  - apply (bool_decide_unpack _). vm_compute. exact I.
Qed.

Lemma observe_result_frame_witness :
  let result := Demo.make_result OUTCOME_PASS in
  let run :=
    @observe_result Paragraphs.parser Demo.engine
      Demo.job_a result false Demo.session_abc in
  returned run = inr () ∧
  job_state_map (store run)
  = <["a" := with_result result (Demo.make_state Demo.job_a OUTCOME_NONE)]>
      (job_state_map Demo.session_abc) ∧
  (result_of <$> job_state_map (store run) !! "a") = Some result ∧
  (∀ k, k ≠ "a" →
        job_state_map (store run) !! k = job_state_map Demo.session_abc !! k) ∧
  resource_map (store run) = resource_map Demo.session_abc ∧
  unit_list (store run) = unit_list Demo.session_abc ∧
  metadata_flags (store run) = metadata_flags Demo.session_abc ∧
  fired (store run)
  = fired Demo.session_abc ++
    [on_job_state_map_changed; on_job_result_changed Demo.job_a result] ∧
  logged run = [].
Proof.
  apply (@observe_result_frame Paragraphs.parser Demo.engine
           Demo.job_a (Demo.make_result OUTCOME_PASS) false Demo.session_abc
           (Demo.make_state Demo.job_a OUTCOME_NONE)).
  - discriminate.
  - reflexivity.
Defined.

Lemma templates_expand_once_per_record_witness :
  let s := Demo.session_r {[ "strict-template-expansion" ]} in
  let records :=
    @parsed_resources Paragraphs.parser Demo.job_r Demo.result_two in
  let candidates t := @instantiate_all Demo.engine t records false in
  let run :=
    @_process_resource_result Paragraphs.parser Demo.engine
      Demo.job_r Demo.result_two false s in
  returned run = inr () ∧
  resource_map (store run) !! "r" = Some records ∧
  (@strict Demo.engine s →
     unit_list (store run)
     = unit_list s ++
       (t ← @bound_templates s Demo.job_r;
        @unit_or_placeholder Demo.engine <$> candidates t) ∧
     ∀ t, t ∈ @bound_templates s Demo.job_r →
       length (@unit_or_placeholder Demo.engine <$> candidates t)
       = length records ∧
       ∀ c, c ∈ candidates t →
         unit_id (@unit_or_placeholder Demo.engine c) = id c ∧
         (@validates Demo.engine c →
          @unit_or_placeholder Demo.engine c = JobUnit c) ∧
         (¬ @validates Demo.engine c →
          @unit_or_placeholder Demo.engine c
          = InvalidJob c (@validation_errors Demo.engine c))) ∧
  (¬ @strict Demo.engine s →
     unit_list (store run)
     = unit_list s ++
       (t ← @bound_templates s Demo.job_r;
        JobUnit <$> filter (@validates Demo.engine) (candidates t)) ∧
     ∀ t, t ∈ @bound_templates s Demo.job_r →
       Forall (@validates Demo.engine) (candidates t) →
       JobUnit <$> filter (@validates Demo.engine) (candidates t)
       = JobUnit <$> candidates t ∧
       length (JobUnit <$> filter (@validates Demo.engine) (candidates t))
       = length records).
Proof.
  apply (@templates_expand_once_per_record Paragraphs.parser Demo.engine
           Demo.job_r Demo.result_two false
           (Demo.session_r {[ "strict-template-expansion" ]})).
  - discriminate.
  - vm_compute. discriminate.
  - apply (bool_decide_unpack _). vm_compute. exact I.
  - intros t _. simpl. apply length_fmap.
Defined.

(** * Further properties of the controller *)

(** ** Dependency set builder *)

Section dependency_set_edges.
Context {consts : Suspend}.

Lemma elem_of_tagged (t t' : DependencyType) (d : string) (l : list string) :
  (t, d) ∈ ((λ x, (t', x)) <$> l) ↔ t = t' ∧ d ∈ l.
Proof.
  rewrite list_elem_of_fmap. split.
  - by intros (x & [= -> ->] & Hx).
  - intros [-> Hd]. by exists d.
Qed.

(** X1.  For a job that is not a suspend checkpoint, with or without a
    candidate list, [get_dependency_set] returns exactly the declared
    edges: DEPENDS to the direct dependencies, RESOURCE to the resource
    dependencies (none when reading them raises [ResourceProgramError]),
    AFTER to the after dependencies and BEFORE to the ids of
    [before_references]. *)
Theorem dependency_set_of_ordinary_job job job_list :
  id job ∉ [AUTO_JOB_ID; MANUAL_JOB_ID] →
  ∃ deps, get_dependency_set job job_list = inr deps ∧
    ∀ t d, (t, d) ∈ deps ↔
      match t with
      | DEPENDS => d ∈ get_direct_dependencies job
      | RESOURCE => ∃ l, get_resource_dependencies job = Some l ∧ d ∈ l
      | AFTER => d ∈ get_after_dependencies job
      | BEFORE => d ∈ before_references job
      end.
Proof.
  intros Hid. unfold get_dependency_set.
  rewrite (bool_decide_eq_false_2 _ Hid). simpl.
  eexists. split; [done|]. intros t d.
  rewrite elem_of_list_to_set, !elem_of_app, !elem_of_tagged.
  rewrite elements_empty, elem_of_nil, elem_of_elements.
  destruct (get_resource_dependencies job) as [l|]; destruct t;
    try rewrite elem_of_nil; split; try naive_solver.
Qed.

(** X2.  For a suspend checkpoint, [get_dependency_set] without a candidate
    list raises [TypeError]; with one it returns, and its AFTER edges are
    the after dependencies together with the ids of the candidates that
    impact the checkpoint. *)
Theorem dependency_set_of_checkpoint job :
  id job ∈ [AUTO_JOB_ID; MANUAL_JOB_ID] →
  get_dependency_set job None = inl TypeError ∧
  ∀ candidates, ∃ deps,
    get_dependency_set job (Some candidates) = inr deps ∧
    ∀ d, (AFTER, d) ∈ deps ↔
      d ∈ get_after_dependencies job ∨
      ∃ j, j ∈ candidates ∧ id j = d ∧
           _is_job_impacting_suspend (id job) j = inr true.
Proof.
  intros Hid. split.
  - unfold get_dependency_set. by rewrite (bool_decide_eq_true_2 _ Hid).
  - intros candidates.
    destruct (get_dependency_set_edges job (Some candidates))
      as (deps & Hdeps & _ & Hafter); [done|].
    exists deps. split; [exact Hdeps|]. intros d. rewrite Hafter. split.
    + intros [Hd|(_ & ? & j & [= <-] & Hj & Hd & Himpact)]; [by left|].
      right. by exists j.
    + intros [Hd|(j & Hj & Hd & Himpact)]; [by left|].
      right. split; [done|]. by exists candidates, j.
Qed.

End dependency_set_edges.

Lemma dependency_set_of_ordinary_job_witness :
  ∃ deps, @get_dependency_set Demo.consts Demo.job_d None = inr deps ∧
    ∀ t d, (t, d) ∈ deps ↔
      match t with
      | DEPENDS => d ∈ get_direct_dependencies Demo.job_d
      | RESOURCE =>
          ∃ l, get_resource_dependencies Demo.job_d = Some l ∧ d ∈ l
      | AFTER => d ∈ get_after_dependencies Demo.job_d
      | BEFORE => d ∈ before_references Demo.job_d
      end.
Proof.
  apply (@dependency_set_of_ordinary_job Demo.consts Demo.job_d None).
  apply (bool_decide_unpack _). vm_compute. exact I.
Defined.

Lemma dependency_set_of_checkpoint_witness :
  @get_dependency_set Demo.consts Demo.checkpoint None = inl TypeError ∧
  ∀ candidates, ∃ deps,
    @get_dependency_set Demo.consts Demo.checkpoint (Some candidates)
    = inr deps ∧
    ∀ d, (AFTER, d) ∈ deps ↔
      d ∈ get_after_dependencies Demo.checkpoint ∨
      ∃ j, j ∈ candidates ∧ id j = d ∧
           @_is_job_impacting_suspend Demo.consts (id Demo.checkpoint) j
           = inr true.
Proof.
  apply (@dependency_set_of_checkpoint Demo.consts Demo.checkpoint).
  apply (bool_decide_unpack _). vm_compute. exact I.
Defined.

(** ** Readiness inhibitor engine *)

Section inhibitor_properties.
Context {consts : Suspend} {evaluator : ResourceEvaluator}.

(** X3.  For a suspend checkpoint, in a session whose job states are
    filed under the ids of their jobs, [_get_suspend_inhibitor_list]
    returns, and its inhibitors are exactly the PENDING_DEP inhibitors of
    the jobs that are not marked UNDESIRED, impact the checkpoint and have
    outcome NONE. *)
Theorem suspend_inhibitors_are_pending_linked_jobs st suspend_job :
  id suspend_job ∈ [AUTO_JOB_ID; MANUAL_JOB_ID] →
  map_Forall (λ k state, id (job_of state) = k) (job_state_map st) →
  ∃ l, _get_suspend_inhibitor_list st suspend_job = inr l ∧
    ∀ i, i ∈ l ↔
      ∃ k state,
        job_state_map st !! k = Some state ∧
        ¬ marked_undesired state ∧
        _is_job_impacting_suspend (id suspend_job) (job_of state)
        = inr true ∧
        outcome (result_of state) = OUTCOME_NONE ∧
        i = inhibitor PENDING_DEP (job_of state) None.
Proof.
  intros Hid Hkeys. rewrite (suspend_inhibitors_value _ _ Hid Hkeys).
  eexists. split; [done|]. intros i.
  rewrite elem_of_concat. split.
  - intros (l & Hl & Hi).
    apply list_elem_of_fmap in Hl as (state & -> & Hstate).
    apply list_elem_of_filter in Hstate as [Hdesired Hstate].
    apply list_elem_of_fmap in Hstate as [[k state'] [-> Hin]].
    apply elem_of_map_to_list in Hin. simpl in *.
    destruct (impacts _ _) eqn:Himpact;
      [|by apply elem_of_nil in Hi].
    simpl in Hi. case_bool_decide as Hnone; [|by apply elem_of_nil in Hi].
    apply list_elem_of_singleton in Hi as ->.
    exists k, state'. split_and!; [done..| |done|done].
    by apply (impacts_iff _ _ _ Hid).
  - intros (k & state & Hk & Hdesired & Himpact & Hnone & ->).
    apply (impacts_iff _ _ _ Hid) in Himpact.
    exists [inhibitor PENDING_DEP (job_of state) None].
    split; [|by apply list_elem_of_singleton].
    apply list_elem_of_fmap. exists state. split.
    + by rewrite Himpact, (bool_decide_eq_true_2 _ Hnone).
    + apply list_elem_of_filter. split; [done|].
      apply list_elem_of_fmap. exists (k, state). split; [done|].
      by apply elem_of_map_to_list.
Qed.

Lemma sorted_part_nil_iff {B} (f : string → list B) l :
  concat (f <$> sorted l) = [] ↔ ∀ d, d ∈ l → f d = [].
Proof.
  rewrite concat_nil_iff, Forall_fmap, Forall_forall.
  split; intros Hall d Hd; apply Hall.
  - by rewrite sorted_Permutation.
  - by rewrite sorted_Permutation in Hd.
Qed.

Lemma part_nil_iff {A B} (f : A → list B) (l : list A) :
  concat (f <$> l) = [] ↔ ∀ d, d ∈ l → f d = [].
Proof. by rewrite concat_nil_iff, Forall_fmap, Forall_forall. Qed.

Lemma app_nil_iff {A} (l1 l2 : list A) : l1 ++ l2 = [] ↔ l1 = [] ∧ l2 = [].
Proof. split; [apply app_eq_nil|by intros [-> ->]]. Qed.

Lemma checkpoint_inhibitors_nil_iff st job :
  checkpoint_inhibitors st job = [] ↔
  (id job ∈ [AUTO_JOB_ID; MANUAL_JOB_ID] →
   ∀ k state,
     job_state_map st !! k = Some state →
     ¬ marked_undesired state →
     _is_job_impacting_suspend (id job) (job_of state) = inr true →
     outcome (result_of state) ≠ OUTCOME_NONE).
Proof.
  unfold checkpoint_inhibitors. case_bool_decide as Hid; [|by split].
  rewrite part_nil_iff. split.
  - intros Hall _ k state Hk Hdesired Himpact Hnone.
    apply (impacts_iff _ _ _ Hid) in Himpact.
    specialize (Hall state). rewrite Himpact in Hall.
    rewrite (bool_decide_eq_true_2 _ Hnone) in Hall.
    simpl in Hall. discriminate Hall.
    apply list_elem_of_filter. split; [done|].
    apply list_elem_of_fmap. exists (k, state). split; [done|].
    by apply elem_of_map_to_list.
  - intros Hall state Hstate. specialize (Hall Hid).
    apply list_elem_of_filter in Hstate as [Hdesired Hstate].
    apply list_elem_of_fmap in Hstate as [[k state'] [-> Hin]].
    apply elem_of_map_to_list in Hin. simpl in *.
    destruct (impacts _ _) eqn:Himpact; [|done].
    case_bool_decide as Hnone; [|done].
    apply (impacts_iff _ _ _ Hid) in Himpact.
    by destruct (Hall k state' Hin Hdesired).
Qed.

(** X4.  The readiness criterion.  In a session that covers the job, the
    inhibitor list is empty exactly when: the requirement program, if any,
    evaluates, or cannot be evaluated while every resource job it names has
    outcome PASS, or fails on an expression that names no resource; every
    hard dependency has outcome PASS; no after dependency has outcome
    NONE; every salvage dependency has outcome FAIL; and, for a suspend
    checkpoint, no job that impacts it and is not marked UNDESIRED has
    outcome NONE. *)
Theorem ready_iff st job :
  session_covers st job →
  get_inhibitor_list st job = inr [] ↔
    match get_resource_program job with
    | None => True
    | Some prog =>
        match evaluate_or_raise prog (resource_map st) with
        | Evaluated => True
        | ExpressionCannotEvaluateError expression =>
            ∀ r state, r ∈ resource_id_list expression →
              job_state_map st !! r = Some state →
              outcome (result_of state) = OUTCOME_PASS
        | ExpressionFailedError expression => resource_id_list expression = []
        end
    end ∧
    (∀ d state, d ∈ get_direct_dependencies job →
       job_state_map st !! d = Some state →
       outcome (result_of state) = OUTCOME_PASS) ∧
    (∀ d state, d ∈ get_after_dependencies job →
       job_state_map st !! d = Some state →
       outcome (result_of state) ≠ OUTCOME_NONE) ∧
    (∀ d state, d ∈ get_salvage_dependencies job →
       job_state_map st !! d = Some state →
       outcome (result_of state) = OUTCOME_FAIL) ∧
    (id job ∈ [AUTO_JOB_ID; MANUAL_JOB_ID] →
     ∀ k state,
       job_state_map st !! k = Some state →
       ¬ marked_undesired state →
       _is_job_impacting_suspend (id job) (job_of state) = inr true →
       outcome (result_of state) ≠ OUTCOME_NONE).
Proof.
  intros Hcovers. rewrite (inhibitor_list_value _ _ Hcovers).
  destruct Hcovers as [Hids _].
  rewrite !Forall_app in Hids. destruct Hids as (Hres & _ & _ & _).
  assert (∀ l : list JobReadinessInhibitor,
            (inr l : Res _) = inr [] ↔ l = []) as -> by (intros l; split; congruence).
  rewrite !app_nil_iff, !sorted_part_nil_iff, checkpoint_inhibitors_nil_iff.
  assert (requirement_inhibitors st job = [] ↔
    match get_resource_program job with
    | None => True
    | Some prog =>
        match evaluate_or_raise prog (resource_map st) with
        | Evaluated => True
        | ExpressionCannotEvaluateError expression =>
            ∀ r state, r ∈ resource_id_list expression →
              job_state_map st !! r = Some state →
              outcome (result_of state) = OUTCOME_PASS
        | ExpressionFailedError expression => resource_id_list expression = []
        end
    end) as ->.
  { unfold requirement_inhibitors, raised_resource_ids in *.
    destruct (get_resource_program job) as [prog|]; [|done].
    destruct (evaluate_or_raise prog (resource_map st)) as [|e|e]; [done|..].
    - rewrite part_nil_iff. unfold pending_resource_inhibitors. split.
      + intros Hall r state Hr Hstate. specialize (Hall r Hr).
        rewrite Hstate in Hall. by case_bool_decide.
      + intros Hall r Hr. destruct (job_state_map st !! r) as [state|] eqn:Hstate;
          [|done].
        by rewrite (bool_decide_eq_true_2 _ (Hall r state Hr Hstate)).
    - rewrite part_nil_iff. split; [|by intros -> ? ?%elem_of_nil].
      intros Hall. destruct (resource_id_list e) as [|r ids]; [done|].
      apply Forall_cons in Hres as [[state Hstate] _].
      specialize (Hall r). unfold failed_resource_inhibitors in Hall.
      rewrite Hstate in Hall. discriminate Hall. left. }
  assert ((∀ d, d ∈ get_direct_dependencies job → depends_inhibitors st d = []) ↔
          (∀ d state, d ∈ get_direct_dependencies job →
             job_state_map st !! d = Some state →
             outcome (result_of state) = OUTCOME_PASS)) as ->.
  { unfold depends_inhibitors. split.
    - intros Hall d state Hd Hstate. specialize (Hall d Hd).
      rewrite Hstate in Hall. by destruct (outcome (result_of state)).
    - intros Hall d Hd. destruct (job_state_map st !! d) as [state|] eqn:Hstate;
        [|done].
      by rewrite (Hall d state Hd Hstate). }
  assert ((∀ d, d ∈ get_after_dependencies job → after_inhibitors st d = []) ↔
          (∀ d state, d ∈ get_after_dependencies job →
             job_state_map st !! d = Some state →
             outcome (result_of state) ≠ OUTCOME_NONE)) as ->.
  { unfold after_inhibitors. split.
    - intros Hall d state Hd Hstate. specialize (Hall d Hd).
      rewrite Hstate in Hall. by case_bool_decide.
    - intros Hall d Hd. destruct (job_state_map st !! d) as [state|] eqn:Hstate;
        [|done].
      by rewrite (bool_decide_eq_false_2 _ (Hall d state Hd Hstate)). }
  assert ((∀ d, d ∈ get_salvage_dependencies job → salvage_inhibitors st d = []) ↔
          (∀ d state, d ∈ get_salvage_dependencies job →
             job_state_map st !! d = Some state →
             outcome (result_of state) = OUTCOME_FAIL)) as ->.
  { unfold salvage_inhibitors. split.
    - intros Hall d state Hd Hstate. specialize (Hall d Hd).
      rewrite Hstate in Hall.
      destruct (decide (outcome (result_of state) = OUTCOME_FAIL)) as [|Hne];
        [done|].
      by rewrite (bool_decide_eq_true_2 _ Hne) in Hall.
    - intros Hall d Hd. destruct (job_state_map st !! d) as [state|] eqn:Hstate;
        [|done].
      rewrite bool_decide_eq_false_2; [done|].
      intros Hne. by apply Hne, (Hall d state). }
  done.
Qed.


Lemma Forall_concat_fmap {A B} (P : B → Prop) (f : A → list B) (l : list A) :
  (∀ x, Forall P (f x)) → Forall P (concat (f <$> l)).
Proof.
  intros Hf. induction l as [|x l IH]; [constructor|].
  simpl. apply Forall_app. split; [apply Hf|exact IH].
Qed.

(** X5.  What the engine never reports.  In a session that covers the
    job, every inhibitor of the returned list references a job, none has
    the cause UNDESIRED, and an inhibitor carries an expression exactly
    when its cause is PENDING_RESOURCE or FAILED_RESOURCE. *)
Theorem inhibitors_are_well_formed st job :
  session_covers st job →
  ∃ l, get_inhibitor_list st job = inr l ∧
    Forall (λ i,
              is_Some (related_job i) ∧
              cause i ≠ UNDESIRED ∧
              (is_Some (related_expression i) ↔
               cause i = PENDING_RESOURCE ∨ cause i = FAILED_RESOURCE)) l.
Proof.
  intros Hcovers. rewrite (inhibitor_list_value _ _ Hcovers).
  eexists. split; [done|].
  assert (∀ c j, c ≠ UNDESIRED → c ≠ PENDING_RESOURCE → c ≠ FAILED_RESOURCE →
    is_Some (related_job (inhibitor c j None)) ∧
    cause (inhibitor c j None) ≠ UNDESIRED ∧
    (is_Some (related_expression (inhibitor c j None)) ↔
     cause (inhibitor c j None) = PENDING_RESOURCE ∨
     cause (inhibitor c j None) = FAILED_RESOURCE)) as Hdep.
  { intros c j ???. simpl. split_and!; [by eexists|done|].
    split; [by intros [? [=]]|by intros [?|?]]. }
  assert (∀ c j e, c = PENDING_RESOURCE ∨ c = FAILED_RESOURCE →
    is_Some (related_job (inhibitor c j (Some e))) ∧
    cause (inhibitor c j (Some e)) ≠ UNDESIRED ∧
    (is_Some (related_expression (inhibitor c j (Some e))) ↔
     cause (inhibitor c j (Some e)) = PENDING_RESOURCE ∨
     cause (inhibitor c j (Some e)) = FAILED_RESOURCE)) as Hres.
  { intros c j e Hc. simpl. split_and!; [by eexists|by destruct Hc as [->| ->]|].
    split; [done|by eexists]. }
  assert (∀ P (x : JobReadinessInhibitor), P x → Forall P [x]) as Hone
    by (intros P x Hx; by apply Forall_singleton).
  rewrite !Forall_app. split_and!.
  - unfold requirement_inhibitors.
    destruct (get_resource_program job) as [prog|]; [|apply Forall_nil_2].
    destruct (evaluate_or_raise prog (resource_map st)) as [|e|e];
      [apply Forall_nil_2|..]; apply Forall_concat_fmap; intros r.
    + unfold pending_resource_inhibitors.
      destruct (job_state_map st !! r); [|apply Forall_nil_2].
      case_bool_decide; [apply Forall_nil_2|].
      apply Hone, Hres. by left.
    + unfold failed_resource_inhibitors.
      destruct (job_state_map st !! r); [|apply Forall_nil_2].
      apply Hone, Hres. by right.
  - apply Forall_concat_fmap. intros d. unfold depends_inhibitors.
    destruct (job_state_map st !! d) as [state|]; [|apply Forall_nil_2].
    destruct (outcome (result_of state));
      first [apply Forall_nil_2 | by apply Hone, Hdep].
  - apply Forall_concat_fmap. intros d. unfold after_inhibitors.
    destruct (job_state_map st !! d) as [state|]; [|apply Forall_nil_2].
    case_bool_decide; first [apply Forall_nil_2 | by apply Hone, Hdep].
  - apply Forall_concat_fmap. intros d. unfold salvage_inhibitors.
    destruct (job_state_map st !! d) as [state|]; [|apply Forall_nil_2].
    case_bool_decide; first [apply Forall_nil_2 | by apply Hone, Hdep].
  - unfold checkpoint_inhibitors. case_bool_decide; [|apply Forall_nil_2].
    apply Forall_concat_fmap. intros state.
    destruct (_ && _); first [apply Forall_nil_2 | by apply Hone, Hdep].
Qed.

(** X6.  The order in which a job declares its dependencies does not
    matter: two jobs with the same id and requirement program whose hard,
    after and salvage dependencies are the same up to order have the same
    inhibitor list, or raise the same exception, in every session. *)
Theorem inhibitors_ignore_declaration_order st job1 job2 :
  id job1 = id job2 →
  get_resource_program job1 = get_resource_program job2 →
  get_direct_dependencies job1 ≡ₚ get_direct_dependencies job2 →
  get_after_dependencies job1 ≡ₚ get_after_dependencies job2 →
  get_salvage_dependencies job1 ≡ₚ get_salvage_dependencies job2 →
  get_inhibitor_list st job1 = get_inhibitor_list st job2.
Proof.
  intros Hid Hprog Hdep Haft Hsal.
  assert (∀ l1 l2, l1 ≡ₚ l2 → sorted l1 = sorted l2) as Hsorted.
  { intros l1 l2 Hperm.
    apply (Sorted_unique String.le); [apply sorted_Sorted..|].
    by rewrite !sorted_Permutation. }
  unfold get_inhibitor_list, _get_suspend_inhibitor_list.
  by rewrite Hid, Hprog, (Hsorted _ _ Hdep), (Hsorted _ _ Haft),
    (Hsorted _ _ Hsal).
Qed.

(** X7.  A failed requirement inhibits through every resource it names.
    When the requirement program fails on an expression, in a session that
    covers the job, the list starts with one FAILED_RESOURCE inhibitor per
    resource id of the expression, in order, each referencing the job of
    that id and the expression, whatever the outcomes of those jobs. *)
Theorem failed_requirement_blames_every_resource st job prog expression :
  session_covers st job →
  get_resource_program job = Some prog →
  evaluate_or_raise prog (resource_map st) = ExpressionFailedError expression →
  ∃ from_resources others,
    get_inhibitor_list st job = inr (from_resources ++ others) ∧
    Forall2 (λ r i, ∃ state,
               job_state_map st !! r = Some state ∧
               i = inhibitor FAILED_RESOURCE (job_of state) (Some expression))
            (resource_id_list expression) from_resources.
Proof.
  intros Hcovers Hprog Heval. rewrite (inhibitor_list_value _ _ Hcovers).
  eexists _, _. split; [done|].
  destruct Hcovers as [Hids _].
  rewrite !Forall_app in Hids. destruct Hids as (Hres & _ & _ & _).
  unfold requirement_inhibitors, raised_resource_ids in *.
  rewrite Hprog, Heval in *.
  induction Hres as [|r ids [state Hstate] _ IH]; [constructor|].
  rewrite fmap_cons. unfold failed_resource_inhibitors at 1.
  rewrite Hstate. simpl. constructor; [by exists state|exact IH].
Qed.

(** X8.  A requirement that cannot be evaluated waits for the resource
    jobs that have not passed.  In a session that covers the job, the list
    starts with the PENDING_RESOURCE inhibitors of the resource ids of the
    expression whose job has an outcome other than PASS; a resource job
    with outcome PASS is not reported. *)
Theorem unevaluated_requirement_waits_for_resources st job prog expression :
  session_covers st job →
  get_resource_program job = Some prog →
  evaluate_or_raise prog (resource_map st)
  = ExpressionCannotEvaluateError expression →
  ∃ from_resources others,
    get_inhibitor_list st job = inr (from_resources ++ others) ∧
    ∀ i, i ∈ from_resources ↔
      ∃ r state,
        r ∈ resource_id_list expression ∧
        job_state_map st !! r = Some state ∧
        outcome (result_of state) ≠ OUTCOME_PASS ∧
        i = inhibitor PENDING_RESOURCE (job_of state) (Some expression).
Proof.
  intros Hcovers Hprog Heval. rewrite (inhibitor_list_value _ _ Hcovers).
  eexists _, _. split; [done|].
  unfold requirement_inhibitors. rewrite Hprog, Heval.
  intros i. rewrite elem_of_concat. split.
  - intros (l & Hl & Hi).
    apply list_elem_of_fmap in Hl as (r & -> & Hr).
    unfold pending_resource_inhibitors in Hi.
    destruct (job_state_map st !! r) as [state|] eqn:Hstate;
      [|by apply elem_of_nil in Hi].
    case_bool_decide as Hpass; [by apply elem_of_nil in Hi|].
    apply list_elem_of_singleton in Hi as ->. by exists r, state.
  - intros (r & state & Hr & Hstate & Hpass & ->).
    exists (pending_resource_inhibitors st expression r).
    split; [by apply list_elem_of_fmap_2|].
    unfold pending_resource_inhibitors.
    rewrite Hstate, (bool_decide_eq_false_2 _ Hpass).
    by apply list_elem_of_singleton.
Qed.

Lemma for_each_first_raise {A B} (body : A → Res (list B)) pre x post e :
  Forall (λ y, ∃ ys, body y = inr ys) pre →
  body x = inl e →
  for_each body (pre ++ x :: post) = inl e.
Proof.
  intros Hpre Hx. induction Hpre as [|y pre [ys Hy] _ IH]; simpl.
  - by rewrite Hx.
  - by rewrite Hy, IH.
Qed.

Lemma first_missing (m : gmap string JobState) (l : list string) d :
  d ∈ l → m !! d = None →
  ∃ pre x post, l = pre ++ x :: post ∧
    Forall (λ y, is_Some (m !! y)) pre ∧ m !! x = None.
Proof.
  intros Hd Hmissing. induction l as [|y l IH]; [by apply elem_of_nil in Hd|].
  destruct (m !! y) as [state|] eqn:Hy.
  - apply elem_of_cons in Hd as [->|Hd]; [congruence|].
    destruct (IH Hd) as (pre & x & post & -> & Hpre & Hx).
    exists (y :: pre), x, post. split_and!; [done| |done].
    constructor; [by eexists|done].
  - by exists [], y, l.
Qed.

(** X9.  A hard dependency without a job state makes the engine raise.
    If the requirement loop raises nothing and some hard dependency has no
    job state, [get_inhibitor_list] raises [KeyError] for the least, in
    the order of ids, of the hard dependencies that have none. *)
Theorem missing_dependency_raises_KeyError st job d :
  Forall (λ r, is_Some (job_state_map st !! r)) (raised_resource_ids st job) →
  d ∈ get_direct_dependencies job →
  job_state_map st !! d = None →
  ∃ d', get_inhibitor_list st job = inl (KeyError d') ∧
    d' ∈ get_direct_dependencies job ∧
    job_state_map st !! d' = None ∧
    ∀ d'', d'' ∈ get_direct_dependencies job →
      job_state_map st !! d'' = None → String.le d' d''.
Proof.
  intros Hres Hd Hmissing.
  destruct (resource_inhibitors_return st job Hres) as [l1 H1].
  assert (d ∈ sorted (get_direct_dependencies job)) as Hd'
    by (by rewrite sorted_Permutation).
  destruct (first_missing _ _ _ Hd' Hmissing)
    as (pre & d' & post & Hsplit & Hpre & Hd'missing).
  exists d'. split_and!.
  - unfold get_inhibitor_list. rewrite H1. cbn [bind]. rewrite Hsplit.
    rewrite (for_each_first_raise _ pre d' post (KeyError d')); [done| |].
    + eapply Forall_impl; [exact Hpre|]. intros y [state Hy]. simpl.
      rewrite (getitem_Some _ _ _ Hy). simpl.
      repeat case_bool_decide; by eexists.
    + by rewrite (getitem_None' _ _ Hd'missing).
  - rewrite <- (sorted_Permutation (get_direct_dependencies job)), Hsplit.
    apply elem_of_app. right. left.
  - done.
  - intros d'' Hd'' Hmissing''.
    rewrite <- (sorted_Permutation (get_direct_dependencies job)), Hsplit in Hd''.
    pose proof (sorted_Sorted (get_direct_dependencies job)) as Hsorted.
    rewrite Hsplit in Hsorted.
    apply (Sorted_StronglySorted String.le) in Hsorted.
    apply StronglySorted_app_1_r in Hsorted.
    apply StronglySorted_inv in Hsorted as [_ Hle].
    apply elem_of_app in Hd'' as [Hin|Hin].
    + rewrite Forall_forall in Hpre. destruct (Hpre _ Hin) as [? ?]. congruence.
    + apply elem_of_cons in Hin as [->|Hin]; [done|].
      rewrite Forall_forall in Hle. by apply Hle.
Qed.

End inhibitor_properties.

Lemma suspend_inhibitors_are_pending_linked_jobs_witness :
  ∃ l, @_get_suspend_inhibitor_list Demo.consts Demo.session_suspend
         Demo.checkpoint = inr l ∧
    ∀ i, i ∈ l ↔
      ∃ k state,
        job_state_map Demo.session_suspend !! k = Some state ∧
        ¬ marked_undesired state ∧
        @_is_job_impacting_suspend Demo.consts (id Demo.checkpoint)
          (job_of state) = inr true ∧
        outcome (result_of state) = OUTCOME_NONE ∧
        i = inhibitor PENDING_DEP (job_of state) None.
Proof.
  apply (@suspend_inhibitors_are_pending_linked_jobs Demo.consts
           Demo.session_suspend Demo.checkpoint).
  - apply (bool_decide_unpack _). vm_compute. exact I.
  - apply (bool_decide_unpack _). vm_compute. exact I.
Defined.

Lemma ready_iff_witness :
  @get_inhibitor_list Demo.consts Demo.evaluator Demo.session_two_flags Demo.checkpoint
  = inr [] ↔
    match get_resource_program Demo.checkpoint with
    | None => True
    | Some prog =>
        match @evaluate_or_raise Demo.evaluator prog
                (resource_map Demo.session_two_flags) with
        | Evaluated => True
        | ExpressionCannotEvaluateError expression =>
            ∀ r state, r ∈ resource_id_list expression →
              job_state_map Demo.session_two_flags !! r = Some state →
              outcome (result_of state) = OUTCOME_PASS
        | ExpressionFailedError expression => resource_id_list expression = []
        end
    end ∧
    (∀ d state, d ∈ get_direct_dependencies Demo.checkpoint →
       job_state_map Demo.session_two_flags !! d = Some state →
       outcome (result_of state) = OUTCOME_PASS) ∧
    (∀ d state, d ∈ get_after_dependencies Demo.checkpoint →
       job_state_map Demo.session_two_flags !! d = Some state →
       outcome (result_of state) ≠ OUTCOME_NONE) ∧
    (∀ d state, d ∈ get_salvage_dependencies Demo.checkpoint →
       job_state_map Demo.session_two_flags !! d = Some state →
       outcome (result_of state) = OUTCOME_FAIL) ∧
    (id Demo.checkpoint ∈ [@AUTO_JOB_ID Demo.consts; @MANUAL_JOB_ID Demo.consts] →
     ∀ k state,
       job_state_map Demo.session_two_flags !! k = Some state →
       ¬ marked_undesired state →
       @_is_job_impacting_suspend Demo.consts (id Demo.checkpoint)
         (job_of state) = inr true →
       outcome (result_of state) ≠ OUTCOME_NONE).
Proof.
  apply (@ready_iff Demo.consts Demo.evaluator Demo.session_two_flags Demo.checkpoint).
  apply (bool_decide_unpack _). vm_compute. exact I.
Defined.

Lemma inhibitors_are_well_formed_witness :
  ∃ l, @get_inhibitor_list Demo.consts Demo.evaluator Demo.session_abc
         Demo.job_d = inr l ∧
    Forall (λ i,
              is_Some (related_job i) ∧
              cause i ≠ UNDESIRED ∧
              (is_Some (related_expression i) ↔
               cause i = PENDING_RESOURCE ∨ cause i = FAILED_RESOURCE)) l.
Proof.
  apply (@inhibitors_are_well_formed Demo.consts Demo.evaluator
           Demo.session_abc Demo.job_d).
  apply (bool_decide_unpack _). vm_compute. exact I.
Defined.

Lemma inhibitors_ignore_declaration_order_witness :
  @get_inhibitor_list Demo.consts Demo.evaluator Demo.session_abc Demo.job_d
  = @get_inhibitor_list Demo.consts Demo.evaluator Demo.session_abc
      Demo2.job_d_reordered.
Proof.
  apply (@inhibitors_ignore_declaration_order Demo.consts Demo.evaluator
           Demo.session_abc Demo.job_d Demo2.job_d_reordered);
    [reflexivity|reflexivity| |reflexivity|reflexivity].
  simpl. apply (bool_decide_unpack _). vm_compute. exact I.
Defined.

Lemma failed_requirement_blames_every_resource_witness :
  ∃ from_resources others,
    @get_inhibitor_list Demo.consts Demo2.failing_evaluator
      (Demo.session_r ∅) Demo2.job_requiring_r
    = inr (from_resources ++ others) ∧
    Forall2 (λ r i, ∃ state,
               job_state_map (Demo.session_r ∅) !! r = Some state ∧
               i = inhibitor FAILED_RESOURCE (job_of state)
                     (Some Demo2.expression_r))
            (resource_id_list Demo2.expression_r) from_resources.
Proof.
  apply (@failed_requirement_blames_every_resource Demo.consts
           Demo2.failing_evaluator (Demo.session_r ∅) Demo2.job_requiring_r
           Demo2.program_r Demo2.expression_r).
  - apply (bool_decide_unpack _). vm_compute. exact I.
  - reflexivity.
  - reflexivity.
Defined.

Lemma unevaluated_requirement_waits_for_resources_witness :
  ∃ from_resources others,
    @get_inhibitor_list Demo.consts Demo.evaluator
      (Demo.session_r ∅) Demo2.job_requiring_r
    = inr (from_resources ++ others) ∧
    ∀ i, i ∈ from_resources ↔
      ∃ r state,
        r ∈ resource_id_list Demo2.expression_r ∧
        job_state_map (Demo.session_r ∅) !! r = Some state ∧
        outcome (result_of state) ≠ OUTCOME_PASS ∧
        i = inhibitor PENDING_RESOURCE (job_of state)
              (Some Demo2.expression_r).
Proof.
  apply (@unevaluated_requirement_waits_for_resources Demo.consts
           Demo.evaluator (Demo.session_r ∅) Demo2.job_requiring_r
           Demo2.program_r Demo2.expression_r).
  - apply (bool_decide_unpack _). vm_compute. exact I.
  - reflexivity.
  - vm_compute. reflexivity.
Defined.

Lemma missing_dependency_raises_KeyError_witness :
  ∃ d', @get_inhibitor_list Demo.consts Demo.evaluator Demo.session_abc
          Demo2.job_dangling = inl (KeyError d') ∧
    d' ∈ get_direct_dependencies Demo2.job_dangling ∧
    job_state_map Demo.session_abc !! d' = None ∧
    ∀ d'', d'' ∈ get_direct_dependencies Demo2.job_dangling →
      job_state_map Demo.session_abc !! d'' = None → String.le d' d''.
Proof.
  apply (@missing_dependency_raises_KeyError Demo.consts Demo.evaluator
           Demo.session_abc Demo2.job_dangling "zz").
  - apply Forall_nil_2.
  - left.
  - reflexivity.
Defined.

(** ** Before-reference linker *)

Section linker_properties.
Implicit Types (job_map global_job_map : gmap string JobDefinition).

Lemma add_before_deps_lookup job global_job_map job_map k :
  store (add_before_deps job global_job_map job_map) !! k
  = if bool_decide (k ∈ get_before_dependencies job ∧ k ∈ dom global_job_map)
    then add_before_reference (id job) <$> job_map !! k
    else job_map !! k.
Proof.
  destruct (add_before_deps_loop (id job) global_job_map
              (get_before_dependencies job) job_map) as (_ & Hstore & _).
  apply Hstore.
Qed.

(** X10.  Linking is idempotent: running [add_before_deps] for the same
    job a second time leaves [job_map] as the first run left it. *)
Theorem add_before_deps_idempotent job global_job_map job_map :
  store (add_before_deps job global_job_map
           (store (add_before_deps job global_job_map job_map)))
  = store (add_before_deps job global_job_map job_map).
Proof.
  apply map_eq. intros k. rewrite !add_before_deps_lookup.
  case_bool_decide; [|done].
  destruct (job_map !! k) as [j|]; [|done]. simpl.
  by rewrite add_before_reference_idemp.
Qed.

Lemma add_before_references_empty j : add_before_references ∅ j = j.
Proof.
  destruct j. unfold add_before_references. simpl. f_equal.
  by rewrite (left_id_L ∅ (∪)).
Qed.

Lemma add_before_references_insert x ids j :
  add_before_references ids (add_before_reference x j)
  = add_before_references ({[x]} ∪ ids) j.
Proof.
  unfold add_before_references, add_before_reference. simpl. f_equal.
  rewrite (assoc_L (∪)). f_equal. apply (comm_L (∪)).
Qed.

(** The job map after the pass: each job has gained the ids of the jobs of
    the list that name it. *)
Lemma add_before_deps_over_lookup job_list global_job_map job_map k :
  store (add_before_deps_over job_list global_job_map job_map) !! k
  = add_before_references (declared_before job_list global_job_map k)
      <$> job_map !! k.
Proof.
  revert job_map. induction job_list as [|a job_list IH]; intros job_map.
  { unfold declared_before. simpl.
    destruct (job_map !! k); [|done]. simpl.
    by rewrite add_before_references_empty. }
  unfold add_before_deps_over. cbn [st_for].
  destruct (add_before_deps_loop (id a) global_job_map
              (get_before_dependencies a) job_map) as (Hret & _ & _).
  cbn zeta in Hret. fold (add_before_deps a global_job_map) in Hret.
  erewrite store_bind by exact Hret.
  fold (add_before_deps_over job_list global_job_map).
  rewrite IH, add_before_deps_lookup. unfold declared_before.
  destruct (decide (k ∈ get_before_dependencies a ∧ k ∈ dom global_job_map))
    as [Hin|Hout].
  - rewrite (bool_decide_eq_true_2 _ Hin), filter_cons_True by done.
    destruct (job_map !! k); [|done]. simpl.
    by rewrite add_before_references_insert.
  - by rewrite (bool_decide_eq_false_2 _ Hout), filter_cons_False by done.
Qed.

(** X11.  The linking pass does not depend on the order of the job list:
    two lists with the same jobs leave the same job map. *)
Theorem linking_ignores_job_order job_list1 job_list2 global_job_map job_map :
  job_list1 ≡ₚ job_list2 →
  store (add_before_deps_over job_list1 global_job_map job_map)
  = store (add_before_deps_over job_list2 global_job_map job_map).
Proof.
  intros Hperm. apply map_eq. intros k.
  rewrite !add_before_deps_over_lookup. unfold declared_before.
  by rewrite Hperm.
Qed.

(** X12.  The linking pass never invents a reference and never drops one:
    afterwards the [before_references] of a job of [job_map] hold what they
    held before, and the id of each job of the list that names it in its
    [before] list provided the global catalog has it; no job enters or
    leaves [job_map]. *)
Theorem linking_records_declared_references
    job_list global_job_map job_map :
  let run := add_before_deps_over job_list global_job_map job_map in
  dom (store run) = dom job_map ∧
  ∀ b j, job_map !! b = Some j →
    ∃ j', store run !! b = Some j' ∧
      ∀ x, x ∈ before_references j' ↔
        x ∈ before_references j ∨
        ∃ a, a ∈ job_list ∧ id a = x ∧
             b ∈ get_before_dependencies a ∧ b ∈ dom global_job_map.
Proof.
  cbn zeta. split.
  - apply set_eq. intros k. rewrite !elem_of_dom, add_before_deps_over_lookup.
    by rewrite fmap_is_Some.
  - intros b j Hb. rewrite add_before_deps_over_lookup, Hb. simpl.
    eexists. split; [done|]. intros x. simpl.
    rewrite elem_of_union. unfold declared_before.
    rewrite elem_of_list_to_set, list_elem_of_fmap. split.
    + intros [(a & -> & Ha)|Hx]; [|by left].
      apply list_elem_of_filter in Ha as [[??] ?]. right. by exists a.
    + intros [Hx|(a & Ha & <- & ? & ?)]; [by right|].
      left. exists a. split; [done|]. by apply list_elem_of_filter.
Qed.

End linker_properties.

Lemma linking_ignores_job_order_witness :
  store (add_before_deps_over [Demo.job_first; Demo.job_second]
           Demo.plan_map Demo.plan_map)
  = store (add_before_deps_over [Demo.job_second; Demo.job_first]
             Demo.plan_map Demo.plan_map).
Proof.
  apply linking_ignores_job_order.
  apply (bool_decide_unpack _). vm_compute. exact I.
Defined.

(** ** Validation of generated units *)

Lemma bind_silent {S A B} (m : M S A) (k : A → M S B) s a s1 :
  m s = mkRun (inr a) s1 [] → st_bind m k s = k a s1.
Proof. intros Hm. unfold st_bind. rewrite Hm. simpl. by destruct (k a s1). Qed.

Lemma bind_run {S A B} (m : M S A) (k : A → M S B) s a s1 l1 r s2 l2 :
  m s = mkRun (inr a) s1 l1 →
  k a s1 = mkRun r s2 l2 →
  st_bind m k s = mkRun r s2 (l1 ++ l2).
Proof. intros Hm Hk. unfold st_bind. by rewrite Hm; simpl; rewrite Hk. Qed.

Lemma log_loop_eq {S} (l : Level) (issues : list Issue) (s : S) :
  st_for (λ c, log l (str_of c)) issues s
  = mkRun (inr ()) s ((λ c, {| level := l; message := str_of c |}) <$> issues).
Proof.
  induction issues as [|c issues IH]; [done|].
  cbn [st_for]. by erewrite bind_run; [|reflexivity|exact IH].
Qed.

Section validation_properties.
Context {engine : TemplateEngine}.

(** The whole run of [_filter_invalid_log]. *)
Lemma filter_invalid_log_eq {S} unit (s : S) :
  _filter_invalid_log unit s
  = match check unit with
    | RaisesMissingParam parameter =>
        mkRun (inr false) s
          [{| level := CRITICAL;
              message := ignoring_missing_template_parameter
                           (raw_data_id unit) parameter |}]
    | Findings check_result =>
        let errors := filter (λ c, severity c = error) check_result in
        let warnings := filter (λ c, severity c = warning) check_result in
        mkRun (inr (bool_decide (errors = []))) s
          (((λ c, {| level := WARNING; message := str_of c |}) <$> warnings) ++
           if bool_decide (errors = []) then []
           else ((λ c, {| level := ERROR; message := str_of c |}) <$> errors) ++
                [{| level := CRITICAL;
                    message := ignoring_invalid_generated_job (id unit) |}])
    end.
Proof.
  unfold _filter_invalid_log.
  destruct (check unit) as [parameter|check_result]; [done|]. cbn zeta.
  eapply bind_run; [apply log_loop_eq|].
  case_bool_decide; [done|].
  eapply bind_run; [apply log_loop_eq|]. done.
Qed.

(** The whole run of [_wrap_invalid_units]. *)
Lemma wrap_invalid_units_eq {S} unit (s : S) :
  _wrap_invalid_units unit s
  = match check unit with
    | RaisesMissingParam parameter =>
        mkRun (inr (InvalidJob unit [MissingParam parameter])) s []
    | Findings check_result =>
        let errors := filter (λ c, severity c = error) check_result in
        let warnings := filter (λ c, severity c = warning) check_result in
        mkRun (inr (if bool_decide (errors = []) then JobUnit unit
                    else InvalidJob unit (IssueError <$> errors))) s
          ((λ c, {| level := WARNING; message := str_of c |}) <$> warnings)
    end.
Proof.
  unfold _wrap_invalid_units.
  destruct (check unit) as [parameter|check_result]; [done|]. cbn zeta.
  destruct (filter (λ c, severity c = error) check_result) as [|e errors].
  - etrans.
    { eapply bind_run; [eapply bind_run; [apply log_loop_eq|reflexivity]|].
      reflexivity. }
    by rewrite !app_nil_r.
  - etrans.
    { eapply bind_run; [eapply bind_run; [apply log_loop_eq|reflexivity]|].
      reflexivity. }
    by rewrite !app_nil_r.
Qed.

(** X13.  A generated unit is never dropped silently.
    [_filter_invalid_log] leaves its store alone and returns whether the
    unit is kept.  A unit is kept exactly when its check raises no missing
    parameter and finds nothing of error severity; then every record logged
    is a WARNING, one per finding of warning severity.  When the unit is
    dropped, the last record logged is CRITICAL. *)
Theorem filter_invalid_log_verdict {S} unit (s : S) :
  let run := _filter_invalid_log unit s in
  store run = s ∧
  ∃ keep, returned run = inr keep ∧
    (keep = true ↔
     ∃ check_result, check unit = Findings check_result ∧
       Forall (λ c, severity c ≠ error) check_result) ∧
    (keep = true →
     ∃ check_result, check unit = Findings check_result ∧
       logged run
       = (λ c, {| level := WARNING; message := str_of c |})
           <$> filter (λ c, severity c = warning) check_result) ∧
    (keep = false →
     ∃ before m, logged run
                 = before ++ [{| level := CRITICAL; message := m |}]).
Proof.
  cbn zeta. rewrite filter_invalid_log_eq.
  destruct (check unit) as [parameter|check_result]; cbn zeta.
  - split; [done|]. exists false. split_and!; [done| |done|].
    + split; [done|]. by intros (? & [=] & _).
    + intros _. by eexists [], _.
  - split; [done|]. eexists. split; [done|].
    assert (filter (λ c, severity c = error) check_result = [] ↔
            Forall (λ c, severity c ≠ error) check_result) as Hnil.
    { induction check_result as [|c cr IH]; [by split|].
      rewrite Forall_cons, <- IH.
      destruct (decide (severity c = error)) as [He|He].
      - rewrite filter_cons_True by done. split; [done|]. by intros [? _].
      - rewrite filter_cons_False by done. by split; [|intros [_ ?]]. }
    rewrite bool_decide_eq_true, bool_decide_eq_false.
    split_and!.
    + rewrite Hnil. split; [by eexists|]. by intros (? & [= <-] & ?).
    + intros Hkeep. exists check_result. split; [done|].
      rewrite (bool_decide_eq_true_2 _ Hkeep). by rewrite app_nil_r.
    + intros Hdrop. rewrite (bool_decide_eq_false_2 _ Hdrop).
      eexists _, _. by rewrite (assoc_L (++)).
Qed.

(** X14.  Strict and lenient validation agree, and strict validation logs
    no error.  [_wrap_invalid_units] leaves its store alone; it returns the
    unit itself exactly when [_filter_invalid_log] keeps the unit, and
    otherwise a placeholder for the same unit whose list of errors is not
    empty; every record it logs is a WARNING. *)
Theorem wrap_invalid_units_agrees_with_filter {S} unit (s : S) :
  let wrapped := _wrap_invalid_units unit s in
  let filtered := _filter_invalid_log unit s in
  store wrapped = s ∧
  Forall (λ r, level r = WARNING) (logged wrapped) ∧
  ∃ new_unit keep,
    returned wrapped = inr new_unit ∧
    returned filtered = inr keep ∧
    (keep = true → new_unit = JobUnit unit) ∧
    (keep = false →
     ∃ errors, new_unit = InvalidJob unit errors ∧ errors ≠ []).
Proof.
  cbn zeta. rewrite filter_invalid_log_eq, wrap_invalid_units_eq.
  destruct (check unit) as [parameter|check_result]; cbn zeta.
  - split; [done|]. split; [constructor|].
    eexists _, _. split_and!; [done..| |]; [done|].
    intros _. by eexists.
  - split; [done|]. split.
    { apply Forall_fmap, Forall_forall. by intros c _. }
    eexists _, _. split; [done|]. split; [done|].
    destruct (filter (λ c, severity c = error) check_result) as [|e errors].
    + by split.
    + split; [done|]. intros _. by eexists.
Qed.

End validation_properties.

(** ** Resource pipeline *)

Section pipeline_frame.
Context {parser : RFC822Parser} {engine : TemplateEngine}.

(** The session that [_instantiate_templates] leaves for a result that ran,
    when the resource map has an entry for the job. *)
Lemma instantiate_templates_store job result fake_resources s parsed :
  outcome result ≠ OUTCOME_NONE →
  resource_map s !! id job = Some parsed →
  returned (_instantiate_templates job result fake_resources s) = inr () ∧
  store (_instantiate_templates job result fake_resources s)
  = recomputed
      (with_unit_list
         (unit_list s ++ generated_units s job parsed fake_resources) s).
Proof.
  intros Hsome Hparsed. unfold _instantiate_templates.
  rewrite (bool_decide_eq_false_2 _ Hsome).
  rewrite bind_get, (bind_lift _ _ _ _ (getitem_Some _ _ _ Hparsed)).
  fold (bound_templates s job). unfold generated_units.
  set (candidates :=
    t ← bound_templates s job; instantiate_all t parsed fake_resources).
  destruct (strict_loop job candidates s) as [Hsr Hss].
  destruct (lenient_loop job candidates s) as [Hlr Hls].
  cbn zeta in Hsr, Hss, Hlr, Hls.
  case_bool_decide as Hstrict.
  - rewrite (bool_decide_eq_true_2 (strict s)) by done. split.
    + erewrite returned_bind by exact Hsr. done.
    + erewrite store_bind by exact Hsr. by rewrite Hss.
  - rewrite (bool_decide_eq_false_2 (strict s)) by done. split.
    + erewrite returned_bind by exact Hlr. done.
    + erewrite store_bind by exact Hlr. by rewrite Hls.
Qed.

(** The session that [_process_resource_result] leaves for a result that
    ran. *)
Lemma process_ran_result_store job result fake_resources s :
  outcome result ≠ OUTCOME_NONE →
  let s1 :=
    with_resource_map
      (<[id job := stored_resources job result]> (resource_map s)) s in
  returned (_process_resource_result job result fake_resources s) = inr () ∧
  store (_process_resource_result job result fake_resources s)
  = if bool_decide (stored_resources job result = [mkResource ∅]) then s1
    else recomputed
           (with_unit_list
              (unit_list s1 ++
               generated_units s1 job (stored_resources job result)
                 fake_resources) s1).
Proof.
  intros Hsome. cbn zeta.
  destruct (parse_and_store_run job result s Hsome) as [Hpr Hps].
  cbn zeta in Hpr, Hps. fold (stored_resources job result) in Hps.
  set (s1 := with_resource_map
               (<[id job := stored_resources job result]> (resource_map s)) s)
    in *.
  assert (resource_map s1 !! id job = Some (stored_resources job result))
    as Hentry by apply lookup_insert_eq.
  assert (_process_resource_result job result fake_resources s
          = mkRun
              (returned
                 ((if bool_decide (stored_resources job result ≠ [mkResource ∅])
                   then _instantiate_templates job result fake_resources
                   else st_ret ()) s1))
              (store
                 ((if bool_decide (stored_resources job result ≠ [mkResource ∅])
                   then _instantiate_templates job result fake_resources
                   else st_ret ()) s1))
              (logged (_parse_and_store_resource job result s) ++
               logged
                 ((if bool_decide (stored_resources job result ≠ [mkResource ∅])
                   then _instantiate_templates job result fake_resources
                   else st_ret ()) s1))) as ->.
  { unfold _process_resource_result. unfold st_bind at 1.
    rewrite Hpr, Hps. cbn [returned store logged].
    by rewrite bind_get, (bind_lift _ _ _ _ (getitem_Some _ _ _ Hentry)). }
  cbn [returned store logged].
  destruct (decide (stored_resources job result = [mkResource ∅])) as [Hs|Hs].
  - rewrite (bool_decide_eq_true_2 _ Hs).
    rewrite bool_decide_eq_false_2 by (by intros Hne; apply Hne). done.
  - rewrite (bool_decide_eq_false_2 _ Hs), (bool_decide_eq_true_2 _ Hs).
    apply (instantiate_templates_store _ _ _ _ _ Hsome Hentry).
Qed.

Lemma recomputed_lookup (s : SessionState) k :
  job_state_map (recomputed s) !! k
  = (λ state, with_readiness_inhibitor_list (readiness s state) state)
      <$> job_state_map s !! k.
Proof. unfold recomputed. simpl. apply lookup_fmap. Qed.

(** X15.  What processing a resource result never touches.  Whatever the
    outcome, the parser, the templates and the mode,
    [_process_resource_result] leaves alone the resources of every other
    id and the metadata flags, and it removes no unit and moves none: the
    unit collection only grows at its end. *)
Theorem process_resource_result_frame job result fake_resources s :
  let run := _process_resource_result job result fake_resources s in
  (∀ k, k ≠ id job →
        resource_map (store run) !! k = resource_map s !! k) ∧
  unit_list s `prefix_of` unit_list (store run) ∧
  metadata_flags (store run) = metadata_flags s.
Proof.
  cbn zeta.
  destruct (decide (outcome result = OUTCOME_NONE)) as [Hnone|Hsome].
  { rewrite (process_none_result _ _ _ _ Hnone). simpl. by split_and!. }
  destruct (process_ran_result_store job result fake_resources s Hsome)
    as [_ ->]. cbn zeta.
  case_bool_decide.
  - simpl. split_and!; try done.
    intros k Hk. by rewrite lookup_insert_ne.
  - split_and!; try done.
    + intros k Hk. simpl. by rewrite lookup_insert_ne.
    + simpl. by apply prefix_app_r.
Qed.

(** X16.  Processing a result that ran never raises and never stores an
    empty list.  For an outcome other than NONE,
    [_process_resource_result] returns, in either mode and whatever the
    parser yields and the templates generate; afterwards the entry of the
    job id in the resource map is the list of the parsed resources, or the
    list of one empty resource when nothing was parsed. *)
Theorem process_ran_result_returns job result fake_resources s :
  outcome result ≠ OUTCOME_NONE →
  let run := _process_resource_result job result fake_resources s in
  returned run = inr () ∧
  ∃ l, resource_map (store run) !! id job = Some l ∧
    l ≠ [] ∧
    (parsed_resources job result = [] → l = [mkResource ∅]) ∧
    (parsed_resources job result ≠ [] → l = parsed_resources job result).
Proof.
  intros Hsome. cbn zeta.
  destruct (process_ran_result_store job result fake_resources s Hsome)
    as [-> ->]. cbn zeta.
  split; [done|]. exists (stored_resources job result).
  split.
  { case_bool_decide; simpl; apply lookup_insert_eq. }
  unfold stored_resources. case_bool_decide as Hnil; split_and!; done.
Qed.

(** X17.  Replacement is wholesale.  After the results of two runs of a
    resource job are processed one after the other, the resource map is
    what processing the second result alone gives: nothing of the first
    result remains. *)
Theorem resource_replacement_is_wholesale
    job result1 result2 fake_resources s :
  outcome result1 ≠ OUTCOME_NONE →
  outcome result2 ≠ OUTCOME_NONE →
  resource_map
    (store (_process_resource_result job result2 fake_resources
              (store (_process_resource_result job result1 fake_resources s))))
  = resource_map (store (_process_resource_result job result2 fake_resources s)).
Proof.
  intros Hsome1 Hsome2.
  assert (∀ result s', outcome result ≠ OUTCOME_NONE →
    resource_map (store (_process_resource_result job result fake_resources s'))
    = <[id job := stored_resources job result]> (resource_map s')) as Hmap.
  { intros result s' Hsome.
    destruct (process_ran_result_store job result fake_resources s' Hsome)
      as [_ ->]. cbn zeta. by case_bool_decide. }
  rewrite !Hmap by done. apply insert_insert_eq.
Qed.

(** X18.  The guards of [_instantiate_templates].  With a result of outcome
    NONE it does nothing at all, whether or not the resource map has an
    entry for the job; with a result that ran and no entry for the job it
    raises [KeyError] for the job id and leaves the session as it was. *)
Theorem instantiate_templates_guards job result fake_resources s :
  (outcome result = OUTCOME_NONE →
   _instantiate_templates job result fake_resources s = mkRun (inr ()) s []) ∧
  (outcome result ≠ OUTCOME_NONE →
   resource_map s !! id job = None →
   _instantiate_templates job result fake_resources s
   = mkRun (inl (KeyError (id job))) s []).
Proof.
  unfold _instantiate_templates. split.
  - intros Hnone. by rewrite (bool_decide_eq_true_2 _ Hnone).
  - intros Hsome Hentry. rewrite (bool_decide_eq_false_2 _ Hsome).
    rewrite bind_get. unfold st_bind, st_lift, getitem. by rewrite Hentry.
Qed.

Lemma job_units_of_strict (candidates : list JobDefinition) :
  filter (λ u, ¬ is_placeholder u) (unit_or_placeholder <$> candidates)
  = JobUnit <$> filter validates candidates.
Proof.
  induction candidates as [|c candidates IH]; [done|].
  rewrite fmap_cons. unfold unit_or_placeholder at 1.
  destruct (decide (validates c)) as [Hc|Hc].
  - rewrite filter_cons_True by (by intros []).
    rewrite (filter_cons_True validates) by done. by rewrite fmap_cons, IH.
  - rewrite filter_cons_False by (by intros Hn; apply Hn).
    by rewrite (filter_cons_False validates).
Qed.

(** X19.  The two modes of template expansion differ by the placeholders
    only.  For two sessions with the same units and the same resources for
    the job, one in strict mode and one not, [_instantiate_templates]
    appends in lenient mode exactly the units appended in strict mode that
    are not placeholders, in the same order; each of them is a generated
    job that validates. *)
Theorem lenient_units_are_strict_units_without_placeholders
    job result fake_resources s_strict s_lenient parsed :
  outcome result ≠ OUTCOME_NONE →
  strict s_strict →
  ¬ strict s_lenient →
  unit_list s_strict = unit_list s_lenient →
  resource_map s_strict !! id job = Some parsed →
  resource_map s_lenient !! id job = Some parsed →
  ∃ added,
    unit_list (store (_instantiate_templates job result fake_resources s_strict))
    = unit_list s_strict ++ added ∧
    unit_list (store (_instantiate_templates job result fake_resources s_lenient))
    = unit_list s_lenient ++ filter (λ u, ¬ is_placeholder u) added ∧
    Forall (λ u, ∃ c, u = JobUnit c ∧ validates c)
           (filter (λ u, ¬ is_placeholder u) added).
Proof.
  intros Hsome Hstrict Hlenient Hunits Hparsed1 Hparsed2.
  destruct (instantiate_templates_store job result fake_resources s_strict
              parsed Hsome Hparsed1) as [_ ->].
  destruct (instantiate_templates_store job result fake_resources s_lenient
              parsed Hsome Hparsed2) as [_ ->].
  unfold generated_units.
  rewrite (bool_decide_eq_true_2 _ Hstrict), (bool_decide_eq_false_2 _ Hlenient).
  unfold bound_templates. rewrite Hunits. fold (bound_templates s_lenient job).
  eexists. split; [done|]. rewrite job_units_of_strict. split; [done|].
  apply Forall_fmap, Forall_forall. intros c Hc.
  apply list_elem_of_filter in Hc as [Hc _]. by exists c.
Qed.

(** X20.  Only the standard output of a resource job is parsed: dropping
    from the I/O log of the result every record of another stream changes
    nothing of what [_process_resource_result] returns, stores and logs. *)
Theorem only_stdout_is_parsed job result fake_resources s :
  _process_resource_result job result fake_resources s
  = _process_resource_result job
      {| outcome := outcome result;
         get_io_log :=
           filter (λ record, stream_name record = "stdout")
                  (get_io_log result) |}
      fake_resources s.
Proof.
  unfold _process_resource_result, _parse_and_store_resource,
    _instantiate_templates, gen_rfc822_records_from_io_log, line_gen.
  simpl.
  assert (filter (λ record, stream_name record = "stdout")
            (filter (λ record, stream_name record = "stdout")
               (get_io_log result))
          = filter (λ record, stream_name record = "stdout")
              (get_io_log result)) as ->; [|done].
  apply list_filter_filter_l. by intros r Hr.
Qed.

(** ** Result observer *)

(** The run of [observe_result] up to the hand-off to the resource
    pipeline. *)
Lemma observe_result_eq job result fake_resources s state :
  job_state_map s !! id job = Some state →
  let s' :=
    {| job_state_map :=
         <[id job := with_result result state]> (job_state_map s);
       resource_map := resource_map s;
       unit_list := unit_list s;
       metadata_flags := metadata_flags s;
       fired := fired s ++
                [on_job_state_map_changed; on_job_result_changed job result] |} in
  observe_result job result fake_resources s
  = if bool_decide (plugin job = "resource")
    then _process_resource_result job result fake_resources s'
    else mkRun (inr ()) s' [].
Proof.
  intros Hstate. cbn zeta. unfold observe_result.
  rewrite bind_get, (bind_lift _ _ _ _ (getitem_Some _ _ _ Hstate)).
  erewrite bind_silent by reflexivity.
  erewrite bind_silent by reflexivity.
  erewrite bind_silent by reflexivity.
  unfold with_fired, with_job_state_map. simpl.
  rewrite <- (assoc_L (++)). simpl. by case_bool_decide.
Qed.

(** X21.  A result for a job that the session does not know is refused:
    [observe_result] raises [KeyError] for the job id, fires no
    notification, logs nothing and leaves the session as it was, also for
    a resource job. *)
Theorem observe_unknown_job_raises job result fake_resources s :
  job_state_map s !! id job = None →
  observe_result job result fake_resources s
  = mkRun (inl (KeyError (id job))) s [].
Proof.
  intros Hstate. unfold observe_result.
  rewrite bind_get. unfold st_bind, st_lift, getitem. by rewrite Hstate.
Qed.

(** X22.  Later results override earlier ones.  For a job of the session
    whose plugin is not "resource", observing a first result and then a
    second leaves the job states that observing the second alone leaves;
    the notifications of both are fired, in order. *)
Theorem later_result_overrides job result1 result2 fake_resources s state :
  plugin job ≠ "resource" →
  job_state_map s !! id job = Some state →
  let once := observe_result job result2 fake_resources s in
  let twice :=
    observe_result job result2 fake_resources
      (store (observe_result job result1 fake_resources s)) in
  returned twice = inr () ∧
  job_state_map (store twice) = job_state_map (store once) ∧
  fired (store twice)
  = fired s ++
    [on_job_state_map_changed; on_job_result_changed job result1;
     on_job_state_map_changed; on_job_result_changed job result2].
Proof.
  intros Hplugin Hstate. cbn zeta.
  rewrite (observe_result_eq job result1 _ s state Hstate). cbn zeta.
  rewrite (observe_result_eq job result2 _ s state Hstate). cbn zeta.
  rewrite (bool_decide_eq_false_2 _ Hplugin). cbn [store].
  erewrite observe_result_eq by (simpl; apply lookup_insert_eq). cbn zeta.
  rewrite (bool_decide_eq_false_2 _ Hplugin). simpl.
  split_and!; [done| |by rewrite <- (assoc_L (++))].
  apply insert_insert_eq.
Qed.

(** X23.  The result of a resource job that ran is stored together with
    its resources.  For a resource job of the session and a result with an
    outcome other than NONE, [observe_result] returns; afterwards the job
    state holds the result and the resource map has a list for the job
    that is not empty, and the two notifications of the observer were
    fired first, before whatever the pipeline fires. *)
Theorem observe_resource_result job result fake_resources s state :
  plugin job = "resource" →
  job_state_map s !! id job = Some state →
  outcome result ≠ OUTCOME_NONE →
  let run := observe_result job result fake_resources s in
  returned run = inr () ∧
  result_of <$> job_state_map (store run) !! id job = Some result ∧
  (∃ l, resource_map (store run) !! id job = Some l ∧ l ≠ []) ∧
  (fired s ++ [on_job_state_map_changed; on_job_result_changed job result])
    `prefix_of` fired (store run).
Proof.
  intros Hplugin Hstate Hsome. cbn zeta.
  rewrite (observe_result_eq job result _ s state Hstate). cbn zeta.
  rewrite (bool_decide_eq_true_2 _ Hplugin).
  match goal with
  | |- context [_process_resource_result job result fake_resources ?s0] =>
      set (s' := s0)
  end.
  destruct (process_ran_result_store job result fake_resources s' Hsome)
    as [-> ->]. cbn zeta.
  assert (stored_resources job result ≠ []) as Hstored.
  { unfold stored_resources. by case_bool_decide. }
  split; [done|].
  case_bool_decide.
  - simpl. rewrite !lookup_insert_eq. split_and!; [done| |reflexivity].
    by eexists.
  - split_and!.
    + rewrite recomputed_lookup. simpl. by rewrite lookup_insert_eq.
    + exists (stored_resources job result). split; [|done].
      simpl. apply lookup_insert_eq.
    + reflexivity.
Qed.

(** X24.  An exception of the resource pipeline does not undo the
    observation.  For a resource job of the session without an entry in
    the resource map, observing a result of outcome NONE raises
    [KeyError] for the job id, but only after the result was stored in the
    job state and the two notifications were fired. *)
Theorem observe_none_resource_result_raises_after_storing
    job result fake_resources s state :
  plugin job = "resource" →
  job_state_map s !! id job = Some state →
  outcome result = OUTCOME_NONE →
  resource_map s !! id job = None →
  let run := observe_result job result fake_resources s in
  returned run = inl (KeyError (id job)) ∧
  job_state_map (store run)
  = <[id job := with_result result state]> (job_state_map s) ∧
  fired (store run)
  = fired s ++ [on_job_state_map_changed; on_job_result_changed job result] ∧
  resource_map (store run) = resource_map s ∧
  unit_list (store run) = unit_list s.
Proof.
  intros Hplugin Hstate Hnone Hentry. cbn zeta.
  rewrite (observe_result_eq job result _ s state Hstate). cbn zeta.
  rewrite (bool_decide_eq_true_2 _ Hplugin).
  rewrite (process_none_result _ _ _ _ Hnone). simpl.
  by rewrite Hentry.
Qed.

End pipeline_frame.

Lemma process_ran_result_returns_witness :
  let run :=
    @_process_resource_result Paragraphs.parser Demo.engine
      Demo.job_r Demo.result_two false (Demo.session_r ∅) in
  returned run = inr () ∧
  ∃ l, resource_map (store run) !! id Demo.job_r = Some l ∧
    l ≠ [] ∧
    (@parsed_resources Paragraphs.parser Demo.job_r Demo.result_two = [] →
     l = [mkResource ∅]) ∧
    (@parsed_resources Paragraphs.parser Demo.job_r Demo.result_two ≠ [] →
     l = @parsed_resources Paragraphs.parser Demo.job_r Demo.result_two).
Proof.
  apply (@process_ran_result_returns Paragraphs.parser Demo.engine
           Demo.job_r Demo.result_two false (Demo.session_r ∅)).
  discriminate.
Defined.

Lemma resource_replacement_is_wholesale_witness :
  resource_map
    (store (@_process_resource_result Paragraphs.parser Demo.engine
              Demo.job_r Demo.result_empty false
              (store (@_process_resource_result Paragraphs.parser Demo.engine
                        Demo.job_r Demo.result_two false (Demo.session_r ∅)))))
  = resource_map
      (store (@_process_resource_result Paragraphs.parser Demo.engine
                Demo.job_r Demo.result_empty false (Demo.session_r ∅))).
Proof.
  apply (@resource_replacement_is_wholesale Paragraphs.parser Demo.engine
           Demo.job_r Demo.result_two Demo.result_empty false
           (Demo.session_r ∅)); discriminate.
Defined.

Lemma lenient_units_are_strict_units_without_placeholders_witness :
  ∃ added,
    unit_list
      (store (@_instantiate_templates Demo.engine Demo.job_r Demo.result_two
                false
                (Demo2.session_with_resources {[ "strict-template-expansion" ]})))
    = unit_list (Demo2.session_with_resources {[ "strict-template-expansion" ]})
      ++ added ∧
    unit_list
      (store (@_instantiate_templates Demo.engine Demo.job_r Demo.result_two
                false (Demo2.session_with_resources ∅)))
    = unit_list (Demo2.session_with_resources ∅)
      ++ filter (λ u, ¬ is_placeholder u) added ∧
    Forall (λ u, ∃ c, u = JobUnit c ∧ @validates Demo.engine c)
           (filter (λ u, ¬ is_placeholder u) added).
Proof.
  apply (@lenient_units_are_strict_units_without_placeholders
           Demo.engine Demo.job_r Demo.result_two false
           (Demo2.session_with_resources {[ "strict-template-expansion" ]})
           (Demo2.session_with_resources ∅) Demo2.two_resources).
  - discriminate.
  - apply (bool_decide_unpack _). vm_compute. exact I.
  - apply (bool_decide_unpack _). vm_compute. exact I.
  - reflexivity.
  - reflexivity.
  - reflexivity.
Defined.

Lemma observe_unknown_job_raises_witness :
  @observe_result Paragraphs.parser Demo.engine
    Demo.job_r (Demo.make_result OUTCOME_PASS) false Demo.session_abc
  = mkRun (inl (KeyError "r")) Demo.session_abc [].
Proof.
  apply (@observe_unknown_job_raises Paragraphs.parser Demo.engine
           Demo.job_r (Demo.make_result OUTCOME_PASS) false Demo.session_abc).
  reflexivity.
Defined.

Lemma later_result_overrides_witness :
  let once :=
    @observe_result Paragraphs.parser Demo.engine
      Demo.job_a (Demo.make_result OUTCOME_PASS) false Demo.session_abc in
  let twice :=
    @observe_result Paragraphs.parser Demo.engine
      Demo.job_a (Demo.make_result OUTCOME_PASS) false
      (store (@observe_result Paragraphs.parser Demo.engine
                Demo.job_a (Demo.make_result OUTCOME_FAIL) false
                Demo.session_abc)) in
  returned twice = inr () ∧
  job_state_map (store twice) = job_state_map (store once) ∧
  fired (store twice)
  = fired Demo.session_abc ++
    [on_job_state_map_changed;
     on_job_result_changed Demo.job_a (Demo.make_result OUTCOME_FAIL);
     on_job_state_map_changed;
     on_job_result_changed Demo.job_a (Demo.make_result OUTCOME_PASS)].
Proof.
  apply (@later_result_overrides Paragraphs.parser Demo.engine
           Demo.job_a (Demo.make_result OUTCOME_FAIL)
           (Demo.make_result OUTCOME_PASS) false Demo.session_abc
           (Demo.make_state Demo.job_a OUTCOME_NONE)).
  - discriminate.
  - reflexivity.
Defined.

Lemma observe_resource_result_witness :
  let run :=
    @observe_result Paragraphs.parser Demo.engine
      Demo.job_r Demo.result_two false (Demo.session_r ∅) in
  returned run = inr () ∧
  result_of <$> job_state_map (store run) !! id Demo.job_r
  = Some Demo.result_two ∧
  (∃ l, resource_map (store run) !! id Demo.job_r = Some l ∧ l ≠ []) ∧
  (fired (Demo.session_r ∅) ++
   [on_job_state_map_changed;
    on_job_result_changed Demo.job_r Demo.result_two])
    `prefix_of` fired (store run).
Proof.
  apply (@observe_resource_result Paragraphs.parser Demo.engine
           Demo.job_r Demo.result_two false (Demo.session_r ∅)
           (Demo.make_state Demo.job_r OUTCOME_NONE)).
  - reflexivity.
  - reflexivity.
  - discriminate.
Defined.

Lemma observe_none_resource_result_raises_after_storing_witness :
  let run :=
    @observe_result Paragraphs.parser Demo.engine
      Demo.job_r Demo.result_none false (Demo.session_r ∅) in
  returned run = inl (KeyError (id Demo.job_r)) ∧
  job_state_map (store run)
  = <[id Demo.job_r :=
        with_result Demo.result_none (Demo.make_state Demo.job_r OUTCOME_NONE)]>
      (job_state_map (Demo.session_r ∅)) ∧
  fired (store run)
  = fired (Demo.session_r ∅) ++
    [on_job_state_map_changed;
     on_job_result_changed Demo.job_r Demo.result_none] ∧
  resource_map (store run) = resource_map (Demo.session_r ∅) ∧
  unit_list (store run) = unit_list (Demo.session_r ∅).
Proof.
  apply (@observe_none_resource_result_raises_after_storing
           Paragraphs.parser Demo.engine
           Demo.job_r Demo.result_none false (Demo.session_r ∅)
           (Demo.make_state Demo.job_r OUTCOME_NONE)).
  - reflexivity.
  - reflexivity.
  - reflexivity.
  - reflexivity.
Defined.

(** ** The nest of symbolic links *)

Section nest_paths.
Import Nest.

Lemma append_cons c a b : String c a +:+ b = String c (a +:+ b).
Proof. reflexivity. Qed.

Lemma append_nil b : EmptyString +:+ b = b.
Proof. reflexivity. Qed.

Lemma has_slash_basename p : has_slash (basename p) = false.
Proof.
  induction p as [|c rest IH]; [done|]. cbn [basename].
  destruct (has_slash rest) eqn:Hrest; [done|].
  destruct (Ascii.eqb c slash) eqn:Hc; [done|].
  cbn [has_slash]. by rewrite Hc, Hrest.
Qed.

Lemma basename_no_slash b : has_slash b = false → basename b = b.
Proof.
  destruct b as [|c rest]; [done|]. cbn [has_slash basename].
  intros [Hc Hrest]%orb_false_iff. by rewrite Hrest, Hc.
Qed.

Lemma has_slash_append a b : has_slash (a +:+ b) = has_slash a || has_slash b.
Proof.
  induction a as [|c a IH]; [done|].
  rewrite append_cons. cbn [has_slash]. by rewrite IH, orb_assoc.
Qed.

Lemma basename_after_slash a b :
  has_slash b = false → basename (a +:+ String slash b) = b.
Proof.
  intros Hb. induction a as [|c a IH].
  - rewrite append_nil. cbn [basename]. by rewrite Hb.
  - rewrite append_cons. cbn [basename].
    rewrite has_slash_append. cbn [has_slash]. simpl.
    by rewrite orb_true_r.
Qed.

Lemma endswith_has_slash a : endswith_slash a = true → has_slash a = true.
Proof.
  induction a as [|c a IH]; [done|]. cbn [endswith_slash has_slash].
  destruct a as [|c' a'].
  - intros ->. done.
  - intros Hend. by rewrite (IH Hend), orb_true_r.
Qed.

Lemma basename_after_endslash a b :
  endswith_slash a = true → has_slash b = false → basename (a +:+ b) = b.
Proof.
  intros Ha Hb. induction a as [|c a IH]; [done|].
  rewrite append_cons. cbn [basename].
  destruct a as [|c' a'].
  - rewrite append_nil, Hb. cbn [endswith_slash] in Ha. by rewrite Ha.
  - rewrite has_slash_append, (endswith_has_slash (String c' a')) by done.
    simpl. by apply IH.
Qed.

Lemma prefix_append a b : String.prefix a (a +:+ b) = true.
Proof.
  induction a as [|c a IH]; [by destruct b|].
  rewrite append_cons. simpl. by destruct (ascii_dec c c).
Qed.

Lemma startswith_basename p : startswith_slash (basename p) = false.
Proof.
  pose proof (has_slash_basename p) as H.
  destruct (basename p) as [|c rest]; [done|].
  cbn [has_slash] in H. apply orb_false_iff in H as [H _].
  exact H.
Qed.

(** X25.  A link of the nest carries the name of its executable and lies
    in the directory of the nest.  Whatever the file system does,
    [add_executable] asks for one symbolic link to the executable; the
    base name of its destination is the base name of the executable and
    the directory name of the nest is a prefix of it.  If creating the link
    fails, the file system stays as it was and an ERROR record follows the
    DEBUG record; nothing is raised. *)
Theorem nest_link_is_named_after_executable
    {os : FileSystem} _dirname filename fs :
  ∃ dest,
    basename dest = basename filename ∧
    String.prefix _dirname dest = true ∧
    match symlink filename dest fs with
    | inr fs' =>
        add_executable _dirname filename fs
        = (fs', [{| nest_level := DEBUG;
                    nest_message :=
                      adding_executable_to_nest filename _dirname |}])
    | inl exc =>
        add_executable _dirname filename fs
        = (fs, [{| nest_level := DEBUG;
                   nest_message :=
                     adding_executable_to_nest filename _dirname |};
                {| nest_level := ERROR;
                   nest_message :=
                     unable_to_create_symlink filename dest exc |}])
    end.
Proof.
  exists (join _dirname (basename filename)). split_and!.
  - unfold join. rewrite startswith_basename.
    destruct (String.eqb _dirname EmptyString) eqn:Hempty.
    + apply String.eqb_eq in Hempty as ->. rewrite append_nil.
      apply basename_no_slash, has_slash_basename.
    + simpl. destruct (endswith_slash _dirname) eqn:Hend.
      * by apply basename_after_endslash; [|apply has_slash_basename].
      * apply basename_after_slash, has_slash_basename.
  - unfold join. rewrite startswith_basename.
    destruct (_ || _); apply prefix_append.
  - unfold add_executable.
    by destruct (symlink filename (join _dirname (basename filename)) fs).
Qed.

End nest_paths.

Section nest_providers.
Import Nest.

Lemma add_provider_cons {os : FileSystem} _dirname filename rest fs :
  add_provider _dirname (filename :: rest) fs
  = ((add_provider _dirname rest (add_executable _dirname filename fs).1).1,
     (add_executable _dirname filename fs).2
     ++ (add_provider _dirname rest (add_executable _dirname filename fs).1).2).
Proof.
  change (add_provider _dirname (filename :: rest) fs)
    with (let '(fs1, log1) := add_executable _dirname filename fs in
          let '(fs2, log2) := add_provider _dirname rest fs1 in
          (fs2, log1 ++ log2)).
  destruct (add_executable _dirname filename fs) as [fs1 log1].
  cbn [fst snd].
  destruct (add_provider _dirname rest fs1) as [fs2 log2].
  reflexivity.
Qed.

(** X26.  A link that cannot be created does not stop a provider from
    being added.  Whatever the file system does, the DEBUG records that
    [add_provider] logs are those of all executables of the provider, in
    their order, and every other record is the ERROR record of a link that
    failed. *)
Theorem add_provider_tries_every_executable
    {os : FileSystem} _dirname executable_list fs :
  filter (λ r, nest_level r = DEBUG)
    (add_provider _dirname executable_list fs).2
  = (λ filename,
       {| nest_level := DEBUG;
          nest_message := adding_executable_to_nest filename _dirname |})
    <$> executable_list
  ∧ Forall (λ r, nest_level r = DEBUG ∨
                 nest_level r = ERROR ∧
                 ∃ filename exc,
                   filename ∈ executable_list ∧
                   nest_message r
                   = unable_to_create_symlink filename
                       (join _dirname (basename filename)) exc)
      (add_provider _dirname executable_list fs).2.
Proof.
  revert fs. induction executable_list as [|filename rest IH]; intros fs.
  { split; [done|apply Forall_nil_2]. }
  rewrite add_provider_cons. cbn [snd].
  destruct (IH (add_executable _dirname filename fs).1) as [IHd IHe].
  split.
  - rewrite filter_app, IHd, fmap_cons. unfold add_executable.
    by destruct (symlink filename _ fs).
  - apply Forall_app. split.
    + unfold add_executable. destruct (symlink filename _ fs) as [exc|fs'].
      * apply Forall_cons. split; [by left|].
        apply Forall_cons. split; [|apply Forall_nil_2].
        right. split; [done|]. exists filename, exc.
        split; [apply list_elem_of_here|done].
      * apply Forall_cons. split; [by left|apply Forall_nil_2].
    + eapply Forall_impl; [exact IHe|].
      intros r [Hd|[He (f & exc & Hf & Hm)]]; [by left|].
      right. split; [done|]. exists f, exc.
      split; [by apply list_elem_of_further|done].
Qed.

(** X27.  The first executable of a name wins.  In a file system where
    creating a link fails exactly when its destination exists, after
    [add_provider] a path that was linked before is linked as before, and
    any other path is linked to the first executable of the provider whose
    place in the nest it is (and to nothing if there is none). *)
Theorem nest_keeps_first_link _dirname executable_list
    (fs : gmap string string) dest :
  (@add_provider links _dirname executable_list fs).1 !! dest
  = match fs !! dest with
    | Some target => Some target
    | None =>
        head (filter (λ filename,
                        join _dirname (basename filename) = dest)
                executable_list)
    end.
Proof.
  revert fs. induction executable_list as [|filename rest IH]; intros fs.
  { cbn [add_provider fst FS links]. by destruct (fs !! dest). }
  rewrite add_provider_cons. cbn [fst]. rewrite IH.
  unfold add_executable. cbn [symlink FS links].
  destruct (fs !! join _dirname (basename filename)) eqn:Hthere; cbn [fst].
  - destruct (fs !! dest) eqn:Hdest; [done|].
    rewrite filter_cons_False; [done|]. intros <-. congruence.
  - destruct (decide (join _dirname (basename filename) = dest)) as [<-|Hne].
    + rewrite lookup_insert_eq, Hthere. by rewrite filter_cons_True.
    + rewrite lookup_insert_ne by done.
      by rewrite filter_cons_False.
Qed.

End nest_providers.

(** ** The table of processor names *)

Section cpuid_table.
Import Cpuid.

Lemma append_assoc a b c : (a +:+ b) +:+ c = a +:+ b +:+ c.
Proof.
  induction a as [|x a IH]; [done|]. by rewrite !append_cons, IH.
Qed.

Lemma prefix_iff n h :
  String.prefix n h = true ↔ ∃ post, h = n +:+ post.
Proof.
  revert h. induction n as [|c n IH]; intros h.
  { split; [intros _; by exists h|intros _; by destruct h]. }
  destruct h as [|d h]; simpl.
  { split; [done|]. intros [post Hpost]. by rewrite append_cons in Hpost. }
  destruct (ascii_dec c d) as [->|Hne].
  - rewrite IH. split; intros [post Hpost]; exists post.
    + by rewrite append_cons, <- Hpost.
    + rewrite append_cons in Hpost. by injection Hpost.
  - split; [done|]. intros [post Hpost]. rewrite append_cons in Hpost.
    injection Hpost as Hcd _. by destruct Hne.
Qed.

Lemma str_contains_unfold n h :
  str_contains n h
  = String.prefix n h ||
    match h with
    | EmptyString => false
    | String _ rest => str_contains n rest
    end.
Proof. by destruct h. Qed.

Lemma str_contains_iff n h :
  str_contains n h = true ↔ ∃ pre post, h = pre +:+ n +:+ post.
Proof.
  split.
  - induction h as [|c h IH]; rewrite str_contains_unfold.
    + rewrite orb_false_r. intros [post Hpost]%prefix_iff.
      by exists EmptyString, post.
    + intros [[post Hpost]%prefix_iff|Hrest]%orb_true_iff.
      * by exists EmptyString, post.
      * destruct (IH Hrest) as (pre & post & ->).
        exists (String c pre), post. by rewrite append_cons.
  - intros (pre & post & ->). induction pre as [|c pre IH].
    + rewrite append_nil, str_contains_unfold.
      apply orb_true_iff. left. apply prefix_iff. by exists post.
    + rewrite append_cons, str_contains_unfold, IH. apply orb_true_r.
Qed.

Lemma str_contains_trans a b c :
  str_contains a b = true → str_contains b c = true →
  str_contains a c = true.
Proof.
  intros (pre1 & post1 & ->)%str_contains_iff.
  intros (pre2 & post2 & ->)%str_contains_iff.
  apply str_contains_iff. exists (pre2 +:+ pre1), (post1 +:+ post2).
  by rewrite !append_assoc.
Qed.

Lemma some_value_in_mono values cpuid text :
  str_contains (lower cpuid) (lower text) = true →
  some_value_in values cpuid = true → some_value_in values text = true.
Proof.
  intros Hin. unfold some_value_in. rewrite !existsb_exists.
  intros (value & Hvalue & Hocc). exists value. split; [done|].
  by eapply str_contains_trans.
Qed.

Lemma first_key_listed table cpuid name :
  first_key table cpuid = Some name → ∃ j, table.*1 !! j = Some name.
Proof.
  induction table as [|[key values] rest IH]; [done|]. cbn [first_key].
  destruct (some_value_in values cpuid).
  - intros [= ->]. by exists 0.
  - intros [j Hj]%IH. by exists (S j).
Qed.

Lemma first_key_mono table cpuid text name :
  str_contains (lower cpuid) (lower text) = true →
  first_key table cpuid = Some name →
  ∃ name',
    first_key table text = Some name' ∧
    (name' = name ∨
     ∃ i j, i < j ∧ table.*1 !! i = Some name' ∧ table.*1 !! j = Some name).
Proof.
  intros Hin. induction table as [|[key values] rest IH]; [done|].
  cbn [first_key].
  destruct (some_value_in values cpuid) eqn:Hcpuid.
  - intros [= ->]. rewrite (some_value_in_mono _ _ _ Hin Hcpuid).
    exists name. split; [done|by left].
  - intros Hrest. destruct (some_value_in values text).
    + exists key. split; [done|]. right.
      destruct (first_key_listed _ _ _ Hrest) as [j Hj].
      exists 0, (S j). split_and!; [lia|done|done].
    + destruct (IH Hrest) as (name' & Hname' & [->|(i & j & Hij & Hi & Hj)]).
      * exists name. split; [done|by left].
      * exists name'. split; [done|]. right.
        exists (S i), (S j). split_and!; [lia|done|done].
Qed.

(** X28.  Every id of the table names its processor, but for two.  Given
    an id listed in [CPUIDS], [cpuid_to_human_friendly] returns the name it
    is listed under, except that ["0x806e9"], listed under Kaby Lake too,
    gives Amber Lake, and ["0x806ec"], listed under Whisky Lake too, gives
    Comet Lake. *)
Theorem listed_id_names_its_processor name values value :
  (name, values) ∈ CPUIDS → value ∈ values →
  cpuid_to_human_friendly value = inr name
  ∨ (name = "Kaby Lake" ∧ value = "0x806e9" ∧
     cpuid_to_human_friendly value = inr "Amber Lake")
  ∨ (name = "Whisky Lake" ∧ value = "0x806ec" ∧
     cpuid_to_human_friendly value = inr "Comet Lake").
Proof.
  intros Hentry Hvalue.
  assert (Forall (λ entry,
            Forall (λ value,
              cpuid_to_human_friendly value = inr entry.1
              ∨ (entry.1 = "Kaby Lake" ∧ value = "0x806e9" ∧
                 cpuid_to_human_friendly value = inr "Amber Lake")
              ∨ (entry.1 = "Whisky Lake" ∧ value = "0x806ec" ∧
                 cpuid_to_human_friendly value = inr "Comet Lake"))
              entry.2) CPUIDS) as Hall.
  { apply (bool_decide_unpack _). vm_compute. exact I. }
  rewrite Forall_forall in Hall. specialize (Hall _ Hentry).
  cbn [fst snd] in Hall. rewrite Forall_forall in Hall.
  exact (Hall _ Hvalue).
Qed.

Lemma listed_id_names_its_processor_witness :
  cpuid_to_human_friendly "0x906e9" = inr "Kaby Lake"
  ∨ ("Kaby Lake" = "Kaby Lake" ∧ "0x906e9" = "0x806e9" ∧
     cpuid_to_human_friendly "0x906e9" = inr "Amber Lake")
  ∨ ("Kaby Lake" = "Whisky Lake" ∧ "0x906e9" = "0x806ec" ∧
     cpuid_to_human_friendly "0x906e9" = inr "Comet Lake").
Proof.
  apply (listed_id_names_its_processor
           "Kaby Lake" ["0x806e9"; "0x906e9"] "0x906e9").
  - apply (bool_decide_unpack _). vm_compute. exact I.
  - apply (bool_decide_unpack _). vm_compute. exact I.
Defined.

(** X29.  An id is still recognised inside a longer text and in another
    case.  If the lowered [cpuid] occurs in the lowered [text] and
    [cpuid_to_human_friendly] names [cpuid], then it names [text] too and
    does not raise; the name is the same, or one that the table lists
    before it. *)
Theorem recognised_within_longer_text cpuid text name :
  str_contains (lower cpuid) (lower text) = true →
  cpuid_to_human_friendly cpuid = inr name →
  ∃ name',
    cpuid_to_human_friendly text = inr name' ∧
    (name' = name ∨
     ∃ i j, i < j ∧ CPUIDS.*1 !! i = Some name' ∧ CPUIDS.*1 !! j = Some name).
Proof.
  intros Hin. unfold cpuid_to_human_friendly.
  destruct (first_key CPUIDS cpuid) as [key|] eqn:Hkey; [|done].
  intros [= ->].
  destruct (first_key_mono _ _ _ _ Hin Hkey) as (name' & -> & Hname').
  by exists name'.
Qed.

Lemma recognised_within_longer_text_witness :
  ∃ name',
    cpuid_to_human_friendly "CPUID 0x806C1, stepping 1" = inr name' ∧
    (name' = "Tiger Lake" ∨
     ∃ i j, i < j ∧ CPUIDS.*1 !! i = Some name' ∧
            CPUIDS.*1 !! j = Some "Tiger Lake").
Proof.
  apply (recognised_within_longer_text "0x806c1").
  - vm_compute. reflexivity.
  - vm_compute. reflexivity.
Defined.

End cpuid_table.
